(** * Traceshark: the perf parameter extractors, the timestamp reader,
      the string hash, the heapsort and the time-limited statistics model

    A shallow embedding of
      - [src/misc/traceshark.h]        (namespace [TShark]),
      - [src/parser/perf/perfparams.h] (the [perf_*] extractors),
      - [src/ui/statslimitedmodel.cpp] ([StatsLimitedModel]).

    Conventions.  A C [char] buffer with its length (a [TString], or a
    NUL-terminated [char *]) is a [list ascii]; machine integers are [Z]
    with the wrap-around written at the place where the code can wrap;
    a [double] is a primitive binary64 float; reading an array outside
    its bounds is undefined in C and is [None] here. *)

From Stdlib Require Import ZArith Ascii String List Bool Lia.
From Stdlib Require Import Floats.PrimFloat Numbers.Cyclic.Int63.Uint63.
From stdpp Require Import base option list strings pretty gmap.

Local Open Scope Z_scope.

(** ** Machine integers *)

Module Mach.

Definition u32 (z : Z) : Z := z mod 2 ^ 32.
Definition u64 (z : Z) : Z := z mod 2 ^ 64.
Definition u8  (z : Z) : Z := z mod 2 ^ 8.

(** [*((int * ) &u)]: the two's-complement reading of a 32-bit pattern. *)
Definition s32 (z : Z) : Z :=
  let u := u32 z in if u <? 2 ^ 31 then u else u - 2 ^ 32.

(** [(double) x] for an [unsigned long long] [x]: round to nearest even.
    Below [2^63] the primitive conversion is exact on the 63-bit integer;
    above, the lowest bit is folded into its neighbour as a sticky bit,
    which leaves the rounding of a 64-bit value to 53 bits unchanged. *)
Definition double_of_u64 (z : Z) : float :=
  if z <? 2 ^ 63 then PrimFloat.of_uint63 (Uint63.of_Z z)
  else PrimFloat.mul
         (PrimFloat.of_uint63
            (Uint63.of_Z (Z.lor (Z.shiftr z 1) (Z.land z 1))))
         2%float.

End Mach.

(** ** Characters and strings *)

Definition TString := list ascii.

(** A string literal as the bytes of a [TString]. *)
Definition tok (s : string) : TString := list_ascii_of_string s.

Definition code (c : ascii) : Z := Z.of_nat (nat_of_ascii c).

Definition tlen (s : TString) : Z := Z.of_nat (length s).

(** [*c] for a pointer into a NUL-terminated buffer. *)
Definition deref (c : list ascii) : ascii :=
  match c with
  | [] => Ascii.zero
  | a :: _ => a
  end.

(** [c++] on such a pointer (only ever done when [*c] is not NUL). *)
Definition advance (c : list ascii) : list ascii := tl c.

(** [!(ch < '0' || ch > '9')] *)
Definition is_digit (ch : ascii) : bool :=
  (48 <=? code ch) && (code ch <=? 57).

(** [ch - '0'] *)
Definition digit_of (ch : ascii) : Z := code ch - 48.

Definition all_digits (s : list ascii) : Prop := Forall (fun ch => is_digit ch = true) s.

Definition chr_colon : ascii := "058".
Definition chr_dot   : ascii := "046".
Definition chr_minus : ascii := "045".
Definition chr_eq    : ascii := "061".
Definition chr_space : ascii := "032".
Definition chr_lbrack : ascii := "091".
Definition chr_rbrack : ascii := "093".

(** ** [TShark::timeStrToDouble] *)

Module TShark.

(** The integer-part loop:
    [for (c = str; *c != 0; c++) { if (not a digit) break;
       d = *c - '0'; base *= 10; base += d; }]
    It returns the final [base] and the final [c]. *)
Fixpoint int_loop (c : list ascii) (base : Z) : Z * list ascii :=
  match c with
  | [] => (base, c)
  | ch :: c' =>
      if is_digit ch
      then int_loop c' (Mach.u64 (Mach.u64 (base * 10) + digit_of ch))
      else (base, c)
  end.

(** The fraction loop, which also maintains [divint]. *)
Fixpoint frac_loop (c : list ascii) (base divint : Z) : Z * Z * list ascii :=
  match c with
  | [] => (base, divint, c)
  | ch :: c' =>
      if is_digit ch
      then frac_loop c' (Mach.u64 (Mach.u64 (base * 10) + digit_of ch))
                        (Mach.u64 (divint * 10))
      else (base, divint, c)
  end.

(** The function returns the [double] and the final value of [ok]. *)
Definition timeStrToDouble (str : list ascii) : float * bool :=
  let '(str, isNeg) :=
    if Ascii.eqb (deref str) chr_minus then (advance str, true)
    else (str, false) in
  let '(base, c) := int_loop str 0 in
  let r := Mach.double_of_u64 base in
  let '(r, c) :=
    if Ascii.eqb (deref c) chr_dot then
      let '(base, divint, c) := frac_loop (advance c) 0 1 in
      let div := Mach.double_of_u64 divint in
      (PrimFloat.add r (PrimFloat.div (Mach.double_of_u64 base) div), c)
    else (r, c) in
  if negb (Ascii.eqb (deref c) chr_colon) then (0%float, false)
  else if isNeg then (PrimFloat.opp r, true)
  else (r, true).


(** One step of the digit loops, [base *= 10; base += d;], and of
    [divint *= 10;]. *)
Definition digit_step (base : Z) (ch : ascii) : Z :=
  Mach.u64 (Mach.u64 (base * 10) + digit_of ch).

Definition divint_step (divint : Z) (_ : ascii) : Z :=
  Mach.u64 (divint * 10).

(** The function once the sign has been looked at. *)
Definition time_body (s : list ascii) (isNeg : bool) : float * bool :=
  let '(base, c) := int_loop s 0 in
  let r := Mach.double_of_u64 base in
  let '(r, c) :=
    if Ascii.eqb (deref c) chr_dot then
      let '(base, divint, c) := frac_loop (advance c) 0 1 in
      let div := Mach.double_of_u64 divint in
      (PrimFloat.add r (PrimFloat.div (Mach.double_of_u64 base) div), c)
    else (r, c) in
  if negb (Ascii.eqb (deref c) chr_colon) then (0%float, false)
  else if isNeg then (PrimFloat.opp r, true)
  else (r, true).

(** The strings on which the code sets [ok]: an optional ['-'], a run of
    digits, optionally ['.'] and a second run of digits, then [':'];
    whatever follows the colon is not looked at.  Either run may be
    empty: the loops do not count the digits they read. *)
Record time_parts := TimeParts {
  tp_neg  : bool;
  tp_int  : list ascii;
  tp_frac : option (list ascii);
  tp_rest : list ascii
}.

Definition render_time (p : time_parts) : list ascii :=
  (if tp_neg p then [chr_minus] else []) ++ tp_int p ++
  (match tp_frac p with Some f => chr_dot :: f | None => [] end) ++
  chr_colon :: tp_rest p.

Definition digits_ok (p : time_parts) : Prop :=
  all_digits (tp_int p) /\
  match tp_frac p with Some f => all_digits f | None => True end.

Definition accepted_time (s : list ascii) (p : time_parts) : Prop :=
  s = render_time p /\ digits_ok p.

(** The format as the specification writes it, [[-]?DIGITS(.DIGITS)?]
    followed by [':'], where DIGITS is one digit or more. *)
Definition spec_time_format (s : list ascii) : Prop :=
  exists p, accepted_time s p /\ tp_int p <> [] /\ tp_frac p <> Some [].

(** The number a run of digits denotes, and what the loops compute of it
    in an [unsigned long long]. *)
Definition decimal_value (ds : list ascii) : Z :=
  fold_left (fun b ch => b * 10 + digit_of ch) ds 0.

Definition time_value (p : time_parts) : float :=
  let r := Mach.double_of_u64 (Mach.u64 (decimal_value (tp_int p))) in
  let r :=
    match tp_frac p with
    | Some f =>
        PrimFloat.add r
          (PrimFloat.div
             (Mach.double_of_u64 (Mach.u64 (decimal_value f)))
             (Mach.double_of_u64 (Mach.u64 (10 ^ Z.of_nat (length f)))))
    | None => r
    end in
  if tp_neg p then PrimFloat.opp r else r.

(** The signed decimal value of the parts as the claim has it: the
    integer part plus the fractional part, each digit run taken as the
    number it denotes (the empty run as 0), negated after a ['-']. *)
Definition decimal_time (p : time_parts) : float :=
  let r := Mach.double_of_u64 (decimal_value (tp_int p)) in
  let r :=
    match tp_frac p with
    | Some f =>
        PrimFloat.add r
          (PrimFloat.div
             (Mach.double_of_u64 (decimal_value f))
             (Mach.double_of_u64 (10 ^ Z.of_nat (length f))))
    | None => r
    end in
  if tp_neg p then PrimFloat.opp r else r.

(** Digit runs of at most 19 digits: their numbers, and the power of ten
    of the fraction, are below [2^64]. *)
Definition short_runs (p : time_parts) : Prop :=
  Z.of_nat (length (tp_int p)) <= 19 /\
  match tp_frac p with
  | Some f => Z.of_nat (length f) <= 19
  | None => True
  end.

(** ** [TShark::StrHash32] *)

(** [union value32 { uint32_t word32; uint8_t word8[4]; }]: four bytes,
    read as a word in the byte order of the machine. *)
Inductive byte_order := LittleEndian | BigEndian.

Definition value32 := list Z.

Definition le_word (bytes : list Z) : Z :=
  fold_right (fun b acc => Z.lor b (Z.shiftl acc 8)) 0 bytes.

Definition word32 (bo : byte_order) (u : value32) : Z :=
  match bo with
  | LittleEndian => le_word u
  | BigEndian => le_word (rev u)
  end.

(** [str->ptr[i]] stored into a [uint8_t]. *)
Definition byte_at (str : TString) (i : nat) : Z :=
  Mach.u8 (code (nth i str Ascii.zero)).

Definition StrHash32 (bo : byte_order) (str : TString) : Z :=
  let uvalue : value32 := [0; 0; 0; 0] in
  if tlen str <? 1 then 0
  else
    let uvalue := <[0%nat := byte_at str 0]> uvalue in
    if tlen str <? 4 then word32 bo uvalue
    else
      let uvalue := <[1%nat := byte_at str 1]> uvalue in
      let uvalue := <[2%nat := byte_at str 2]> uvalue in
      let uvalue := <[3%nat := byte_at str 3]> uvalue in
      word32 bo uvalue.

(** The bytes of the string the function stores into the union before
    it reads the word. *)
Definition hashed_bytes (str : TString) : value32 :=
  match str with
  | c0 :: c1 :: c2 :: c3 :: _ =>
      [Mach.u8 (code c0); Mach.u8 (code c1);
       Mach.u8 (code c2); Mach.u8 (code c3)]
  | c0 :: _ => [Mach.u8 (code c0); 0; 0; 0]
  | [] => [0; 0; 0; 0]
  end.

(** The hash as the specification describes it: the first four bytes of
    the string, or all of them when there are fewer, the other positions
    zero, combined into one word. *)
Definition spec_first_bytes (str : TString) : value32 :=
  take 4 (map (fun ch => Mach.u8 (code ch)) str ++ [0; 0; 0; 0]).

Definition spec_StrHash32 (bo : byte_order) (str : TString) : Z :=
  word32 bo (spec_first_bytes str).

(** ** [TShark::heapsort] *)

Section Heapsort.

Context {T : Type}.
Variable compFunc : T -> T -> Z.

(** The index helpers take and return [unsigned int]. *)
Definition __heap_iParent (i : Z) : Z := Mach.u32 (Mach.u32 i - 1) / 2.
Definition __heap_iLeftChild (i : Z) : Z := Mach.u32 (2 * Mach.u32 i + 1).
Definition __heap_iRightChild (i : Z) : Z := Mach.u32 (2 * Mach.u32 i + 2).

(** [container[i]]; outside the container the access is undefined. *)
Definition elem_at (container : list T) (i : Z) : option T :=
  if i <? 0 then None else container !! Z.to_nat i.

(** [container.swap(i, j)] *)
Definition swap_at (container : list T) (i j : Z) : option (list T) :=
  x ← elem_at container i;
  y ← elem_at container j;
  Some (<[Z.to_nat j := x]> (<[Z.to_nat i := y]> container)).

(** The [while] loop of [__heap_siftdown]; [fuel] bounds the number of
    iterations, and running out of it is [None]. *)
Fixpoint siftdown_loop (fuel : nat) (container : list T) (root end_ : Z)
  : option (list T) :=
  match fuel with
  | O => None
  | S fuel' =>
      if __heap_iLeftChild root <=? end_ then
        let child := __heap_iLeftChild root in
        let swap := root in
        a ← elem_at container swap;
        b ← elem_at container child;
        let swap := if compFunc a b <? 0 then child else swap in
        let rchild := child + 1 in
        swap ← (if rchild <=? end_ then
                  a ← elem_at container swap;
                  b ← elem_at container rchild;
                  Some (if compFunc a b <? 0 then rchild else swap)
                else Some swap);
        if swap =? root then Some container
        else
          container ← swap_at container root swap;
          siftdown_loop fuel' container swap end_
      else Some container
  end.

(** [root] grows at every iteration and stays at most [end_], so
    [end_ - start + 1] iterations are enough. *)
Definition __heap_siftdown (container : list T) (start end_ : Z)
  : option (list T) :=
  siftdown_loop (S (Z.to_nat (end_ - start))) container start end_.

(** [while (start >= 0) { siftdown(start, count - 1); start--; }] with
    [n = start + 1]. *)
Fixpoint heapify_loop (n : nat) (container : list T) (count : Z)
  : option (list T) :=
  match n with
  | O => Some container
  | S n' =>
      container ← __heap_siftdown container (Z.of_nat n') (count - 1);
      heapify_loop n' container count
  end.

Definition __heap_heapify (container : list T) : option (list T) :=
  let count := Z.of_nat (length container) in
  let start := __heap_iParent (count - 1) in
  heapify_loop (Z.to_nat (start + 1)) container count.

(** [while (end > 0) { swap(0, end); end--; siftdown(0, end); }] with
    [n = end]. *)
Fixpoint sort_loop (n : nat) (container : list T) : option (list T) :=
  match n with
  | O => Some container
  | S n' =>
      container ← swap_at container 0 (Z.of_nat (S n'));
      container ← __heap_siftdown container 0 (Z.of_nat n');
      sort_loop n' container
  end.

Definition heapsort (container : list T) : option (list T) :=
  let count := Z.of_nat (length container) in
  if count <? 2 then Some container
  else
    container ← __heap_heapify container;
    sort_loop (Z.to_nat (count - 1)) container.

(** What the comparator must be for "sorted" to mean something:
    [ge a b], "a does not sort before b", is a total preorder. *)
Definition cmp_ge (a b : T) : Prop := 0 <= compFunc a b.

Definition cmp_total_preorder : Prop :=
  (forall a b c, cmp_ge a b -> cmp_ge b c -> cmp_ge a c) /\
  (forall a b, compFunc a b < 0 -> cmp_ge b a).

(** The container is in non-decreasing comparator order. *)
Definition cmp_sorted (l : list T) : Prop :=
  forall (i j : nat) (x y : T),
    (i <= j)%nat -> l !! i = Some x -> l !! j = Some y -> cmp_ge y x.

(** Stability: for every element [x], the elements that compare equal to
    [x] come out in the order in which they went in. *)
Definition cmp_equal (x y : T) : bool := compFunc x y =? 0.

Definition keeps_equal_order (input output : list T) : Prop :=
  forall x, filter (fun y => cmp_equal x y = true) output
          = filter (fun y => cmp_equal x y = true) input.

(** The invariants of the sort.  [c] is a child of [i]; between [lo] and
    [hi] every node is not sorted before by a child; the same but for
    the node [r] being sifted, whose parent dominates its children; and
    the list [l'] has the elements of [l], moved inside [lo .. hi]
    only. *)
Definition is_child (i c : nat) : Prop :=
  c = (2 * i + 1)%nat \/ c = (2 * i + 2)%nat.

Definition heap_between (l : list T) (lo hi : nat) : Prop :=
  forall i c x y,
    (lo <= i)%nat -> (c <= hi)%nat -> is_child i c ->
    l !! i = Some x -> l !! c = Some y -> cmp_ge x y.

Definition heap_except (l : list T) (lo hi r : nat) : Prop :=
  (forall i c x y,
     (lo <= i)%nat -> i <> r -> (c <= hi)%nat -> is_child i c ->
     l !! i = Some x -> l !! c = Some y -> cmp_ge x y) /\
  (forall p c x y,
     (lo <= p)%nat -> is_child p r -> is_child r c -> (c <= hi)%nat ->
     l !! p = Some x -> l !! c = Some y -> cmp_ge x y).

Definition moved_within (l l' : list T) (lo hi : nat) : Prop :=
  length l' = length l /\
  l ≡ₚ l' /\
  (forall k, (k < lo)%nat \/ (hi < k)%nat -> l' !! k = l !! k) /\
  (forall i x, (lo <= i <= hi)%nat -> l' !! i = Some x ->
               exists i', (lo <= i' <= hi)%nat /\ l !! i' = Some x).

(** From [k] on, every element is not sorted before by any element at
    or before it. *)
Definition sorted_from (l : list T) (k : nat) : Prop :=
  forall (i j : nat) (x y : T),
    (i <= j)%nat -> (k <= j)%nat ->
    l !! i = Some x -> l !! j = Some y -> cmp_ge y x.

End Heapsort.

End TShark.

(** ** Trace events *)

(** Modelled from the spec: [TraceEvent] of [parser/traceevent.h] and
    [TString] of [misc/tstring.h] are missing; the spec gives an event
    its "argument vector (sequence of interned slices)", and of an event
    the extractors read [argc] and [argv] only. *)
Record TraceEvent := mkEvent { argv : list TString }.

Definition argc (event : TraceEvent) : Z := Z.of_nat (length (argv event)).

(** [event.argv[i]]; undefined outside [0 .. argc - 1]. *)
Definition arg (event : TraceEvent) (i : Z) : option TString :=
  if i <? 0 then None else argv event !! Z.to_nat i.

Definition event_of (words : list string) : TraceEvent :=
  mkEvent (map tok words).

(** ** The parameter helpers

    [parser/paramhelpers.h], [parser/perf/helpers.h], [misc/string.h],
    [misc/errors.h] and [mm/stringpool.h] are not among the sources at
    hand; what the extractors use of them is modelled here. *)

Module ParamHelpers.

(** Modelled from the spec: [prefixcmp] of [misc/string.h] is missing;
    the spec has the parsers "inspect the token's prefix", so the model
    is zero exactly when [pfix] is a prefix of [s], and the difference of
    the first two bytes that differ otherwise, as [strncmp] has it. *)
Fixpoint prefixcmp (s pfix : list ascii) : Z :=
  match pfix with
  | [] => 0
  | p :: pfix' =>
      match s with
      | [] => 0 - code p
      | ch :: s' =>
          if Ascii.eqb ch p then prefixcmp s' pfix' else code ch - code p
      end
  end.

(** Modelled from the spec: the prefix macros are missing; their values
    are the "recognized argument prefixes" the spec lists, assigned by
    the comments of the code that uses them. *)
Definition IDLE_STATE_PFIX  : list ascii := tok "state=".
Definition SWITCH_PPID_PFIX : list ascii := tok "prev_pid=".
Definition SWITCH_PSTA_PFIX : list ascii := tok "prev_state=".
Definition SWITCH_NPID_PFIX : list ascii := tok "next_pid=".
Definition WAKE_PID_PFIX    : list ascii := tok "pid=".
Definition WAKE_CPU_PFIX    : list ascii := tok "CPU:".
Definition WAKE_TCPU_PFIX   : list ascii := tok "target_cpu=".
Definition FORK_CPID_PFIX   : list ascii := tok "child_pid=".

(** Modelled from the spec: the value of [ABSURD_INT] is missing; the
    spec only has it as a sentinel no PID can take. *)
Definition ABSURD_INT : Z := -2147483647.

(** Modelled from the spec: [TASKNAME_MAXLEN] is missing; the spec gives
    "maximum task-name length = 16 bytes". *)
Definition TASKNAME_MAXLEN : Z := 16.

(** Modelled from the spec: part of [int_after_char], the bytes of [s]
    after the last occurrence of [ch], if there is one. *)
Fixpoint after_last (ch : ascii) (s : list ascii) : option (list ascii) :=
  match s with
  | [] => None
  | c :: s' =>
      match after_last ch s' with
      | Some r => Some r
      | None => if Ascii.eqb c ch then Some s' else None
      end
  end.

(** Modelled from the spec: part of [copy_tstring_before_char_], the
    bytes of [s] before the last occurrence of [ch]. *)
Fixpoint before_last (ch : ascii) (s : list ascii) : option (list ascii) :=
  match s with
  | [] => None
  | c :: s' =>
      match before_last ch s' with
      | Some r => Some (c :: r)
      | None => if Ascii.eqb c ch then Some [] else None
      end
  end.

(** Modelled from the spec: part of [copy_tstring_after_char_], the
    bytes of [s] after the first occurrence of [ch]. *)
Fixpoint after_first (ch : ascii) (s : list ascii) : option (list ascii) :=
  match s with
  | [] => None
  | c :: s' => if Ascii.eqb c ch then Some s' else after_first ch s'
  end.

(** Modelled from the spec: part of [uint_after_pfix] and
    [int_after_char], the leading digits of [s] accumulated in an
    [unsigned int]. *)
Fixpoint read_uint (s : list ascii) (param : Z) : Z :=
  match s with
  | [] => param
  | ch :: s' =>
      if is_digit ch
      then read_uint s' (Mach.u32 (Mach.u32 (param * 10) + digit_of ch))
      else param
  end.

(** Modelled from the spec: part of [int_after_char], an optional ['-']
    and the digits after it, as an [int]. *)
Definition read_int (s : list ascii) : Z :=
  match s with
  | ch :: s' =>
      if Ascii.eqb ch chr_minus then Mach.s32 (- read_uint s' 0)
      else Mach.s32 (read_uint s 0)
  | [] => 0
  end.

(** Modelled from the spec: [int_after_char] is missing; the spec reads
    PIDs as "the integer after [':']" (or ['=']) of a token.  The last
    occurrence is the one meant, task names may contain the character;
    a token without it has no integer and gives [ABSURD_INT]. *)
Definition int_after_char (event : TraceEvent) (n_param : Z) (ch : ascii)
  : option Z :=
  t ← arg event n_param;
  Some (match after_last ch t with
        | Some digits => read_int digits
        | None => ABSURD_INT
        end).

(** Modelled from the spec: part of [uint_after_pfix], the bytes of [s]
    after its last separator, ['='] or [':']. *)
Fixpoint after_last_sep (s : list ascii) : option (list ascii) :=
  match s with
  | [] => None
  | c :: s' =>
      match after_last_sep s' with
      | Some r => Some r
      | None =>
          if Ascii.eqb c chr_eq || Ascii.eqb c chr_colon then Some s'
          else None
      end
  end.

(** Modelled from the spec: [uint_after_pfix] is missing; the spec has
    extractors of [prefix=value] arguments, for "positional numeric
    arguments with known prefixes", each value "behind its known
    prefix": on an
    argument that carries the prefix the digits behind it are read.
    The spec also has the last argument of a wakeup give the same CPU in
    either format ([CPU:3] and [target_cpu=3] both give 3), and the code
    reads both with the prefix [target_cpu=]: an argument that carries
    another prefix is read behind its own separator, the last ['='] or
    [':'].  An argument without a separator has no digits to read. *)
Definition uint_after_pfix (event : TraceEvent) (n_param : Z)
  (pfix : list ascii) : option Z :=
  t ← arg event n_param;
  Some (read_uint
          (if prefixcmp t pfix =? 0 then drop (length pfix) t
           else default [] (after_last_sep t)) 0).

(** Modelled from the spec: [is_param_inside_braces_or_cant] is missing;
    the spec stops the backward walk at "a bracketed priority (or CANT
    marker)", the tokens [[PRIO]] and [[PRIO]<CANT]. *)
Definition is_param_inside_braces_or_cant (str : TString) : bool :=
  match str with
  | ch :: rest =>
      Ascii.eqb ch chr_lbrack &&
      (bool_decide (suffix [chr_rbrack] rest) ||
       bool_decide (suffix (chr_rbrack :: tok "<CANT") rest))
  | [] => false
  end.

(** Modelled from the spec: [taskstate_t] and [sched_state_from_tstring_]
    are missing; the spec: "one or two characters mapped to a taskstate
    bitmask (R, S, D, T, t, X, Z, I, plus + for preempted-runnable).
    Unknown state returns a parser-error sentinel". *)
Inductive task_letter :=
  | State_R | State_S | State_D | State_T | State_t
  | State_X | State_Z | State_I.

Inductive taskstate_t :=
  | TASK_STATE (letter : task_letter) (preempted : bool)
  | TASK_STATE_PARSER_ERROR.

Definition letter_of (ch : ascii) : option task_letter :=
  if Ascii.eqb ch "R" then Some State_R
  else if Ascii.eqb ch "S" then Some State_S
  else if Ascii.eqb ch "D" then Some State_D
  else if Ascii.eqb ch "T" then Some State_T
  else if Ascii.eqb ch "t" then Some State_t
  else if Ascii.eqb ch "X" then Some State_X
  else if Ascii.eqb ch "Z" then Some State_Z
  else if Ascii.eqb ch "I" then Some State_I
  else None.

Definition sched_state_from_tstring_ (st : TString) : taskstate_t :=
  match st with
  | [ch] =>
      match letter_of ch with
      | Some l => TASK_STATE l false
      | None => TASK_STATE_PARSER_ERROR
      end
  | [ch; plus] =>
      match letter_of ch with
      | Some l =>
          if Ascii.eqb plus "+" then TASK_STATE l true
          else TASK_STATE_PARSER_ERROR
      | None => TASK_STATE_PARSER_ERROR
      end
  | _ => TASK_STATE_PARSER_ERROR
  end.

(** Modelled from the spec: part of the two [_newformat_] helpers below,
    the first index in [n - 1, n - 2, .. , lo] whose argument has the
    prefix. *)
Fixpoint find_pfix_down (event : TraceEvent) (pfix : list ascii)
  (lo : Z) (n : nat) : option (option Z) :=
  match n with
  | O => Some None
  | S n' =>
      if Z.of_nat n' <? lo then Some None
      else
        t ← arg event (Z.of_nat n');
        if prefixcmp t pfix =? 0 then Some (Some (Z.of_nat n'))
        else find_pfix_down event pfix lo n'
  end.

End ParamHelpers.

(** ** The perf extractors of [perfparams.h] *)

Module PerfParams.

Import ParamHelpers.

(** [handle.perf] as [perf_sched_switch_parse] leaves it: the index of
    the arrow token and the style of the line. *)
Record sched_switch_handle := mkHandle {
  index : Z;
  is_distro_style : bool
}.

(** *** [cpu_idle] *)

Definition perf_cpuidle_state (event : TraceEvent) : option Z :=
  ustate ← uint_after_pfix event 0 IDLE_STATE_PFIX;
  (* the string is a signed printed as unsigned *)
  let state := Mach.s32 ustate in
  Some state.

(** *** [sched_switch] *)

(** Modelled from the spec: [perf_sched_switch_handle_oldpid_newformat_]
    and [perf_sched_switch_handle_newpid_newformat_] of
    [parser/perf/helpers.h] are missing; the spec: "in regular style, the
    integer after [=] in the [prev_pid=] token", and the new PID
    "symmetric". *)
Definition perf_sched_switch_handle_oldpid_newformat_
  (event : TraceEvent) (handle : sched_switch_handle) : option Z :=
  found ← find_pfix_down event SWITCH_PPID_PFIX 0 (Z.to_nat (index handle));
  match found with
  | Some i => int_after_char event i chr_eq
  | None => Some ABSURD_INT
  end.

Definition perf_sched_switch_handle_newpid_newformat_
  (event : TraceEvent) (handle : sched_switch_handle) : option Z :=
  found ← find_pfix_down event SWITCH_NPID_PFIX (index handle + 1)
            (Z.to_nat (argc event));
  match found with
  | Some i => int_after_char event i chr_eq
  | None => Some ABSURD_INT
  end.

(** The inner loop of the regular format,
    [for (j = t->len - 2; j > 0; j--) if (t->ptr[j] == '=') ..]:
    the substring after the ['='] it stops at. *)
Fixpoint state_scan_eq (t : TString) (j : nat) : option TString :=
  match j with
  | O => None
  | S j' =>
      if Ascii.eqb (nth j t Ascii.zero) chr_eq then Some (drop (S j) t)
      else state_scan_eq t j'
  end.

(** The outer loop, [for (; i >= 0; i--)], with [n = i + 1]. *)
Fixpoint state_scan_args (event : TraceEvent) (n : nat)
  : option taskstate_t :=
  match n with
  | O => Some TASK_STATE_PARSER_ERROR
  | S n' =>
      t ← arg event (Z.of_nat n');
      if prefixcmp t SWITCH_PSTA_PFIX =? 0 then
        match state_scan_eq t (Z.to_nat (tlen t - 2)) with
        | Some st => Some (sched_state_from_tstring_ st)
        | None => state_scan_args event n'
        end
      else state_scan_args event n'
  end.

Definition perf_sched_switch_handle_state
  (event : TraceEvent) (handle : sched_switch_handle) : option taskstate_t :=
  let i := index handle - 1 in
  if is_distro_style handle then
    (* This is the distro format *)
    stateArgStr ← arg event i;
    if (tlen stateArgStr =? 1) || (tlen stateArgStr =? 2)
    then Some (sched_state_from_tstring_ stateArgStr)
    else Some TASK_STATE_PARSER_ERROR
  else
    (* This is the regular format *)
    state_scan_args event (Z.to_nat (i + 1)).

Definition perf_sched_switch_handle_oldpid
  (event : TraceEvent) (handle : sched_switch_handle) : option Z :=
  let idx := index handle in
  if is_distro_style handle
  then int_after_char event (idx - 3) chr_colon
  else perf_sched_switch_handle_oldpid_newformat_ event handle.

Definition perf_sched_switch_handle_newpid
  (event : TraceEvent) (handle : sched_switch_handle) : option Z :=
  if is_distro_style handle
  then int_after_char event (argc event - 2) chr_colon
  else perf_sched_switch_handle_newpid_newformat_ event handle.

(** *** [sched_wakeup] *)


(** [for (idx = argc - 2; idx >= 1; idx--)
       if (is_param_inside_braces_or_cant(argv[idx])) { idx--; break; }]
    from [idx = n]; the result is the value of [idx] after the loop. *)
Fixpoint wakeup_pid_walk (event : TraceEvent) (n : nat) : option Z :=
  match n with
  | O => Some 0
  | S n' =>
      priostr ← arg event (Z.of_nat n);
      if is_param_inside_braces_or_cant priostr then Some (Z.of_nat n')
      else wakeup_pid_walk event n'
  end.

(** [for (idx = argc - 3; idx >= 0; idx--)
       if (!prefixcmp(argv[idx]->ptr, WAKE_PID_PFIX)) return ..]
    with [n = idx + 1]; [None] inside when the loop runs to its end. *)
Fixpoint wakeup_pid_search (event : TraceEvent) (n : nat)
  : option (option Z) :=
  match n with
  | O => Some None
  | S n' =>
      pidstr ← arg event (Z.of_nat n');
      if prefixcmp pidstr WAKE_PID_PFIX =? 0
      then r ← int_after_char event (Z.of_nat n') chr_eq; Some (Some r)
      else wakeup_pid_search event n'
  end.

Definition perf_sched_wakeup_pid (event : TraceEvent) : option Z :=
  let lastidx := argc event - 1 in
  last ← arg event lastidx;
  if prefixcmp last WAKE_CPU_PFIX =? 0 then
    (* libtraceevent output format: newer perf or Fedora *)
    idx ← (if 1 <=? argc event - 2
           then wakeup_pid_walk event (Z.to_nat (argc event - 2))
           else Some (argc event - 2));
    int_after_char event idx chr_colon
  else if prefixcmp last WAKE_TCPU_PFIX =? 0 then
    (* older perf *)
    found ← wakeup_pid_search event (Z.to_nat (argc event - 3 + 1));
    match found with
    | Some pid => Some pid
    | None =>
        let idx := argc event - 2 in
        pidstr ← arg event idx;
        if prefixcmp pidstr WAKE_PID_PFIX =? 0
        then int_after_char event idx chr_eq
        else Some ABSURD_INT
    end
  else
    (* a completely unknown format *)
    Some ABSURD_INT.

(** *** [sched_process_fork] *)

(** [for (i = endidx - 1; i > 0; i--)
       if (prefixcmp(argv[i]->ptr, "child_pid=") == 0) break;]
    from [i = n]; the result is the value of [i] after the loop. *)
Fixpoint fork_childpid_walk (event : TraceEvent) (n : nat) : option Z :=
  match n with
  | O => Some 0
  | S n' =>
      t ← arg event (Z.of_nat n);
      if prefixcmp t FORK_CPID_PFIX =? 0 then Some (Z.of_nat n)
      else fork_childpid_walk event n'
  end.

(** The argument carries the prefix [child_pid=]. *)
Definition has_child_pid_pfix (t : TString) : Prop :=
  prefixcmp t FORK_CPID_PFIX = 0.

Definition perf_sched_process_fork_childpid (event : TraceEvent)
  : option Z :=
  let endidx := argc event - 1 in
  let guessidx := endidx in
  guess ← arg event guessidx;
  if prefixcmp guess FORK_CPID_PFIX =? 0
  then int_after_char event guessidx chr_eq
  else
    i ← (if 0 <? endidx - 1
         then fork_childpid_walk event (Z.to_nat (endidx - 1))
         else Some (endidx - 1));
    if i <? 0 then Some ABSURD_INT
    else int_after_char event i chr_eq.

End PerfParams.

(** ** Task names of [sched_switch] *)

Module TaskNames.

Import ParamHelpers PerfParams.

(** A [const char *] result: the string [NullStr], or the bytes of a
    pooled string. *)
Inductive cstr := NullStr | CStr (s : list ascii).

(** Modelled from the spec: [StringPool] of [mm/stringpool.h] is missing;
    the spec: "[intern(bytes)] returns the existing reference if the byte
    sequence is already interned, otherwise copies the bytes [..] and
    inserts into the index".  The pool is the set of its strings, and
    [allocString] always has a string to return; the code still tests the
    result against [nullptr]. *)
Definition StringPool := gset (list ascii).

Definition allocString (pool : StringPool) (str : TString) (cutoff : Z)
  : option TString * StringPool :=
  (Some str, {[ str ]} ∪ pool).

(** Modelled from the spec: part of the copy and merge helpers below.
    The scratch buffer [sbuf] with the cursor [c] and the count [len] is
    the bytes written so far; a helper that sets [ok = false] gives
    [None]. *)
Definition append_bounded (buf frag : list ascii) (maxlen : Z)
  : option (list ascii) :=
  if tlen buf + tlen frag <=? maxlen then Some (buf ++ frag) else None.

(** Modelled from the spec: [copy_tstring_after_char_] and
    [copy_tstring_before_char_] are missing; the spec: "copying the
    after-[=] or before-[:] fragments of the flanking tokens. Bounded by
    [TASKNAME_MAXLEN]; overflow fails".  The name starts after the first
    ['='] and ends before the last [':'], the PID follows that one. *)
Definition copy_tstring_after_char_ (str : TString) (ch : ascii)
  (buf : list ascii) (maxlen : Z) : option (list ascii) :=
  frag ← after_first ch str; append_bounded buf frag maxlen.

Definition copy_tstring_before_char_ (str : TString) (ch : ascii)
  (buf : list ascii) (maxlen : Z) : option (list ascii) :=
  frag ← before_last ch str; append_bounded buf frag maxlen.

(** Modelled from the spec: [merge_args_into_cstring] and
    [merge_args_into_cstring_nullterminate] are missing; the spec:
    "names may contain spaces; reconstruction merges all argument tokens
    from the start-of-name position to the last-token-before-terminator
    into the scratch buffer", bounded as above.  The first puts the
    space after each token (the fragment of the last token follows), the
    second before each token (the fragment of the first precedes).  The
    outer [option] is the array access, the inner one is [ok]. *)
Fixpoint merge_loop (event : TraceEvent) (space_first : bool) (i : Z)
  (n : nat) (buf : list ascii) (maxlen : Z) : option (option (list ascii)) :=
  match n with
  | O => Some (Some buf)
  | S n' =>
      t ← arg event i;
      match append_bounded buf
              (if space_first then chr_space :: t else t ++ [chr_space])
              maxlen with
      | None => Some None
      | Some buf' => merge_loop event space_first (i + 1) n' buf' maxlen
      end
  end.

Definition merge_args_into_cstring (event : TraceEvent)
  (beginidx endidx : Z) (buf : list ascii) (maxlen : Z) :=
  merge_loop event false beginidx (Z.to_nat (endidx - beginidx + 1))
    buf maxlen.

Definition merge_args_into_cstring_nullterminate (event : TraceEvent)
  (beginidx endidx : Z) (buf : list ascii) (maxlen : Z) :=
  merge_loop event true beginidx (Z.to_nat (endidx - beginidx + 1))
    buf maxlen.

(** The common end of the name functions:
    [ts.len = len; retstr = pool->allocString(&ts, 0);
     if (retstr == nullptr) return NullStr; return retstr->ptr;] *)
Definition pool_name (pool : StringPool) (buf : list ascii)
  : cstr * StringPool :=
  let ts := buf in
  match allocString pool ts 0 with
  | (None, pool') => (NullStr, pool')
  | (Some retstr, pool') => (CStr retstr, pool')
  end.

Definition perf_sched_switch_handle_newname_strdup_
  (event : TraceEvent) (pool : StringPool) (handle : sched_switch_handle)
  : option (cstr * StringPool) :=
  let buf : list ascii := [] in
  let i := index handle in
  if negb (is_distro_style handle) then
    first ← arg event (i + 1);
    let beginidx := i + 2 in
    let endidx := argc event - 3 in
    match copy_tstring_after_char_ first chr_eq buf TASKNAME_MAXLEN with
    | None => Some (NullStr, pool)
    | Some buf =>
        merged ← merge_args_into_cstring_nullterminate event beginidx
                   endidx buf TASKNAME_MAXLEN;
        match merged with
        | None => Some (NullStr, pool)
        | Some buf => Some (pool_name pool buf)
        end
    end
  else
    last ← arg event (argc event - 2);
    let beginidx := i + 1 in
    let endidx := argc event - 3 in
    merged ← merge_args_into_cstring event beginidx endidx buf
               TASKNAME_MAXLEN;
    match merged with
    | None => Some (NullStr, pool)
    | Some buf =>
        match copy_tstring_before_char_ last chr_colon buf
                TASKNAME_MAXLEN with
        | None => Some (NullStr, pool)
        | Some buf => Some (pool_name pool buf)
        end
    end.

Definition perf_sched_switch_handle_oldname_strdup_
  (event : TraceEvent) (pool : StringPool) (handle : sched_switch_handle)
  : option (cstr * StringPool) :=
  let buf : list ascii := [] in
  let i := index handle in
  if negb (is_distro_style handle) then
    first ← arg event 0;
    let beginidx := 1 in
    let endidx := i - 4 in
    match copy_tstring_after_char_ first chr_eq buf TASKNAME_MAXLEN with
    | None => Some (NullStr, pool)
    | Some buf =>
        merged ← merge_args_into_cstring_nullterminate event beginidx
                   endidx buf TASKNAME_MAXLEN;
        match merged with
        | None => Some (NullStr, pool)
        | Some buf => Some (pool_name pool buf)
        end
    end
  else
    last ← arg event (i - 3);
    let beginidx := 0 in
    let endidx := i - 4 in
    merged ← merge_args_into_cstring event beginidx endidx buf
               TASKNAME_MAXLEN;
    match merged with
    | None => Some (NullStr, pool)
    | Some buf =>
        match copy_tstring_before_char_ last chr_colon buf
                TASKNAME_MAXLEN with
        | None => Some (NullStr, pool)
        | Some buf => Some (pool_name pool buf)
        end
    end.

(** The name the line carries, rebuilt without any bound: the tokens
    [beginidx .. endidx] joined by spaces around the fragment of the
    flanking token.  There is none when a token of the range is not in
    the event or the flanking token lacks its separator. *)
Definition tokens (event : TraceEvent) (beginidx endidx : Z)
  : option (list TString) :=
  if endidx <? beginidx then Some []
  else if (0 <=? beginidx) && (endidx <? argc event)
  then Some (take (Z.to_nat (endidx - beginidx + 1))
               (drop (Z.to_nat beginidx) (argv event)))
  else None.

Definition regular_name (event : TraceEvent) (firstidx endidx : Z)
  : option (list ascii) :=
  first ← arg event firstidx;
  frag ← after_first chr_eq first;
  toks ← tokens event (firstidx + 1) endidx;
  Some (frag ++ concat (map (cons chr_space) toks)).

Definition distro_name (event : TraceEvent) (beginidx lastidx : Z)
  : option (list ascii) :=
  last ← arg event lastidx;
  toks ← tokens event beginidx (lastidx - 1);
  frag ← before_last chr_colon last;
  Some (concat (map (fun t => t ++ [chr_space]) toks) ++ frag).

Definition switch_newname (event : TraceEvent)
  (handle : sched_switch_handle) : option (list ascii) :=
  if is_distro_style handle
  then distro_name event (index handle + 1) (argc event - 2)
  else regular_name event (index handle + 1) (argc event - 3).

Definition switch_oldname (event : TraceEvent)
  (handle : sched_switch_handle) : option (list ascii) :=
  if is_distro_style handle
  then distro_name event 0 (index handle - 3)
  else regular_name event 0 (index handle - 4).

(** What the functions are to return for a name. *)
Definition bounded_name (pool : StringPool) (name : list ascii)
  : cstr * StringPool :=
  if tlen name <=? TASKNAME_MAXLEN then (CStr name, {[ name ]} ∪ pool)
  else (NullStr, pool).

End TaskNames.

(** ** [StatsLimitedModel] *)

Module StatsLimitedModel.

(** Modelled from the spec: [vtl::Time] is missing; the spec has
    timestamps as "fixed-point integers", and the model is the integer
    count of the smallest unit. *)
Definition Time := Z.

Definition QString := list ascii.

(** Modelled from the spec: [Task] and [TaskHandle] of [analyzer/task.h]
    are missing; the spec has a task as a "per-PID record: PID, display
    name, ..", and the model reads the four fields below. *)
Record Task := mkTask {
  pid : Z;
  displayName : QString;
  cursorTime : Time;
  cursorPct : Z
}.

Record TaskHandle := mkTaskHandle { task : Task }.

(** Modelled from the spec: [vtl::AVLTree] is missing; the task map is
    taken as its iteration from [begin()] to [end()] sees it, the
    entries in key order. *)
Definition TaskMap := list (Z * TaskHandle).

Inductive QVariant :=
  | QVariant_invalid
  | QVariant_string (s : QString)
  | QVariant_int (i : Z).

(** [QModelIndex]: valid when row and column are not negative and the
    index belongs to a model. *)
Record QModelIndex := mkIndex {
  index_row : Z;
  index_column : Z;
  index_has_model : bool
}.

Definition isValid (index : QModelIndex) : bool :=
  (0 <=? index_row index) && (0 <=? index_column index) &&
  index_has_model index.

Definition Qt_DisplayRole : Z := 0.
Definition Qt_TextAlignmentRole : Z := 7.
Definition Qt_AlignLeft : Z := 1.
Definition Qt_AlignVCenter : Z := 128.

(** [QString::compare]: negative, zero or positive as the first string
    sorts before, with or after the second. *)
Fixpoint QString_compare (a b : QString) : Z :=
  match a, b with
  | [], [] => 0
  | [], _ :: _ => -1
  | _ :: _, [] => 1
  | x :: a', y :: b' =>
      if code x =? code y then QString_compare a' b' else code x - code y
  end.

(** [QString::number(int)] *)
Definition QString_number (n : Z) : QString := tok (pretty n).

(** The members of the model. *)
Record Model := mkModel {
  taskList : list Task;
  errorStr : QString;
  idleTask : Task
}.

Definition set_cursorTime (t : Task) (v : Time) : Task :=
  mkTask (pid t) (displayName t) v (cursorPct t).

Definition set_cursorPct (t : Task) (v : Z) : Task :=
  mkTask (pid t) (displayName t) (cursorTime t) v.

(** The comparator handed to the heapsort: longest cursor time first,
    then by name, then by PID. *)
Definition task_compare (a b : Task) : Z :=
  let as_ := displayName a in
  let bs := displayName b in
  if cursorTime a <? cursorTime b then 1
  else if cursorTime a >? cursorTime b then -1
  else
    let cmp1 := QString_compare as_ bs in
    if negb (cmp1 =? 0) then cmp1
    else
      let cmp2 := pid a - pid b in
      Mach.s32 cmp2.

(** Modelled from the spec: [vtl::heapsort] of [vtl/heapsort.h] is
    missing; the spec knows one "custom heapsort over generic
    containers" with a comparator, which is the heapsort of
    [misc/traceshark.h]. *)
Definition vtl_heapsort {T : Type} (compFunc : T -> T -> Z)
  (container : list T) : option (list T) :=
  TShark.heapsort compFunc container.

Section Model.

(** Two conversions of [vtl::Time] are outside the sources at hand: the
    percentage expression
    [(unsigned) (10000 * (a.toDouble() / d.toDouble() + 0.00005))]
    and [toQString()]. *)
Variable cursor_pct_of : Time -> Time -> Z.
Variable Time_toQString : Time -> QString.

(** The iteration over the map: tasks with a cursor time are appended,
    and their time is taken from the idle task. *)
Fixpoint collect (iter : TaskMap) (taskList : list Task) (idle : Task)
  : list Task * Task :=
  match iter with
  | [] => (taskList, idle)
  | (_, handle) :: iter' =>
      let t := task handle in
      if negb (cursorTime t =? 0)
      then collect iter' (taskList ++ [t])
             (set_cursorTime idle (cursorTime idle - cursorTime t))
      else collect iter' taskList idle
  end.

(** [lowerTimeLimit] and [higherTimeLimit] are the static members of
    [AbstractTask]; a null [map] is [None]. *)
Definition setTaskMap (lowerTimeLimit higherTimeLimit : Time)
  (m : Model) (map : option TaskMap) (nrcpus : Z) : option Model :=
  let delta := higherTimeLimit - lowerTimeLimit in
  let taskList := [] in
  match map with
  | None => Some (mkModel taskList (errorStr m) (idleTask m))
  | Some map =>
      let idle := set_cursorTime (idleTask m) (delta * nrcpus) in
      let '(taskList, idle) := collect map taskList idle in
      let idle := set_cursorPct idle (cursor_pct_of (cursorTime idle) delta) in
      (* Add a fake idle task for event filtering purposes *)
      let taskList := taskList ++ [idle] in
      taskList ← vtl_heapsort task_compare taskList;
      Some (mkModel taskList (errorStr m) idle)
  end.

Definition rowCount (m : Model) : Z := Z.of_nat (length (taskList m)).

(** [row] is an [int]; once it is known not to be negative its
    conversion to [unsigned int] is the same number. *)
Definition rowToPid (m : Model) (row : Z) : option (Z * bool) :=
  if row <? 0 then Some (0, false)
  else
    let urow := row in
    if rowCount m <=? urow then Some (0, false)
    else
      t ← taskList m !! Z.to_nat row;
      Some (pid t, true).

Definition rowToName (m : Model) (row : Z) : option (QString * bool) :=
  if row <? 0 then Some (errorStr m, false)
  else
    let urow := row in
    if rowCount m <=? urow then Some (errorStr m, false)
    else
      t ← taskList m !! Z.to_nat row;
      Some (displayName t, true).

Definition chr_of (z : Z) : ascii := ascii_of_nat (Z.to_nat (Mach.u8 z)).

(** The result is the final [str] with the final [ok]. *)
Definition rowToPct (m : Model) (str : QString) (row : Z)
  : option (QString * bool) :=
  if row <? 0 then Some (str, false)
  else
    let urow := row in
    if rowCount m <=? urow then Some (str, false)
    else
      t ← taskList m !! Z.to_nat row;
      let pct := cursorPct t in
      let pcti := pct / 100 in
      let pctd := pct mod 100 in
      if 1000 <=? pcti then Some (str, false)
      else
        let p := pcti / 100 in
        let buf0 := if p =? 0 then chr_space else chr_of (48 + p) in
        let p := (pcti mod 100) / 10 in
        let buf1 :=
          if (code buf0 =? 0) && (p =? 0) then chr_space
          else chr_of (48 + p) in
        let p := pcti mod 10 in
        let buf2 := chr_of (48 + p) in
        let buf3 := chr_dot in
        let p := pctd / 10 in
        let buf4 := chr_of (48 + p) in
        let p := pctd mod 10 in
        let buf5 := chr_of (48 + p) in
        Some ([buf0; buf1; buf2; buf3; buf4; buf5], true).

Definition rowToTime (m : Model) (str : QString) (row : Z)
  : option (QString * bool) :=
  if row <? 0 then Some (str, false)
  else
    let urow := row in
    if rowCount m <=? urow then Some (str, false)
    else
      t ← taskList m !! Z.to_nat row;
      Some (Time_toQString (cursorTime t), true).

Definition data (m : Model) (index : QModelIndex) (role : Z)
  : option QVariant :=
  if negb (isValid index) then Some QVariant_invalid
  else if role =? Qt_TextAlignmentRole
  then Some (QVariant_int (Z.lor Qt_AlignLeft Qt_AlignVCenter))
  else if role =? Qt_DisplayRole then
    let row := index_row index in
    let column := index_column index in
    let str : QString := [] in
    if column =? 0 then
      '(str, ok) ← rowToName m row;
      Some (if ok : bool then QVariant_string str else QVariant_invalid)
    else if column =? 1 then
      '(pid, ok) ← rowToPid m row;
      Some (if ok : bool then QVariant_string (QString_number pid)
            else QVariant_invalid)
    else if column =? 2 then
      '(str, ok) ← rowToPct m str row;
      Some (if ok : bool then QVariant_string str else QVariant_invalid)
    else if column =? 3 then
      '(str, ok) ← rowToTime m str row;
      Some (if ok : bool then QVariant_string str else QVariant_invalid)
    else Some QVariant_invalid
  else Some QVariant_invalid.

End Model.

(** The sum the window accounts to the tasks of the map. *)
Definition total_cursorTime (tree : TaskMap) : Time :=
  foldr (fun e acc => cursorTime (task e.2) + acc) 0 tree.

(** The tasks of the map that ran in the window, in map order. *)
Definition active_tasks (tree : TaskMap) : list Task :=
  filter (fun t => cursorTime t <> 0) (map (fun e => task e.2) tree).

End StatsLimitedModel.

(** ** The lines of the scenarios *)

Module Scenarios.

(** S3, [sched_switch] in distribution style; the arrow is argument 3. *)
Definition s3_event : TraceEvent :=
  event_of ["X:5"; "[120]"; "S"; "==>"; "bash:42"; "[120]"]%string.

Definition s3_handle : PerfParams.sched_switch_handle :=
  PerfParams.mkHandle 3 true.


Definition s4_classic : TraceEvent :=
  event_of ["comm=bash"; "pid=42"; "prio=120"; "success=1";
            "target_cpu=3"]%string.

(** A [sched_process_fork] line without a [child_pid=] argument; the
    parent is a task named [12]. *)
Definition fork_without_child_pid : TraceEvent :=
  event_of ["comm=12"; "pid=100"; "child_comm=sh"; "child=101"]%string.

End Scenarios.

Module ScenariosNames.

(** A distribution-style line whose old task name has 21 bytes. *)
Definition long_oldname_event : TraceEvent :=
  event_of ["averyveryverylongname:5"; "[120]"; "S"; "==>"; "bash:42";
            "[120]"]%string.

End ScenariosNames.

Module ScenariosSort.

(** Records sorted by their key, the first component; the second tells
    two records of one key apart. *)
Definition key_compare (a b : Z * Z) : Z := a.1 - b.1.

Definition two_equal_keys : list (Z * Z) := [(1, 10); (1, 20)].

(** A model with one task, and a map of three tasks of which one did not
    run in the window [100, 200]. *)
Definition model0 : StatsLimitedModel.Model :=
  StatsLimitedModel.mkModel
    [StatsLimitedModel.mkTask 9 (tok "stale") 1 0]
    (tok "Error in taskmodel.cpp")
    (StatsLimitedModel.mkTask 0 (tok "swapper") 0 0).

Definition map3 : StatsLimitedModel.TaskMap :=
  [(1, StatsLimitedModel.mkTaskHandle
         (StatsLimitedModel.mkTask 1 (tok "init") 30 0));
   (2, StatsLimitedModel.mkTaskHandle
         (StatsLimitedModel.mkTask 2 (tok "bash") 0 0));
   (3, StatsLimitedModel.mkTaskHandle
         (StatsLimitedModel.mkTask 3 (tok "cc") 50 0))].

End ScenariosSort.

(** ** Notions used by the further properties *)

Module TSharkMore.

(** Two comparators agree on the elements of a container. *)
Definition agree_on {T : Type} (f g : T -> T -> Z) (l : list T) : Prop :=
  forall a b, a ∈ l -> b ∈ l -> f a b = g a b.

End TSharkMore.

Module StatsMore.

Import StatsLimitedModel.

(** The comparator of [setTaskMap] with the PID difference as the [long]
    it is computed in, before the cast to [int]. *)
Definition task_compare_long (a b : Task) : Z :=
  if cursorTime a <? cursorTime b then 1
  else if cursorTime a >? cursorTime b then -1
  else
    let cmp1 := QString_compare (displayName a) (displayName b) in
    if negb (cmp1 =? 0) then cmp1
    else pid a - pid b.

(** The cursor time of a list of rows. *)
Definition sum_cursorTime (rows : list Task) : Time :=
  foldr (fun t acc => cursorTime t + acc) 0 rows.

(** The PIDs for which the cast of a PID difference to [int] is exact. *)
Definition pid_fits (t : Task) : Prop := - 2 ^ 30 <= pid t < 2 ^ 30.

(** The digit a character of the percentage string stands for; the
    blank that pads the hundreds stands for no hundreds. *)
Definition pct_digit (ch : ascii) : Z :=
  if Ascii.eqb ch chr_space then 0 else code ch - 48.

(** The hundredths of a percent a string [HTU.dd] stands for. *)
Definition pct_of_string (s : QString) : option Z :=
  match s with
  | [h; t; u; dot; d1; d2] =>
      if Ascii.eqb dot chr_dot
      then Some (10000 * pct_digit h + 1000 * pct_digit t
                 + 100 * pct_digit u + 10 * pct_digit d1 + pct_digit d2)
      else None
  | _ => None
  end.

End StatsMore.

(** ** The header of [StatsLimitedModel] *)

Module StatsHeader.

Import StatsLimitedModel.

(** [Qt::Horizontal] and [Qt::Vertical]. *)
Inductive Qt_Orientation := Qt_Horizontal | Qt_Vertical.

Definition columnCount (m : Model) : Z :=
  4 (* Number from data() and headerData() *).

(** [tr] is taken without a translation installed. *)
Definition headerData (m : Model) (section : Z)
  (orientation : Qt_Orientation) (role : Z) : QVariant :=
  if (role =? Qt_DisplayRole)
     && (match orientation with Qt_Horizontal => true | _ => false end)
  then
    if section =? 0 then QVariant_string (tok "Name")
    else if section =? 1 then QVariant_string (tok "PID(TID)")
    else if section =? 2 then QVariant_string (tok "CPU(%)")
    else if section =? 3 then QVariant_string (tok "CPU(s)")
    else QVariant_string (errorStr m)
  else QVariant_invalid.

(** The four headers, by column. *)
Definition header_names : list QString :=
  [tok "Name"; tok "PID(TID)"; tok "CPU(%)"; tok "CPU(s)"].

End StatsHeader.

(** ** More extractors of [perfparams.h] *)

Module PerfParamsMore.

Import ParamHelpers PerfParams TaskNames.

(** [prefixcmp(event.argv[i]->ptr, "pid=") == 0 &&
     prefixcmp(event.argv[i + 1]->ptr, "child_comm=") == 0];
    the second argument is read only when the first has its prefix. *)
Definition pid_comm_pair (event : TraceEvent) (i : Z) : option bool :=
  a ← arg event i;
  if prefixcmp a (tok "pid=") =? 0 then
    b ← arg event (i + 1);
    Some (prefixcmp b (tok "child_comm=") =? 0)
  else Some false.

(** [for (; i < bound; i++) if (test(i)) break;] with [n = bound - i]
    rounds to go; the result is the value of [i] after the loop. *)
Fixpoint scan_up (test : Z -> option bool) (i : Z) (n : nat) : option Z :=
  match n with
  | O => Some i
  | S n' =>
      found ← test i;
      if found : bool then Some i else scan_up test (i + 1) n'
  end.

(** [for (i = start; i > 0; i--) if (test(argv[i])) break;]; the result
    is the value of [i] after the loop. *)
Fixpoint scan_down (event : TraceEvent) (test : TString -> bool) (n : nat)
  : option Z :=
  match n with
  | O => Some 0
  | S n' =>
      t ← arg event (Z.of_nat n);
      if test t then Some (Z.of_nat n) else scan_down event test n'
  end.

Definition scan_down_from (event : TraceEvent) (test : TString -> bool)
  (start : Z) : option Z :=
  if 0 <? start then scan_down event test (Z.to_nat start) else Some start.

(** *** [sched_process_fork] *)

Definition perf_sched_process_fork_parent_pid (event : TraceEvent)
  : option Z :=
  let endidx := argc event - 1 in
  let guessidx := 1 in
  guess ← pid_comm_pair event guessidx;
  if guess : bool then int_after_char event guessidx chr_eq
  else
    i ← scan_up (pid_comm_pair event) guessidx
          (Z.to_nat (endidx - 1 - guessidx));
    if endidx <=? i then Some ABSURD_INT
    else int_after_char event i chr_eq.

Definition perf_sched_process_fork_childname_strdup_
  (event : TraceEvent) (pool : StringPool) : option (cstr * StringPool) :=
  let buf : list ascii := [] in
  let endidx := argc event - 2 in
  i ← scan_up (fun i => pid_comm_pair event (i - 1)) 2
        (Z.to_nat (endidx + 1 - 2));
  if endidx <? i then Some (NullStr, pool)
  else
    let beginidx := i + 1 in
    first ← arg event i;
    match copy_tstring_after_char_ first chr_eq buf TASKNAME_MAXLEN with
    | None => Some (NullStr, pool)
    | Some buf =>
        merged ← merge_args_into_cstring_nullterminate event beginidx
                   endidx buf TASKNAME_MAXLEN;
        match merged with
        | None => Some (NullStr, pool)
        | Some buf => Some (pool_name pool buf)
        end
    end.

(** *** [sched_wakeup] *)

Definition perf_sched_wakeup_name_strdup_
  (event : TraceEvent) (pool : StringPool) : option (cstr * StringPool) :=
  let lastidx := argc event - 1 in
  let buf : list ascii := [] in
  lastarg ← arg event lastidx;
  if prefixcmp lastarg WAKE_CPU_PFIX =? 0 then
    let beginidx := 0 in
    endidx ← scan_down_from event is_param_inside_braces_or_cant
               (argc event - 2);
    if endidx <=? 0 then Some (NullStr, pool)
    else
      let endidx := endidx - 2 in
      merged ← merge_args_into_cstring event beginidx endidx buf
                 TASKNAME_MAXLEN;
      match merged with
      | None => Some (NullStr, pool)
      | Some buf =>
          last ← arg event (endidx + 1);
          match copy_tstring_before_char_ last chr_colon buf
                  TASKNAME_MAXLEN with
          | None => Some (NullStr, pool)
          | Some buf => Some (pool_name pool buf)
          end
      end
  else if prefixcmp lastarg WAKE_TCPU_PFIX =? 0 then
    let beginidx := 1 in
    endidx ← scan_down_from event
               (fun pidstr => prefixcmp pidstr WAKE_PID_PFIX =? 0)
               (argc event - 2);
    if endidx <=? 0 then Some (NullStr, pool)
    else
      let endidx := endidx - 1 in
      first ← arg event 0;
      match copy_tstring_after_char_ first chr_eq buf TASKNAME_MAXLEN with
      | None => Some (NullStr, pool)
      | Some buf =>
          merged ← merge_args_into_cstring_nullterminate event beginidx
                     endidx buf TASKNAME_MAXLEN;
          match merged with
          | None => Some (NullStr, pool)
          | Some buf => Some (pool_name pool buf)
          end
      end
  else Some (NullStr, pool).

(** The nearest argument before the bound that passes a test: [k] is the
    largest index in [lo .. hi] whose argument passes. *)
Definition nearest_below (event : TraceEvent) (test : TString -> bool)
  (lo hi k : Z) : Prop :=
  lo <= k <= hi /\
  (exists t, arg event k = Some t /\ test t = true) /\
  forall j t, k < j <= hi -> arg event j = Some t -> test t = false.

(** No argument in [lo .. hi] passes the test. *)
Definition none_between (event : TraceEvent) (test : TString -> bool)
  (lo hi : Z) : Prop :=
  forall j t, lo <= j <= hi -> arg event j = Some t -> test t = false.

Definition has_pid_pfix (t : TString) : bool :=
  prefixcmp t WAKE_PID_PFIX =? 0.

Definition has_psta_pfix (t : TString) : bool :=
  prefixcmp t SWITCH_PSTA_PFIX =? 0.

End PerfParamsMore.

Module ScenariosMore.

(** A [sched_process_fork] line of the old format. *)
Definition fork_line : TraceEvent :=
  event_of ["comm=bash"; "pid=100"; "child_comm=my"; "task";
            "child_pid=101"]%string.

(** The same line with a parent whose name has a space. *)
Definition fork_line_spaced : TraceEvent :=
  event_of ["comm=my"; "sh"; "pid=100"; "child_comm=task";
            "child_pid=101"]%string.

(** A line without the pair [pid=], [child_comm=]. *)
Definition fork_line_no_pair : TraceEvent :=
  event_of ["comm=bash"; "parent=100"; "child_comm=sh";
            "child_pid=101"]%string.

(** A regular [sched_switch] line up to its arrow, at index 4. *)
Definition switch_line : TraceEvent :=
  event_of ["prev_comm=sh"; "prev_pid=5"; "prev_prio=120"; "prev_state=R+";
            "==>"; "next_comm=bash"; "next_pid=42"; "next_prio=120"]%string.

Definition switch_handle : PerfParams.sched_switch_handle :=
  PerfParams.mkHandle 4 false.

(** A wakeup line of libtraceevent with a name that has a space. *)
Definition wakeup_spaced : TraceEvent :=
  event_of ["my"; "task:42"; "[120]"; "success=1"; "CPU:3"]%string.

End ScenariosMore.

(** * Part II: properties *)

(** ** Machine integers and characters *)

Lemma u32_range z : 0 <= Mach.u32 z < 2 ^ 32.
Proof. unfold Mach.u32. apply Z.mod_pos_bound. lia. Qed.

Lemma u64_range z : 0 <= Mach.u64 z < 2 ^ 64.
Proof. unfold Mach.u64. apply Z.mod_pos_bound. lia. Qed.

Lemma s32_range z : - 2 ^ 31 <= Mach.s32 z < 2 ^ 31.
Proof.
  unfold Mach.s32. pose proof (u32_range z).
  destruct (Mach.u32 z <? 2 ^ 31) eqn:E;
    [apply Z.ltb_lt in E | apply Z.ltb_ge in E]; lia.
Qed.

Lemma s32_congr z : (Mach.s32 z - z) mod 2 ^ 32 = 0.
Proof.
  unfold Mach.s32, Mach.u32.
  destruct (z mod 2 ^ 32 <? 2 ^ 31).
  - rewrite Zminus_mod, Z.mod_mod, Z.sub_diag by lia. reflexivity.
  - replace (z mod 2 ^ 32 - 2 ^ 32 - z)
      with (z mod 2 ^ 32 - z + (-1) * 2 ^ 32) by ring.
    rewrite Z.mod_add by lia.
    rewrite Zminus_mod, Z.mod_mod, Z.sub_diag by lia. reflexivity.
Qed.

Lemma code_range ch : 0 <= code ch < 256.
Proof.
  unfold code. pose proof (nat_ascii_bounded ch). lia.
Qed.

Lemma is_digit_range ch : is_digit ch = true -> 0 <= digit_of ch <= 9.
Proof.
  unfold is_digit, digit_of. intros H.
  apply andb_true_iff in H as [H1 H2].
  apply Z.leb_le in H1. apply Z.leb_le in H2. lia.
Qed.


Lemma is_digit_deref_nil : is_digit (deref []) = false.
Proof. reflexivity. Qed.

(** ** [TShark::StrHash32] *)

Lemma lor_shift_byte b x :
  0 <= b < 256 -> 0 <= x -> Z.lor b (Z.shiftl x 8) = b + 256 * x.
Proof.
  intros Hb Hx.
  assert (Hland : Z.land b (Z.shiftl x 8) = 0).
  { apply Z.bits_inj'. intros n Hn.
    rewrite Z.land_spec, Z.bits_0.
    destruct (Z.lt_ge_cases n 8) as [Hlt | Hge].
    - rewrite Z.shiftl_spec_low by lia. apply andb_false_r.
    - assert (Z.testbit b n = false) as ->; [|reflexivity].
      destruct (Z.eq_dec b 0) as [-> | Hnz]; [apply Z.bits_0|].
      apply Z.bits_above_log2; [lia|].
      assert (Z.log2 b < 8); [|lia].
      apply Z.log2_lt_pow2; lia. }
  pose proof (Z.add_lor_land b (Z.shiftl x 8)) as H.
  rewrite Hland, Z.add_0_r in H. rewrite H.
  rewrite Z.shiftl_mul_pow2 by lia. lia.
Qed.

Lemma le_word_quad a b c d :
  0 <= a < 256 -> 0 <= b < 256 -> 0 <= c < 256 -> 0 <= d < 256 ->
  TShark.le_word [a; b; c; d] = a + 256 * (b + 256 * (c + 256 * d)).
Proof.
  intros Ha Hb Hc Hd. unfold TShark.le_word. simpl.
  rewrite (lor_shift_byte d 0) by lia.
  rewrite (lor_shift_byte c) by lia.
  rewrite (lor_shift_byte b) by lia.
  rewrite (lor_shift_byte a) by lia.
  lia.
Qed.

Lemma word32_quad_inj bo a b c d a' b' c' d' :
  0 <= a < 256 -> 0 <= b < 256 -> 0 <= c < 256 -> 0 <= d < 256 ->
  0 <= a' < 256 -> 0 <= b' < 256 -> 0 <= c' < 256 -> 0 <= d' < 256 ->
  TShark.word32 bo [a; b; c; d] = TShark.word32 bo [a'; b'; c'; d'] ->
  [a; b; c; d] = [a'; b'; c'; d'].
Proof.
  intros Ha Hb Hc Hd Ha' Hb' Hc' Hd' Heq.
  destruct bo; unfold TShark.word32 in Heq.
  - rewrite !le_word_quad in Heq by lia.
    assert (a = a' /\ b = b' /\ c = c' /\ d = d') as (-> & -> & -> & ->) by lia.
    reflexivity.
  - change (rev [a; b; c; d]) with [d; c; b; a] in Heq.
    change (rev [a'; b'; c'; d']) with [d'; c'; b'; a'] in Heq.
    rewrite !le_word_quad in Heq by lia.
    assert (a = a' /\ b = b' /\ c = c' /\ d = d') as (-> & -> & -> & ->) by lia.
    reflexivity.
Qed.

Lemma u8_range z : 0 <= Mach.u8 z < 256.
Proof. unfold Mach.u8. apply Z.mod_pos_bound. lia. Qed.

Lemma hashed_bytes_quad str :
  exists a b c d,
    TShark.hashed_bytes str = [a; b; c; d] /\
    0 <= a < 256 /\ 0 <= b < 256 /\ 0 <= c < 256 /\ 0 <= d < 256.
Proof.
  destruct str as [|c0 [|c1 [|c2 [|c3 rest]]]]; simpl;
    do 4 eexists; (split; [reflexivity|]);
    repeat split; try apply u8_range; lia.
Qed.

Lemma StrHash32_hashed_bytes bo str :
  TShark.StrHash32 bo str = TShark.word32 bo (TShark.hashed_bytes str).
Proof.
  destruct str as [|c0 [|c1 [|c2 [|c3 rest]]]]; try (destruct bo; reflexivity).
  unfold TShark.StrHash32, tlen.
  replace (Z.of_nat (length (c0 :: c1 :: c2 :: c3 :: rest)) <? 1) with false
    by (symmetry; apply Z.ltb_ge; simpl length; lia).
  replace (Z.of_nat (length (c0 :: c1 :: c2 :: c3 :: rest)) <? 4) with false
    by (symmetry; apply Z.ltb_ge; simpl length; lia).
  reflexivity.
Qed.

(** C7, as the code has it: [StrHash32] is the word of the bytes it
    stores, which are the first four bytes of a string of four bytes or
    more, and the first byte alone (the other three positions zero) of a
    shorter string; two strings hash alike exactly when these bytes
    agree. *)
Theorem StrHash32_uses_hashed_bytes (bo : TShark.byte_order) (str : TString) :
  TShark.StrHash32 bo str = TShark.word32 bo (TShark.hashed_bytes str) /\
  (forall str' : TString,
     TShark.StrHash32 bo str = TShark.StrHash32 bo str' <->
     TShark.hashed_bytes str = TShark.hashed_bytes str').
Proof.
  split; [apply StrHash32_hashed_bytes|].
  intros str'. rewrite !StrHash32_hashed_bytes.
  split; [|intros ->; reflexivity].
  destruct (hashed_bytes_quad str) as (a & b & c & d & -> & ? & ? & ? & ?).
  destruct (hashed_bytes_quad str') as (a' & b' & c' & d' & -> & ? & ? & ? & ?).
  apply word32_quad_inj; assumption.
Qed.

(** C7, as the claim has it, fails on a string of two bytes: the second
    byte is not in the hash, so it is not the word of the first
    [min(len, 4)] bytes, and two strings that differ in it collide. *)
Lemma StrHash32_short_string_counterexample :
  TShark.StrHash32 TShark.LittleEndian (tok "ab")
    <> TShark.spec_StrHash32 TShark.LittleEndian (tok "ab") /\
  TShark.StrHash32 TShark.BigEndian (tok "ab")
    <> TShark.spec_StrHash32 TShark.BigEndian (tok "ab") /\
  TShark.StrHash32 TShark.LittleEndian (tok "ab")
    = TShark.StrHash32 TShark.LittleEndian (tok "ac").
Proof. repeat split; vm_compute; discriminate. Qed.

(** ** [TShark::timeStrToDouble] *)

Lemma int_loop_split c base :
  exists ds rest,
    c = ds ++ rest /\ all_digits ds /\ is_digit (deref rest) = false /\
    TShark.int_loop c base = (fold_left TShark.digit_step ds base, rest).
Proof.
  revert base. induction c as [|ch c IH]; intros base.
  - exists [], []. repeat split; constructor.
  - simpl. destruct (is_digit ch) eqn:Hd.
    + destruct (IH (Mach.u64 (Mach.u64 (base * 10) + digit_of ch)))
        as (ds & rest & -> & Hds & Hrest & Heq).
      exists (ch :: ds), rest. repeat split; auto.
      constructor; assumption.
    + exists [], (ch :: c). repeat split; auto. constructor.
Qed.

Lemma int_loop_app ds rest base :
  all_digits ds -> is_digit (deref rest) = false ->
  TShark.int_loop (ds ++ rest) base = (fold_left TShark.digit_step ds base, rest).
Proof.
  intros Hds Hrest. revert base.
  induction Hds as [|ch ds Hch Hds IH]; intros base; simpl.
  - destruct rest as [|ch rest]; [reflexivity|].
    simpl in Hrest |- *. rewrite Hrest. reflexivity.
  - rewrite Hch. apply IH.
Qed.

Lemma frac_loop_split c base divint :
  exists ds rest,
    c = ds ++ rest /\ all_digits ds /\ is_digit (deref rest) = false /\
    TShark.frac_loop c base divint
      = (fold_left TShark.digit_step ds base, fold_left TShark.divint_step ds divint, rest).
Proof.
  revert base divint. induction c as [|ch c IH]; intros base divint.
  - exists [], []. repeat split; constructor.
  - simpl. destruct (is_digit ch) eqn:Hd.
    + destruct (IH (Mach.u64 (Mach.u64 (base * 10) + digit_of ch))
                  (Mach.u64 (divint * 10)))
        as (ds & rest & -> & Hds & Hrest & Heq).
      exists (ch :: ds), rest. repeat split; auto.
      constructor; assumption.
    + exists [], (ch :: c). repeat split; auto. constructor.
Qed.

Lemma frac_loop_app ds rest base divint :
  all_digits ds -> is_digit (deref rest) = false ->
  TShark.frac_loop (ds ++ rest) base divint
    = (fold_left TShark.digit_step ds base, fold_left TShark.divint_step ds divint, rest).
Proof.
  intros Hds Hrest. revert base divint.
  induction Hds as [|ch ds Hch Hds IH]; intros base divint; simpl.
  - destruct rest as [|ch rest]; [reflexivity|].
    simpl in Hrest |- *. rewrite Hrest. reflexivity.
  - rewrite Hch. apply IH.
Qed.

(** The loops compute the value of the digits modulo [2^64]. *)
Lemma fold_step_mod ds a :
  fold_left TShark.digit_step ds (Mach.u64 a)
    = Mach.u64 (fold_left (fun b ch => b * 10 + digit_of ch) ds a).
Proof.
  revert a. induction ds as [|ch ds IH]; intros a; simpl; [reflexivity|].
  rewrite <- IH. f_equal. unfold TShark.digit_step, Mach.u64.
  rewrite Zplus_mod_idemp_l.
  rewrite (Z.add_mod (a mod 2 ^ 64 * 10)) by lia.
  rewrite Z.mul_mod_idemp_l by lia.
  rewrite <- Z.add_mod by lia. reflexivity.
Qed.

Lemma fold_step_value ds :
  fold_left TShark.digit_step ds 0 = Mach.u64 (TShark.decimal_value ds).
Proof. apply (fold_step_mod ds 0). Qed.

Lemma fold_step10_mod ds a :
  fold_left TShark.divint_step ds (Mach.u64 a)
    = Mach.u64 (a * 10 ^ Z.of_nat (length ds)).
Proof.
  revert a. induction ds as [|ch ds IH]; intros a.
  - simpl. f_equal. lia.
  - cbn [fold_left length].
    replace (TShark.divint_step (Mach.u64 a) ch) with (Mach.u64 (a * 10)).
    + rewrite IH. f_equal.
      rewrite Nat2Z.inj_succ, Z.pow_succ_r by lia. ring.
    + unfold TShark.divint_step, Mach.u64. rewrite Z.mul_mod_idemp_l by lia. reflexivity.
Qed.

Lemma fold_step10_value ds :
  fold_left TShark.divint_step ds 1 = Mach.u64 (10 ^ Z.of_nat (length ds)).
Proof.
  rewrite <- (Z.mul_1_l (10 ^ _)). apply (fold_step10_mod ds 1).
Qed.

Lemma timeStrToDouble_body s :
  TShark.timeStrToDouble s =
  if Ascii.eqb (deref s) chr_minus then TShark.time_body (advance s) true
  else TShark.time_body s false.
Proof.
  unfold TShark.timeStrToDouble, TShark.time_body.
  destruct (Ascii.eqb (deref s) chr_minus); reflexivity.
Qed.

Lemma not_minus_head (ip R : list ascii) :
  all_digits ip -> deref R = chr_dot \/ deref R = chr_colon ->
  Ascii.eqb (deref (ip ++ R)) chr_minus = false.
Proof.
  intros Hip HR. destruct Hip as [|ch ip Hch _]; simpl.
  - destruct HR as [-> | ->]; reflexivity.
  - apply Ascii.eqb_neq. intros ->. discriminate Hch.
Qed.

Lemma time_body_sound ip fp rest (isNeg : bool) :
  all_digits ip ->
  match fp with Some f => all_digits f | None => True end ->
  TShark.time_body
    (ip ++ (match fp with Some f => chr_dot :: f | None => [] end)
        ++ chr_colon :: rest) isNeg
  = (TShark.time_value (TShark.TimeParts isNeg ip fp rest), true).
Proof.
  intros Hip Hfp. unfold TShark.time_body.
  rewrite int_loop_app; [|assumption|destruct fp; reflexivity].
  rewrite fold_step_value.
  destruct fp as [f|]; simpl app; simpl deref.
  - change (Ascii.eqb chr_dot chr_dot) with true. cbv iota.
    simpl advance.
    rewrite frac_loop_app; [|assumption|reflexivity].
    rewrite fold_step_value, fold_step10_value.
    simpl deref. change (Ascii.eqb chr_colon chr_colon) with true.
    unfold TShark.time_value; simpl. destruct isNeg; reflexivity.
  - change (Ascii.eqb chr_colon chr_dot) with false. cbv iota.
    simpl deref. change (Ascii.eqb chr_colon chr_colon) with true.
    unfold TShark.time_value; simpl. destruct isNeg; reflexivity.
Qed.

Lemma deref_head c ch :
  Ascii.eqb (deref c) ch = true -> ch <> Ascii.zero -> c = ch :: advance c.
Proof.
  intros H Hnz. apply Ascii.eqb_eq in H.
  destruct c as [|a c]; simpl in *; congruence.
Qed.

Lemma time_body_complete s isNeg v :
  TShark.time_body s isNeg = (v, true) ->
  exists ip fp rest,
    s = ip ++ (match fp with Some f => chr_dot :: f | None => [] end)
           ++ chr_colon :: rest /\
    all_digits ip /\
    match fp with Some f => all_digits f | None => True end.
Proof.
  unfold TShark.time_body.
  destruct (int_loop_split s 0) as (ip & R & -> & Hip & _ & ->).
  destruct (Ascii.eqb (deref R) chr_dot) eqn:Hdot.
  - apply deref_head in Hdot; [|discriminate].
    destruct (frac_loop_split (advance R) 0 1)
      as (f & R2 & HR2 & Hf & _ & ->).
    destruct (Ascii.eqb (deref R2) chr_colon) eqn:Hcolon;
      [|simpl; discriminate].
    apply deref_head in Hcolon; [|discriminate].
    intros _. exists ip, (Some f), (advance R2).
    rewrite Hdot, HR2, Hcolon at 1. simpl. auto.
  - destruct (Ascii.eqb (deref R) chr_colon) eqn:Hcolon;
      [|simpl; discriminate].
    apply deref_head in Hcolon; [|discriminate].
    intros _. exists ip, None, (advance R).
    rewrite Hcolon at 1. simpl. auto.
Qed.

Lemma time_body_failure s isNeg v :
  TShark.time_body s isNeg = (v, false) -> v = 0%float.
Proof.
  unfold TShark.time_body.
  destruct (TShark.int_loop s 0) as [base c].
  destruct (Ascii.eqb (deref c) chr_dot).
  - destruct (TShark.frac_loop (advance c) 0 1) as [[base' divint] c'].
    destruct (Ascii.eqb (deref c') chr_colon); simpl;
      [destruct isNeg; discriminate | congruence].
  - destruct (Ascii.eqb (deref c) chr_colon); simpl;
      [destruct isNeg; discriminate | congruence].
Qed.

Lemma timeStrToDouble_sound s p :
  TShark.accepted_time s p ->
  TShark.timeStrToDouble s = (TShark.time_value p, true).
Proof.
  destruct p as [neg ip fp rest]. intros [-> [Hip Hfp]].
  simpl in Hip, Hfp. rewrite timeStrToDouble_body.
  unfold TShark.render_time; simpl TShark.tp_neg; simpl TShark.tp_int;
    simpl TShark.tp_frac; simpl TShark.tp_rest.
  destruct neg.
  - simpl app. simpl deref.
    change (Ascii.eqb chr_minus chr_minus) with true. cbv iota.
    simpl advance. apply time_body_sound; assumption.
  - simpl app. rewrite not_minus_head;
      [|assumption|destruct fp; [left|right]; reflexivity].
    apply time_body_sound; assumption.
Qed.

Lemma timeStrToDouble_complete s v :
  TShark.timeStrToDouble s = (v, true) ->
  exists p, TShark.accepted_time s p.
Proof.
  rewrite timeStrToDouble_body.
  destruct (Ascii.eqb (deref s) chr_minus) eqn:Hminus; intros H;
    apply time_body_complete in H as (ip & fp & rest & Hs & Hip & Hfp).
  - apply deref_head in Hminus; [|discriminate].
    exists (TShark.TimeParts true ip fp rest). split; [|split; assumption].
    rewrite Hminus, Hs. reflexivity.
  - exists (TShark.TimeParts false ip fp rest). split; [|split; assumption].
    rewrite Hs. reflexivity.
Qed.

Lemma timeStrToDouble_failure s v :
  TShark.timeStrToDouble s = (v, false) -> v = 0%float.
Proof.
  rewrite timeStrToDouble_body.
  destruct (Ascii.eqb (deref s) chr_minus); apply time_body_failure.
Qed.

Lemma fold_digits_bound ds :
  all_digits ds ->
  forall a, 0 <= a ->
    a * 10 ^ Z.of_nat (length ds)
    <= fold_left (fun b ch => b * 10 + digit_of ch) ds a
    < (a + 1) * 10 ^ Z.of_nat (length ds).
Proof.
  induction 1 as [|ch ds Hch Hds IH]; intros a Ha.
  - simpl. lia.
  - cbn [fold_left length]. apply is_digit_range in Hch.
    unfold digit_of in *.
    specialize (IH (a * 10 + (code ch - 48)) ltac:(lia)).
    rewrite Nat2Z.inj_succ, Z.pow_succ_r by lia.
    assert (0 < 10 ^ Z.of_nat (length ds)) by (apply Z.pow_pos_nonneg; lia).
    nia.
Qed.

(** A run of at most 19 digits denotes a number below [2^64], and so
    does the power of ten of its length. *)
Lemma short_run_fits ds :
  all_digits ds -> Z.of_nat (length ds) <= 19 ->
  Mach.u64 (TShark.decimal_value ds) = TShark.decimal_value ds /\
  Mach.u64 (10 ^ Z.of_nat (length ds)) = 10 ^ Z.of_nat (length ds).
Proof.
  intros Hds Hlen.
  pose proof (fold_digits_bound ds Hds 0 ltac:(lia)) as Hb.
  fold (TShark.decimal_value ds) in Hb.
  assert (Hpow : 0 < 10 ^ Z.of_nat (length ds) <= 10 ^ 19).
  { split; [apply Z.pow_pos_nonneg; lia|].
    apply Z.pow_le_mono_r; lia. }
  assert (H19 : 10 ^ 19 < 2 ^ 64) by reflexivity.
  unfold Mach.u64. split; apply Z.mod_small; lia.
Qed.

Lemma time_value_short p :
  TShark.digits_ok p -> TShark.short_runs p ->
  TShark.time_value p = TShark.decimal_time p.
Proof.
  destruct p as [neg ip fp rest]. intros [Hip Hfp] [Lip Lfp].
  cbn [TShark.tp_int TShark.tp_frac] in *.
  unfold TShark.time_value, TShark.decimal_time.
  cbn [TShark.tp_int TShark.tp_frac TShark.tp_neg].
  rewrite (proj1 (short_run_fits ip Hip Lip)).
  destruct fp as [f|]; [|reflexivity].
  destruct (short_run_fits f Hfp Lfp) as [-> ->]. reflexivity.
Qed.

(** C1, as the code has it: [timeStrToDouble] sets [ok] exactly on the
    strings made of an optional ['-'], a run of digits, optionally ['.']
    and a second run of digits, and [':'], where either run may be
    empty; when the runs have at most 19 digits each, the value is the
    signed decimal value, integer part plus fractional part, negated
    after a leading ['-'].  On every other string it clears [ok] and
    returns 0; [123.456:] gives the double nearest to 123.456 and
    [123.456X] fails. *)
Theorem timeStrToDouble_accepted_format (s : list ascii) :
  (forall p, TShark.accepted_time s p ->
             snd (TShark.timeStrToDouble s) = true) /\
  (forall p, TShark.accepted_time s p -> TShark.short_runs p ->
             TShark.timeStrToDouble s = (TShark.decimal_time p, true)) /\
  ((~ exists p, TShark.accepted_time s p) ->
   TShark.timeStrToDouble s = (0%float, false)) /\
  TShark.timeStrToDouble (tok "123.456:") = ((0x1.edd2f1a9fbe77p+6)%float, true) /\
  TShark.timeStrToDouble (tok "123.456X") = (0%float, false).
Proof.
  split; [|split; [|split; [|split; reflexivity]]].
  - intros p Hp. rewrite (timeStrToDouble_sound s p Hp). reflexivity.
  - intros p Hp Hshort. rewrite (timeStrToDouble_sound s p Hp).
    rewrite (time_value_short p (proj2 Hp) Hshort). reflexivity.
  - intros Hno. destruct (TShark.timeStrToDouble s) as [v [|]] eqn:E.
    + exfalso. apply Hno. eapply timeStrToDouble_complete; eassumption.
    + apply timeStrToDouble_failure in E. rewrite E. reflexivity.
Qed.

Lemma timeStrToDouble_accepted_format_witness :
  TShark.accepted_time (tok "-12.5:")
    (TShark.TimeParts true (tok "12") (Some (tok "5")) []) /\
  TShark.short_runs (TShark.TimeParts true (tok "12") (Some (tok "5")) []) /\
  TShark.timeStrToDouble (tok "-12.5:") = ((-12.5)%float, true) /\
  (~ exists p, TShark.accepted_time (tok "1x:") p) /\
  TShark.timeStrToDouble (tok "1x:") = (0%float, false).
Proof.
  assert (Hacc : TShark.accepted_time (tok "-12.5:")
            (TShark.TimeParts true (tok "12") (Some (tok "5")) [])).
  { split; [reflexivity|]. split; simpl; repeat constructor. }
  assert (Hshort : TShark.short_runs
            (TShark.TimeParts true (tok "12") (Some (tok "5")) [])).
  { split; simpl; lia. }
  assert (Hno : ~ exists p, TShark.accepted_time (tok "1x:") p).
  { intros [p Hp].
    pose proof (proj1 (timeStrToDouble_accepted_format (tok "1x:")) p Hp) as H.
    assert (E : snd (TShark.timeStrToDouble (tok "1x:")) = false)
      by (vm_compute; reflexivity).
    rewrite H in E. discriminate E. }
  split; [exact Hacc|]. split; [exact Hshort|]. split; [|split; [exact Hno|]].
  - exact (proj1 (proj2 (timeStrToDouble_accepted_format (tok "-12.5:")))
             _ Hacc Hshort).
  - exact (proj1 (proj2 (proj2 (timeStrToDouble_accepted_format (tok "1x:"))))
             Hno).
Defined.

(** C1, as the claim has it, fails in two places.  On strings without
    digits: [":"] has no DIGITS before the colon, and [ok] is set all the
    same.  And on long digit runs: [18446744073709551616:] is in the
    claim's format and denotes [2^64], but the digits are accumulated in
    an [unsigned long long] that wraps, and the value returned is 0. *)
Lemma timeStrToDouble_format_counterexample :
  ~ (forall s, snd (TShark.timeStrToDouble s) = true <->
               TShark.spec_time_format s) /\
  (TShark.spec_time_format (tok "18446744073709551616:") /\
   TShark.decimal_value (tok "18446744073709551616") = 2 ^ 64 /\
   TShark.timeStrToDouble (tok "18446744073709551616:") = (0%float, true)).
Proof.
  split.
  - intros H. destruct (proj1 (H (tok ":")) eq_refl)
      as ([neg ip fp rest] & [Hs _] & Hip & _).
    simpl in Hip. unfold TShark.render_time in Hs. simpl in Hs.
    destruct neg; [discriminate Hs|].
    destruct ip as [|ch ip]; [contradiction|].
    simpl in Hs. injection Hs as Hch Hrest.
    destruct ip; destruct fp; discriminate Hrest.
  - split; [|split; vm_compute; reflexivity].
    exists (TShark.TimeParts false (tok "18446744073709551616") None []).
    split; [|split; discriminate].
    split; [reflexivity|]. split; [|exact I].
    repeat constructor.
Qed.

(** ** The parameter helpers *)

Lemma read_uint_range s param :
  0 <= param < 2 ^ 32 -> 0 <= ParamHelpers.read_uint s param < 2 ^ 32.
Proof.
  revert param. induction s as [|ch s IH]; intros param Hp; simpl.
  - assumption.
  - destruct (is_digit ch); [|assumption].
    apply IH. apply u32_range.
Qed.

Lemma read_uint_mod ds a :
  all_digits ds ->
  ParamHelpers.read_uint ds (Mach.u32 a)
    = Mach.u32 (fold_left (fun b ch => b * 10 + digit_of ch) ds a).
Proof.
  intros Hds. revert a.
  induction Hds as [|ch ds Hch Hds IH]; intros a; simpl; [reflexivity|].
  rewrite Hch, <- IH. f_equal. unfold Mach.u32.
  rewrite Zplus_mod_idemp_l.
  rewrite (Z.add_mod (a mod 2 ^ 32 * 10)) by lia.
  rewrite Z.mul_mod_idemp_l by lia.
  rewrite <- Z.add_mod by lia. reflexivity.
Qed.

Lemma fold_digits_nonneg ds a :
  all_digits ds -> 0 <= a ->
  0 <= fold_left (fun b ch => b * 10 + digit_of ch) ds a.
Proof.
  intros Hds. revert a.
  induction Hds as [|ch ds Hch Hds IH]; intros a Ha; simpl; [assumption|].
  apply IH. apply is_digit_range in Hch. lia.
Qed.

Lemma decimal_value_nonneg ds :
  all_digits ds -> 0 <= TShark.decimal_value ds.
Proof. intros Hds. apply fold_digits_nonneg; [assumption|lia]. Qed.

Lemma read_uint_value ds :
  all_digits ds -> TShark.decimal_value ds < 2 ^ 32 ->
  ParamHelpers.read_uint ds 0 = TShark.decimal_value ds.
Proof.
  intros Hds Hlt. change 0 with (Mach.u32 0) at 1.
  rewrite read_uint_mod by assumption.
  unfold Mach.u32. apply Z.mod_small.
  split; [apply decimal_value_nonneg; assumption | exact Hlt].
Qed.

Lemma after_last_none ch s :
  ch ∉ s -> ParamHelpers.after_last ch s = None.
Proof.
  induction s as [|c s IH]; intros Hnot; simpl; [reflexivity|].
  rewrite IH by (intros Hin; apply Hnot; right; exact Hin).
  destruct (Ascii.eqb c ch) eqn:E; [|reflexivity].
  apply Ascii.eqb_eq in E. subst c. exfalso. apply Hnot. left.
Qed.

Lemma after_last_app name ch ds :
  ch ∉ ds -> ParamHelpers.after_last ch (name ++ ch :: ds) = Some ds.
Proof.
  intros Hnot. induction name as [|c name IH]; simpl.
  - rewrite after_last_none by assumption.
    rewrite Ascii.eqb_refl. reflexivity.
  - rewrite IH. reflexivity.
Qed.

Lemma digits_no_char ch ds :
  is_digit ch = false -> all_digits ds -> ch ∉ ds.
Proof.
  intros Hch Hds Hin. unfold all_digits in Hds.
  rewrite Forall_forall in Hds. apply Hds in Hin. congruence.
Qed.

Lemma read_int_digits ds :
  all_digits ds -> TShark.decimal_value ds < 2 ^ 31 ->
  ParamHelpers.read_int ds = TShark.decimal_value ds.
Proof.
  intros Hds Hlt. pose proof (decimal_value_nonneg ds Hds) as Hge.
  assert (Hs32 : Mach.s32 (TShark.decimal_value ds) = TShark.decimal_value ds).
  { unfold Mach.s32, Mach.u32. rewrite Z.mod_small by lia.
    destruct (Z.ltb_spec (TShark.decimal_value ds) (2 ^ 31)); lia. }
  destruct ds as [|ch ds]; [reflexivity|].
  unfold ParamHelpers.read_int.
  assert (Ascii.eqb ch chr_minus = false) as ->.
  { apply Ascii.eqb_neq. intros ->. inversion Hds; subst. discriminate. }
  rewrite read_uint_value by (assumption || lia). exact Hs32.
Qed.

(** The integer after the last [ch] of a token [name ch digits]. *)
Lemma int_after_char_digits event n ch name ds :
  is_digit ch = false -> all_digits ds -> TShark.decimal_value ds < 2 ^ 31 ->
  arg event n = Some (name ++ ch :: ds) ->
  ParamHelpers.int_after_char event n ch = Some (TShark.decimal_value ds).
Proof.
  intros Hch Hds Hlt Harg. unfold ParamHelpers.int_after_char.
  rewrite Harg. simpl.
  rewrite after_last_app by (apply digits_no_char; assumption).
  rewrite read_int_digits by assumption. reflexivity.
Qed.

(** ** [perf_cpuidle_state] *)

(** C8: the idle state is the unsigned 32-bit number read from argument 0
    taken as a two's-complement [int]: an [int] congruent to it modulo
    [2^32]; [4294967295] comes back as [-1]. *)
Theorem perf_cpuidle_state_reinterprets (event : TraceEvent) (ustate : Z) :
  ParamHelpers.uint_after_pfix event 0 ParamHelpers.IDLE_STATE_PFIX
    = Some ustate ->
  0 <= ustate < 2 ^ 32 /\
  exists state,
    PerfParams.perf_cpuidle_state event = Some state /\
    state = Mach.s32 ustate /\
    - 2 ^ 31 <= state < 2 ^ 31 /\
    (state - ustate) mod 2 ^ 32 = 0 /\
    (ustate < 2 ^ 31 -> state = ustate) /\
    (2 ^ 31 <= ustate -> state = ustate - 2 ^ 32) /\
    (ustate = 4294967295 -> state = -1).
Proof.
  intros Hu.
  assert (Hrange : 0 <= ustate < 2 ^ 32).
  { unfold ParamHelpers.uint_after_pfix in Hu.
    destruct (arg event 0) as [t|]; [|discriminate].
    simpl in Hu. injection Hu as <-. apply read_uint_range. lia. }
  split; [exact Hrange|].
  exists (Mach.s32 ustate). unfold PerfParams.perf_cpuidle_state.
  rewrite Hu. simpl.
  split; [reflexivity|]. split; [reflexivity|].
  split; [apply s32_range|]. split; [apply s32_congr|].
  unfold Mach.s32, Mach.u32. rewrite Z.mod_small by lia.
  destruct (Z.ltb_spec ustate (2 ^ 31)); repeat split; intros; lia.
Qed.

Lemma perf_cpuidle_state_reinterprets_witness :
  ParamHelpers.uint_after_pfix (event_of ["state=4294967295"; "cpu_id=3"]%string)
    0 ParamHelpers.IDLE_STATE_PFIX = Some 4294967295 /\
  PerfParams.perf_cpuidle_state
    (event_of ["state=4294967295"; "cpu_id=3"]%string) = Some (-1).
Proof.
  assert (Hu : ParamHelpers.uint_after_pfix
                 (event_of ["state=4294967295"; "cpu_id=3"]%string)
                 0 ParamHelpers.IDLE_STATE_PFIX = Some 4294967295)
    by (vm_compute; reflexivity).
  split; [exact Hu|].
  destruct (perf_cpuidle_state_reinterprets _ _ Hu)
    as (_ & state & Hstate & _ & _ & _ & _ & _ & Hm1).
  rewrite Hstate, (Hm1 eq_refl). reflexivity.
Defined.

(** ** [sched_switch], distribution style *)

(** C2: in distribution style the old PID is the integer after the [':']
    of the argument three places before the arrow and the new PID the
    integer after the [':'] of the last argument but one -- for a token
    [name:digits] the decimal value of the digits.  The state is read
    from the argument just before the arrow: a token of one or two
    characters is mapped by the state table (one state letter, or a
    state letter and ['+']), an unknown letter and a token of any other
    length give the parser error.  On the line of S3 the PIDs are 5 and
    42, and the state token [S] is the state S. *)
Theorem perf_sched_switch_distro_pids
  (event : TraceEvent) (handle : PerfParams.sched_switch_handle) :
  PerfParams.is_distro_style handle = true ->
  let i := PerfParams.index handle in
  PerfParams.perf_sched_switch_handle_oldpid event handle
    = ParamHelpers.int_after_char event (i - 3) chr_colon /\
  PerfParams.perf_sched_switch_handle_newpid event handle
    = ParamHelpers.int_after_char event (argc event - 2) chr_colon /\
  (forall name ds,
     all_digits ds -> TShark.decimal_value ds < 2 ^ 31 ->
     arg event (i - 3) = Some (name ++ chr_colon :: ds) ->
     PerfParams.perf_sched_switch_handle_oldpid event handle
       = Some (TShark.decimal_value ds)) /\
  (forall name ds,
     all_digits ds -> TShark.decimal_value ds < 2 ^ 31 ->
     arg event (argc event - 2) = Some (name ++ chr_colon :: ds) ->
     PerfParams.perf_sched_switch_handle_newpid event handle
       = Some (TShark.decimal_value ds)) /\
  (forall t,
     arg event (i - 1) = Some t ->
     PerfParams.perf_sched_switch_handle_state event handle
     = Some (if (tlen t =? 1) || (tlen t =? 2)
             then ParamHelpers.sched_state_from_tstring_ t
             else ParamHelpers.TASK_STATE_PARSER_ERROR)) /\
  (forall ch,
     arg event (i - 1) = Some [ch] ->
     PerfParams.perf_sched_switch_handle_state event handle
     = Some (match ParamHelpers.letter_of ch with
             | Some l => ParamHelpers.TASK_STATE l false
             | None => ParamHelpers.TASK_STATE_PARSER_ERROR
             end)) /\
  (forall ch plus,
     arg event (i - 1) = Some [ch; plus] ->
     PerfParams.perf_sched_switch_handle_state event handle
     = Some (match ParamHelpers.letter_of ch with
             | Some l =>
                 if Ascii.eqb plus "+"
                 then ParamHelpers.TASK_STATE l true
                 else ParamHelpers.TASK_STATE_PARSER_ERROR
             | None => ParamHelpers.TASK_STATE_PARSER_ERROR
             end)) /\
  (forall t,
     arg event (i - 1) = Some t ->
     tlen t = 0 \/ 2 < tlen t ->
     PerfParams.perf_sched_switch_handle_state event handle
     = Some ParamHelpers.TASK_STATE_PARSER_ERROR) /\
  (arg event (i - 1) = Some (tok "S") ->
   PerfParams.perf_sched_switch_handle_state event handle
   = Some (ParamHelpers.TASK_STATE ParamHelpers.State_S false)) /\
  map ParamHelpers.letter_of (tok "RSDTtXZI")
  = map Some [ParamHelpers.State_R; ParamHelpers.State_S;
              ParamHelpers.State_D; ParamHelpers.State_T;
              ParamHelpers.State_t; ParamHelpers.State_X;
              ParamHelpers.State_Z; ParamHelpers.State_I] /\
  PerfParams.perf_sched_switch_handle_oldpid
    Scenarios.s3_event Scenarios.s3_handle = Some 5 /\
  PerfParams.perf_sched_switch_handle_newpid
    Scenarios.s3_event Scenarios.s3_handle = Some 42 /\
  PerfParams.perf_sched_switch_handle_state
    Scenarios.s3_event Scenarios.s3_handle
    = Some (ParamHelpers.TASK_STATE ParamHelpers.State_S false).
Proof.
  intros Hdistro i.
  assert (Hstate : forall t,
            arg event (i - 1) = Some t ->
            PerfParams.perf_sched_switch_handle_state event handle
            = Some (if (tlen t =? 1) || (tlen t =? 2)
                    then ParamHelpers.sched_state_from_tstring_ t
                    else ParamHelpers.TASK_STATE_PARSER_ERROR)).
  { intros t Ht. unfold PerfParams.perf_sched_switch_handle_state.
    rewrite Hdistro. fold i. rewrite Ht. cbn [mbind option_bind].
    destruct ((tlen t =? 1) || (tlen t =? 2)); reflexivity. }
  unfold PerfParams.perf_sched_switch_handle_oldpid,
    PerfParams.perf_sched_switch_handle_newpid.
  rewrite Hdistro. fold i.
  split; [reflexivity|]. split; [reflexivity|].
  split; [|split; [|split; [exact Hstate|]]].
  - intros name ds Hds Hlt Harg.
    apply (int_after_char_digits _ _ _ name); auto.
  - intros name ds Hds Hlt Harg.
    apply (int_after_char_digits _ _ _ name); auto.
  - split; [|split; [|split; [|split]]].
    + intros ch Ht. rewrite (Hstate _ Ht). reflexivity.
    + intros ch plus Ht. rewrite (Hstate _ Ht). reflexivity.
    + intros t Ht Hlen. rewrite (Hstate _ Ht).
      destruct (Z.eqb_spec (tlen t) 1); [lia|].
      destruct (Z.eqb_spec (tlen t) 2); [lia|]. reflexivity.
    + intros Ht. rewrite (Hstate _ Ht). reflexivity.
    + repeat split; vm_compute; reflexivity.
Qed.

Lemma perf_sched_switch_distro_pids_witness :
  PerfParams.is_distro_style Scenarios.s3_handle = true /\
  PerfParams.perf_sched_switch_handle_oldpid
    Scenarios.s3_event Scenarios.s3_handle = Some 5 /\
  PerfParams.perf_sched_switch_handle_newpid
    Scenarios.s3_event Scenarios.s3_handle = Some 42 /\
  PerfParams.perf_sched_switch_handle_state
    Scenarios.s3_event Scenarios.s3_handle
  = Some (ParamHelpers.TASK_STATE ParamHelpers.State_S false).
Proof.
  split; [reflexivity|].
  destruct (perf_sched_switch_distro_pids Scenarios.s3_event
              Scenarios.s3_handle eq_refl)
    as (_ & _ & Hold & Hnew & _ & _ & _ & _ & Hs & _).
  split; [|split].
  - apply (Hold (tok "X") (tok "5")).
    + repeat constructor.
    + vm_compute. reflexivity.
    + reflexivity.
  - apply (Hnew (tok "bash") (tok "42")).
    + repeat constructor.
    + vm_compute. reflexivity.
    + reflexivity.
  - apply Hs. reflexivity.
Defined.

(** ** [sched_wakeup] *)







(** ** [sched_process_fork] *)

Lemma fork_childpid_walk_none event n :
  (Z.of_nat n < argc event) ->
  (forall t, t ∈ argv event -> ~ PerfParams.has_child_pid_pfix t) ->
  PerfParams.fork_childpid_walk event n = Some 0.
Proof.
  intros Hn Hnone. induction n as [|n IH]; [reflexivity|].
  cbn [PerfParams.fork_childpid_walk].
  unfold arg, argc in *.
  destruct (Z.ltb_spec (Z.of_nat (S n)) 0) as [?|_]; [lia|].
  rewrite Nat2Z.id.
  destruct (argv event !! S n) as [t|] eqn:Ht.
  - simpl. assert (Hin : t ∈ argv event) by (eapply list_elem_of_lookup_2; eassumption).
    apply Hnone in Hin. unfold PerfParams.has_child_pid_pfix in Hin.
    destruct (Z.eqb_spec (ParamHelpers.prefixcmp t ParamHelpers.FORK_CPID_PFIX) 0);
      [contradiction|].
    apply IH. lia.
  - apply lookup_ge_None in Ht. lia.
Qed.

(** The search part of the fork extractor finds the tail-most argument
    with the prefix, wherever it is. *)
Lemma fork_childpid_walk_finds event (n i : nat) :
  (i <= n)%nat -> Z.of_nat n < argc event ->
  (forall j t, (i < j <= n)%nat -> arg event (Z.of_nat j) = Some t ->
               ~ PerfParams.has_child_pid_pfix t) ->
  (i = 0%nat \/
   exists t, arg event (Z.of_nat i) = Some t /\
             PerfParams.has_child_pid_pfix t) ->
  PerfParams.fork_childpid_walk event n = Some (Z.of_nat i).
Proof.
  intros Hin Hn Hnone Hi. induction n as [|n IH].
  - assert (i = 0)%nat as -> by lia. reflexivity.
  - cbn [PerfParams.fork_childpid_walk].
    destruct (arg event (Z.of_nat (S n))) as [t|] eqn:Ht.
    + cbn [mbind option_bind].
      destruct (decide (i = S n)) as [-> | Hne].
      * destruct Hi as [? | (t' & Ht' & Hpfix)]; [lia|].
        rewrite Ht in Ht'. injection Ht' as <-.
        unfold PerfParams.has_child_pid_pfix in Hpfix.
        rewrite Hpfix. reflexivity.
      * pose proof (Hnone (S n) t ltac:(lia) Ht) as Hno.
        unfold PerfParams.has_child_pid_pfix in Hno.
        destruct (Z.eqb_spec (ParamHelpers.prefixcmp t
                                ParamHelpers.FORK_CPID_PFIX) 0);
          [contradiction|].
        apply IH; [lia | lia |].
        intros j t' Hj. apply Hnone. lia.
    + exfalso. unfold arg, argc in *.
      destruct (Z.ltb_spec (Z.of_nat (S n)) 0); [lia|].
      rewrite Nat2Z.id in Ht. apply lookup_ge_None in Ht. lia.
Qed.

(** The first half of C6 holds: the function returns the integer after
    the ['='] of the tail-most argument with the prefix [child_pid=]. *)
Lemma perf_sched_process_fork_childpid_tailmost event (i : nat) t :
  arg event (Z.of_nat i) = Some t ->
  PerfParams.has_child_pid_pfix t ->
  (forall j t', (i < j)%nat -> arg event (Z.of_nat j) = Some t' ->
                ~ PerfParams.has_child_pid_pfix t') ->
  PerfParams.perf_sched_process_fork_childpid event
  = ParamHelpers.int_after_char event (Z.of_nat i) chr_eq.
Proof.
  intros Ht Hpfix Hlast.
  assert (Hi : Z.of_nat i < argc event).
  { unfold arg, argc in *.
    destruct (Z.ltb_spec (Z.of_nat i) 0); [lia|].
    rewrite Nat2Z.id in Ht. apply lookup_lt_Some in Ht. lia. }
  unfold PerfParams.perf_sched_process_fork_childpid.
  destruct (decide (Z.of_nat i = argc event - 1)) as [Heq | Hne].
  - rewrite <- Heq, Ht. cbn [mbind option_bind].
    unfold PerfParams.has_child_pid_pfix in Hpfix. rewrite Hpfix.
    reflexivity.
  - destruct (arg event (argc event - 1)) as [guess|] eqn:Hguess.
    + cbn [mbind option_bind].
      replace (argc event - 1) with (Z.of_nat (Z.to_nat (argc event - 1)))
        in Hguess by lia.
      pose proof (Hlast (Z.to_nat (argc event - 1)) guess ltac:(lia) Hguess)
        as Hno.
      unfold PerfParams.has_child_pid_pfix in Hno.
      destruct (Z.eqb_spec (ParamHelpers.prefixcmp guess
                              ParamHelpers.FORK_CPID_PFIX) 0);
        [contradiction|].
      destruct (Z.ltb_spec 0 (argc event - 1 - 1)) as [Hpos | Hsmall].
      * rewrite (fork_childpid_walk_finds event _ i).
        -- cbn [mbind option_bind].
           destruct (Z.ltb_spec (Z.of_nat i) 0); [lia | reflexivity].
        -- lia.
        -- lia.
        -- intros j t' Hj. apply Hlast. lia.
        -- right. exists t. auto.
      * assert (i = 0)%nat as -> by lia.
        cbn [mbind option_bind].
        assert (argc event - 1 - 1 = 0) as -> by lia.
        reflexivity.
    + exfalso. unfold arg, argc in *.
      destruct (Z.ltb_spec (Z.of_nat (length (argv event)) - 1) 0); [lia|].
      apply lookup_ge_None in Hguess. lia.
Qed.

(** C6, where the code leaves the claim: when no argument has the prefix
    [child_pid=] the search ends at index 0, which the test [i < 0] lets
    through, and the result is what argument 0 has after its ['='] --
    12 on a line whose first argument is [comm=12] -- not [ABSURD_INT]. *)
Theorem perf_sched_process_fork_childpid_no_child_pid (event : TraceEvent) :
  4 <= argc event ->
  (forall t, t ∈ argv event -> ~ PerfParams.has_child_pid_pfix t) ->
  PerfParams.perf_sched_process_fork_childpid event
    = ParamHelpers.int_after_char event 0 chr_eq /\
  PerfParams.perf_sched_process_fork_childpid
    Scenarios.fork_without_child_pid = Some 12 /\
  12 <> ParamHelpers.ABSURD_INT.
Proof.
  intros Hargc Hnone. split; [|split; [vm_compute; reflexivity|discriminate]].
  unfold PerfParams.perf_sched_process_fork_childpid.
  destruct (arg event (argc event - 1)) as [guess|] eqn:Hguess.
  - simpl.
    assert (Hin : guess ∈ argv event).
    { unfold arg in Hguess.
      destruct (argc event - 1 <? 0); [discriminate|].
      eapply list_elem_of_lookup_2; eassumption. }
    apply Hnone in Hin. unfold PerfParams.has_child_pid_pfix in Hin.
    destruct (Z.eqb_spec (ParamHelpers.prefixcmp guess ParamHelpers.FORK_CPID_PFIX) 0);
      [contradiction|].
    destruct (Z.ltb_spec 0 (argc event - 1 - 1)) as [_|?]; [|lia].
    rewrite fork_childpid_walk_none; [reflexivity| |assumption].
    rewrite Z2Nat.id by lia. lia.
  - exfalso. unfold arg, argc in *.
    destruct (Z.ltb_spec (Z.of_nat (length (argv event)) - 1) 0); [lia|].
    apply lookup_ge_None in Hguess. lia.
Qed.

Lemma perf_sched_process_fork_childpid_no_child_pid_witness :
  4 <= argc Scenarios.fork_without_child_pid /\
  (forall t, t ∈ argv Scenarios.fork_without_child_pid ->
             ~ PerfParams.has_child_pid_pfix t) /\
  PerfParams.perf_sched_process_fork_childpid
    Scenarios.fork_without_child_pid
  = ParamHelpers.int_after_char Scenarios.fork_without_child_pid 0 chr_eq.
Proof.
  assert (H4 : 4 <= argc Scenarios.fork_without_child_pid)
    by (vm_compute; discriminate).
  assert (Hnone : forall t, t ∈ argv Scenarios.fork_without_child_pid ->
                            ~ PerfParams.has_child_pid_pfix t).
  { intros t Hin. unfold PerfParams.has_child_pid_pfix.
    simpl in Hin. rewrite !elem_of_cons in Hin.
    destruct Hin as [-> | [-> | [-> | [-> | Hin]]]];
      [vm_compute; discriminate ..|].
    apply elem_of_nil in Hin. contradiction. }
  split; [exact H4|]. split; [exact Hnone|].
  exact (proj1 (perf_sched_process_fork_childpid_no_child_pid
                  Scenarios.fork_without_child_pid H4 Hnone)).
Defined.

(** ** Task names of [sched_switch] *)

Section TaskNameProofs.

Import ParamHelpers PerfParams TaskNames.

Lemma tlen_app (a b : list ascii) : tlen (a ++ b) = tlen a + tlen b.
Proof. unfold tlen. rewrite length_app. lia. Qed.

Lemma tlen_nonneg (a : list ascii) : 0 <= tlen a.
Proof. unfold tlen. lia. Qed.

Lemma arg_drop event i t rest :
  0 <= i -> drop (Z.to_nat i) (argv event) = t :: rest ->
  arg event i = Some t /\ drop (Z.to_nat (i + 1)) (argv event) = rest.
Proof.
  intros Hi Hdrop. unfold arg.
  destruct (Z.ltb_spec i 0); [lia|]. split.
  - rewrite <- (Nat.add_0_r (Z.to_nat i)), <- lookup_drop, Hdrop. reflexivity.
  - rewrite Z2Nat.inj_add by lia.
    rewrite <- drop_drop, Hdrop. reflexivity.
Qed.

Lemma merge_loop_tokens event (space_first : bool) maxlen toks :
  forall i buf rest,
    0 <= i -> drop (Z.to_nat i) (argv event) = toks ++ rest ->
    tlen buf <= maxlen ->
    let joined :=
      buf ++ concat (map (fun t => if space_first then chr_space :: t
                                   else t ++ [chr_space]) toks) in
    merge_loop event space_first i (length toks) buf maxlen
    = Some (if tlen joined <=? maxlen then Some joined else None).
Proof.
  induction toks as [|t toks IH]; intros i buf rest Hi Hdrop Hbuf joined.
  - subst joined. simpl. rewrite app_nil_r.
    destruct (Z.leb_spec (tlen buf) maxlen); [reflexivity|lia].
  - subst joined. cbn [length merge_loop map concat].
    destruct (arg_drop event i t (toks ++ rest) Hi Hdrop) as [-> Hdrop'].
    simpl. unfold append_bounded.
    set (piece := if space_first then chr_space :: t else t ++ [chr_space]).
    rewrite app_assoc.
    destruct (Z.leb_spec (tlen buf + tlen piece) maxlen) as [Hfit | Hover].
    + rewrite (IH (i + 1) (buf ++ piece) rest); [reflexivity|lia|exact Hdrop'|].
      rewrite tlen_app. exact Hfit.
    + destruct (Z.leb_spec (tlen ((buf ++ piece) ++
         concat (map (fun t0 => if space_first then chr_space :: t0
                                else t0 ++ [chr_space]) toks))) maxlen)
        as [Hfit|_]; [|reflexivity].
      rewrite !tlen_app in Hfit.
      pose proof (tlen_nonneg (concat (map (fun t0 => if space_first then chr_space :: t0
                                else t0 ++ [chr_space]) toks))). lia.
Qed.

(** The tokens of a range are in the event, one after the other. *)
Lemma tokens_drop event beginidx endidx toks :
  tokens event beginidx endidx = Some toks ->
  length toks = Z.to_nat (endidx - beginidx + 1) /\
  (toks = [] \/
   0 <= beginidx /\
   exists rest, drop (Z.to_nat beginidx) (argv event) = toks ++ rest).
Proof.
  unfold tokens, argc. intros H.
  destruct (Z.ltb_spec endidx beginidx) as [Hlt | Hge].
  - injection H as <-. split; [simpl; lia | left; reflexivity].
  - destruct (Z.leb_spec 0 beginidx) as [Hb | ?]; [|discriminate].
    destruct (Z.ltb_spec endidx (Z.of_nat (length (argv event))))
      as [He | ?]; [|discriminate].
    simpl in H. injection H as <-. split.
    + rewrite length_take, length_drop. lia.
    + right. split; [assumption|].
      eexists. symmetry. apply take_drop.
Qed.

Lemma merge_tokens event (space_first : bool) beginidx endidx buf maxlen toks :
  tokens event beginidx endidx = Some toks ->
  tlen buf <= maxlen ->
  let joined :=
    buf ++ concat (map (fun t => if space_first then chr_space :: t
                                 else t ++ [chr_space]) toks) in
  merge_loop event space_first beginidx (Z.to_nat (endidx - beginidx + 1))
    buf maxlen
  = Some (if tlen joined <=? maxlen then Some joined else None).
Proof.
  intros Htok Hbuf joined.
  destruct (tokens_drop _ _ _ _ Htok) as [Hlen [-> | (Hb & rest & Hdrop)]].
  - simpl in Hlen. rewrite <- Hlen. subst joined. simpl.
    rewrite app_nil_r.
    destruct (Z.leb_spec (tlen buf) maxlen); [reflexivity|lia].
  - rewrite <- Hlen. eapply merge_loop_tokens; eassumption.
Qed.


Lemma pool_name_eq pool buf :
  pool_name pool buf = (CStr buf, {[ buf ]} ∪ pool).
Proof. reflexivity. Qed.

Lemma regular_path event pool firstidx endidx name :
  regular_name event firstidx endidx = Some name ->
  (first ← arg event firstidx;
   match copy_tstring_after_char_ first chr_eq [] TASKNAME_MAXLEN with
   | None => Some (NullStr, pool)
   | Some buf =>
       merged ← merge_args_into_cstring_nullterminate event (firstidx + 1)
                  endidx buf TASKNAME_MAXLEN;
       match merged with
       | None => Some (NullStr, pool)
       | Some buf => Some (pool_name pool buf)
       end
   end) = Some (bounded_name pool name).
Proof.
  unfold regular_name. intros H.
  destruct (arg event firstidx) as [first|]; [|discriminate]. simpl in H |- *.
  unfold copy_tstring_after_char_.
  destruct (after_first chr_eq first) as [frag|]; [|discriminate].
  simpl in H |- *.
  destruct (tokens event (firstidx + 1) endidx) as [toks|] eqn:Htok;
    [|discriminate].
  simpl in H. injection H as <-.
  unfold append_bounded, bounded_name. rewrite tlen_app.
  pose proof (tlen_nonneg (concat (map (cons chr_space) toks))) as Hnn.
  change (tlen []) with 0. rewrite Z.add_0_l.
  destruct (Z.leb_spec (tlen frag) TASKNAME_MAXLEN) as [Hfrag | Hfrag].
  - cbn [app]. unfold merge_args_into_cstring_nullterminate.
    rewrite (merge_tokens event true _ _ frag _ toks Htok Hfrag).
    simpl. rewrite tlen_app.
    change (fun t : list ascii => chr_space :: t) with (cons chr_space).
    destruct (Z.leb_spec (tlen frag + tlen (concat (map (cons chr_space) toks)))
                TASKNAME_MAXLEN); reflexivity.
  - destruct (Z.leb_spec (tlen frag + tlen (concat (map (cons chr_space) toks)))
                TASKNAME_MAXLEN); [lia|reflexivity].
Qed.

Lemma distro_path event pool beginidx lastidx name :
  distro_name event beginidx lastidx = Some name ->
  (last ← arg event lastidx;
   merged ← merge_args_into_cstring event beginidx (lastidx - 1) []
              TASKNAME_MAXLEN;
   match merged with
   | None => Some (NullStr, pool)
   | Some buf =>
       match copy_tstring_before_char_ last chr_colon buf
               TASKNAME_MAXLEN with
       | None => Some (NullStr, pool)
       | Some buf => Some (pool_name pool buf)
       end
   end) = Some (bounded_name pool name).
Proof.
  unfold distro_name. intros H.
  destruct (arg event lastidx) as [last|]; [|discriminate]. simpl in H |- *.
  destruct (tokens event beginidx (lastidx - 1)) as [toks|] eqn:Htok;
    [|discriminate].
  simpl in H.
  destruct (before_last chr_colon last) as [frag|] eqn:Hfrag; [|discriminate].
  simpl in H. injection H as <-.
  unfold merge_args_into_cstring.
  rewrite (merge_tokens event false _ _ [] _ toks Htok)
    by (vm_compute; discriminate).
  simpl. unfold bounded_name. rewrite tlen_app.
  set (joined := concat (map (fun t => t ++ [chr_space]) toks)).
  pose proof (tlen_nonneg frag) as Hnn.
  destruct (Z.leb_spec (tlen joined) TASKNAME_MAXLEN) as [Hj | Hj].
  - unfold copy_tstring_before_char_. rewrite Hfrag. simpl.
    unfold append_bounded.
    destruct (Z.leb_spec (tlen joined + tlen frag) TASKNAME_MAXLEN);
      reflexivity.
  - destruct (Z.leb_spec (tlen joined + tlen frag) TASKNAME_MAXLEN);
      [lia|reflexivity].
Qed.

End TaskNameProofs.

(** C4: when the line carries a name -- the tokens of the name range are
    in the event and the flanking token has its ['='] or [':'] -- each of
    the two functions returns the null string, and leaves the pool as it
    was, if the name is longer than [TASKNAME_MAXLEN] (16) bytes, and the
    pooled name otherwise; in both styles. *)
Theorem perf_sched_switch_names_bounded
  (event : TraceEvent) (pool : TaskNames.StringPool)
  (handle : PerfParams.sched_switch_handle) :
  (forall name,
     TaskNames.switch_newname event handle = Some name ->
     (ParamHelpers.TASKNAME_MAXLEN < tlen name ->
      TaskNames.perf_sched_switch_handle_newname_strdup_ event pool handle
        = Some (TaskNames.NullStr, pool)) /\
     (tlen name <= ParamHelpers.TASKNAME_MAXLEN ->
      TaskNames.perf_sched_switch_handle_newname_strdup_ event pool handle
        = Some (TaskNames.CStr name, {[ name ]} ∪ pool))) /\
  (forall name,
     TaskNames.switch_oldname event handle = Some name ->
     (ParamHelpers.TASKNAME_MAXLEN < tlen name ->
      TaskNames.perf_sched_switch_handle_oldname_strdup_ event pool handle
        = Some (TaskNames.NullStr, pool)) /\
     (tlen name <= ParamHelpers.TASKNAME_MAXLEN ->
      TaskNames.perf_sched_switch_handle_oldname_strdup_ event pool handle
        = Some (TaskNames.CStr name, {[ name ]} ∪ pool))).
Proof.
  assert (Hb : forall name r,
            r = Some (TaskNames.bounded_name pool name) ->
            (ParamHelpers.TASKNAME_MAXLEN < tlen name ->
             r = Some (TaskNames.NullStr, pool)) /\
            (tlen name <= ParamHelpers.TASKNAME_MAXLEN ->
             r = Some (TaskNames.CStr name, {[ name ]} ∪ pool))).
  { intros name r ->. unfold TaskNames.bounded_name.
    destruct (Z.leb_spec (tlen name) ParamHelpers.TASKNAME_MAXLEN);
      split; intros; (reflexivity || lia). }
  split; intros name Hname; apply Hb.
  - unfold TaskNames.switch_newname in Hname.
    unfold TaskNames.perf_sched_switch_handle_newname_strdup_.
    destruct (PerfParams.is_distro_style handle); simpl negb; cbv iota.
    + replace (argc event - 3) with (argc event - 2 - 1) by lia.
      apply distro_path. exact Hname.
    + replace (PerfParams.index handle + 2)
        with (PerfParams.index handle + 1 + 1) by lia.
      apply regular_path. exact Hname.
  - unfold TaskNames.switch_oldname in Hname.
    unfold TaskNames.perf_sched_switch_handle_oldname_strdup_.
    destruct (PerfParams.is_distro_style handle); simpl negb; cbv iota.
    + replace (PerfParams.index handle - 4)
        with (PerfParams.index handle - 3 - 1) by lia.
      apply distro_path. exact Hname.
    + apply (regular_path event pool 0). exact Hname.
Qed.

Lemma perf_sched_switch_names_bounded_witness :
  TaskNames.switch_newname Scenarios.s3_event Scenarios.s3_handle
    = Some (tok "bash") /\
  TaskNames.perf_sched_switch_handle_newname_strdup_
    Scenarios.s3_event ∅ Scenarios.s3_handle
    = Some (TaskNames.CStr (tok "bash"), {[ tok "bash" ]} ∪ ∅) /\
  TaskNames.switch_oldname ScenariosNames.long_oldname_event
    Scenarios.s3_handle = Some (tok "averyveryverylongname") /\
  TaskNames.perf_sched_switch_handle_oldname_strdup_
    ScenariosNames.long_oldname_event ∅ Scenarios.s3_handle
    = Some (TaskNames.NullStr, ∅).
Proof.
  assert (Hnew : TaskNames.switch_newname Scenarios.s3_event
                   Scenarios.s3_handle = Some (tok "bash"))
    by (vm_compute; reflexivity).
  assert (Hold : TaskNames.switch_oldname ScenariosNames.long_oldname_event
                   Scenarios.s3_handle = Some (tok "averyveryverylongname"))
    by (vm_compute; reflexivity).
  split; [exact Hnew|]. split; [|split; [exact Hold|]].
  - apply (proj1 (perf_sched_switch_names_bounded
                    Scenarios.s3_event ∅ Scenarios.s3_handle) _ Hnew).
    vm_compute. discriminate.
  - apply (proj2 (perf_sched_switch_names_bounded
                    ScenariosNames.long_oldname_event ∅ Scenarios.s3_handle)
             _ Hold).
    vm_compute. reflexivity.
Defined.

(** ** [StatsLimitedModel]: rows outside the list *)

(** C10, as the code has it: for a row outside [0, size) the four
    [rowTo*] functions clear [ok] and return 0, the error string, or the
    string they were given; [data] then returns an empty [QVariant] for
    every role but the text-alignment role, for which it returns the
    alignment flags of any valid index without looking at the row. *)
Theorem rows_out_of_range
  (Time_toQString : StatsLimitedModel.Time -> StatsLimitedModel.QString)
  (m : StatsLimitedModel.Model) (row : Z) :
  row < 0 \/ StatsLimitedModel.rowCount m <= row ->
  StatsLimitedModel.rowToPid m row = Some (0, false) /\
  StatsLimitedModel.rowToName m row
    = Some (StatsLimitedModel.errorStr m, false) /\
  (forall str, StatsLimitedModel.rowToPct m str row = Some (str, false)) /\
  (forall str, StatsLimitedModel.rowToTime Time_toQString m str row
               = Some (str, false)) /\
  (forall index role,
     StatsLimitedModel.index_row index = row ->
     role <> StatsLimitedModel.Qt_TextAlignmentRole ->
     StatsLimitedModel.data Time_toQString m index role
       = Some StatsLimitedModel.QVariant_invalid) /\
  (forall index,
     StatsLimitedModel.index_row index = row ->
     StatsLimitedModel.isValid index = true ->
     StatsLimitedModel.data Time_toQString m index
       StatsLimitedModel.Qt_TextAlignmentRole
       = Some (StatsLimitedModel.QVariant_int 129)).
Proof.
  intros Hrow.
  assert (Hpid : StatsLimitedModel.rowToPid m row = Some (0, false)).
  { unfold StatsLimitedModel.rowToPid.
    destruct (Z.ltb_spec row 0); [reflexivity|].
    destruct (Z.leb_spec (StatsLimitedModel.rowCount m) row);
      [reflexivity|lia]. }
  assert (Hname : StatsLimitedModel.rowToName m row
                  = Some (StatsLimitedModel.errorStr m, false)).
  { unfold StatsLimitedModel.rowToName.
    destruct (Z.ltb_spec row 0); [reflexivity|].
    destruct (Z.leb_spec (StatsLimitedModel.rowCount m) row);
      [reflexivity|lia]. }
  assert (Hpct : forall str,
             StatsLimitedModel.rowToPct m str row = Some (str, false)).
  { intros str. unfold StatsLimitedModel.rowToPct.
    destruct (Z.ltb_spec row 0); [reflexivity|].
    destruct (Z.leb_spec (StatsLimitedModel.rowCount m) row);
      [reflexivity|lia]. }
  assert (Htime : forall str,
             StatsLimitedModel.rowToTime Time_toQString m str row
             = Some (str, false)).
  { intros str. unfold StatsLimitedModel.rowToTime.
    destruct (Z.ltb_spec row 0); [reflexivity|].
    destruct (Z.leb_spec (StatsLimitedModel.rowCount m) row);
      [reflexivity|lia]. }
  repeat (split; [assumption|]). split.
  - intros index role <- Hrole. unfold StatsLimitedModel.data.
    destruct (StatsLimitedModel.isValid index); [|reflexivity].
    simpl negb. cbv iota.
    destruct (Z.eqb_spec role StatsLimitedModel.Qt_TextAlignmentRole);
      [contradiction|].
    destruct (role =? StatsLimitedModel.Qt_DisplayRole); [|reflexivity].
    rewrite Hname, Hpid, Hpct, Htime. simpl.
    repeat (destruct (_ =? _); [reflexivity|]). reflexivity.
  - intros index _ Hvalid. unfold StatsLimitedModel.data.
    rewrite Hvalid. reflexivity.
Qed.

Lemma rows_out_of_range_witness :
  let m := StatsLimitedModel.mkModel
             [StatsLimitedModel.mkTask 1 (tok "init") 30 0]
             (tok "Error in taskmodel.cpp")
             (StatsLimitedModel.mkTask 0 (tok "swapper") 0 0) in
  (-1 < 0 \/ StatsLimitedModel.rowCount m <= -1) /\
  StatsLimitedModel.rowToPid m (-1) = Some (0, false) /\
  (5 < 0 \/ StatsLimitedModel.rowCount m <= 5) /\
  StatsLimitedModel.data (fun _ => []) m
    (StatsLimitedModel.mkIndex 5 1 true) StatsLimitedModel.Qt_DisplayRole
    = Some StatsLimitedModel.QVariant_invalid.
Proof.
  intros m.
  assert (H1 : -1 < 0 \/ StatsLimitedModel.rowCount m <= -1) by (left; lia).
  assert (H5 : 5 < 0 \/ StatsLimitedModel.rowCount m <= 5)
    by (right; vm_compute; discriminate).
  split; [exact H1|]. split; [|split; [exact H5|]].
  - exact (proj1 (rows_out_of_range (fun _ => []) m (-1) H1)).
  - destruct (rows_out_of_range (fun _ => []) m 5 H5)
      as (_ & _ & _ & _ & Hdata & _).
    apply Hdata; [reflexivity | discriminate].
Defined.

(** C10, as the claim has it, fails for the text-alignment role: a valid
    index whose row is past the end of the list gets the alignment flags,
    not an empty [QVariant]. *)
Lemma data_alignment_counterexample :
  ~ (forall (Time_toQString : StatsLimitedModel.Time -> StatsLimitedModel.QString)
            (m : StatsLimitedModel.Model)
            (index : StatsLimitedModel.QModelIndex) (role : Z),
       StatsLimitedModel.index_row index < 0 \/
       StatsLimitedModel.rowCount m <= StatsLimitedModel.index_row index ->
       StatsLimitedModel.data Time_toQString m index role
         = Some StatsLimitedModel.QVariant_invalid).
Proof.
  intros H.
  specialize (H (fun _ => [])
                (StatsLimitedModel.mkModel [] []
                   (StatsLimitedModel.mkTask 0 [] 0 0))
                (StatsLimitedModel.mkIndex 5 0 true)
                StatsLimitedModel.Qt_TextAlignmentRole).
  assert (Hrow : 5 < 0 \/ 0 <= 5) by (right; lia).
  specialize (H Hrow). vm_compute in H. discriminate H.
Qed.

(** ** [TShark::heapsort] *)

Section HeapsortProofs.

Context {T : Type}.
Variable compFunc : T -> T -> Z.

Lemma heap_iLeftChild_small (r : nat) :
  Z.of_nat r < 2 ^ 31 ->
  TShark.__heap_iLeftChild (Z.of_nat r) = Z.of_nat (2 * r + 1).
Proof.
  intros Hr. unfold TShark.__heap_iLeftChild, Mach.u32.
  rewrite (Z.mod_small (Z.of_nat r)) by lia.
  rewrite Z.mod_small by lia. lia.
Qed.

Lemma heap_iParent_small (i : nat) :
  (1 <= i)%nat -> Z.of_nat i < 2 ^ 32 ->
  TShark.__heap_iParent (Z.of_nat i) = Z.of_nat ((i - 1) / 2).
Proof.
  intros Hi Hlt. unfold TShark.__heap_iParent, Mach.u32.
  rewrite (Z.mod_small (Z.of_nat i)) by lia.
  rewrite Z.mod_small by lia.
  rewrite Nat2Z.inj_div, Nat2Z.inj_sub by lia. reflexivity.
Qed.

Lemma elem_at_nat (l : list T) (i : nat) :
  TShark.elem_at l (Z.of_nat i) = l !! i.
Proof.
  unfold TShark.elem_at.
  destruct (Z.ltb_spec (Z.of_nat i) 0); [lia|].
  rewrite Nat2Z.id. reflexivity.
Qed.

Lemma swap_at_nat (l : list T) (i j : nat) x y :
  l !! i = Some x -> l !! j = Some y ->
  TShark.swap_at l (Z.of_nat i) (Z.of_nat j)
    = Some (<[j := x]> (<[i := y]> l)).
Proof.
  intros Hi Hj. unfold TShark.swap_at.
  rewrite !elem_at_nat, Hi, Hj. simpl. rewrite !Nat2Z.id. reflexivity.
Qed.

Lemma insert_replaces (l : list T) i x y :
  l !! i = Some x -> x :: <[i := y]> l ≡ₚ y :: l.
Proof.
  intros Hi.
  pose proof (lookup_lt_Some _ _ _ Hi) as Hlt.
  rewrite insert_take_drop by exact Hlt.
  rewrite <- (take_drop_middle l i x Hi) at 3.
  rewrite !Permutation_middle. apply Permutation_app_head, perm_swap.
Qed.

Lemma swap_permutation (l : list T) i j x y :
  l !! i = Some x -> l !! j = Some y ->
  l ≡ₚ <[j := x]> (<[i := y]> l).
Proof.
  intros Hi Hj. destruct (decide (i = j)) as [-> | Hne].
  - rewrite Hi in Hj. injection Hj as ->.
    rewrite list_insert_insert_eq, list_insert_id by exact Hi. reflexivity.
  - assert (Hj' : <[i := y]> l !! j = Some y)
      by (rewrite list_lookup_insert_ne by exact Hne; exact Hj).
    apply (Permutation_cons_inv (a := y)).
    rewrite <- (insert_replaces l i x y Hi).
    rewrite (insert_replaces _ j y x Hj'). reflexivity.
Qed.


(** *** Elements moved inside a range *)

Lemma moved_within_refl (l : list T) lo hi : TShark.moved_within l l lo hi.
Proof.
  split; [reflexivity|]. split; [reflexivity|]. split; [reflexivity|].
  intros i x Hi Hx. exists i. auto.
Qed.

Lemma moved_within_trans (l1 l2 l3 : list T) lo hi :
  TShark.moved_within l1 l2 lo hi -> TShark.moved_within l2 l3 lo hi ->
  TShark.moved_within l1 l3 lo hi.
Proof.
  intros (Hlen1 & Hp1 & Hout1 & Hin1) (Hlen2 & Hp2 & Hout2 & Hin2).
  split; [congruence|]. split; [etransitivity; eassumption|]. split.
  - intros k Hk. rewrite Hout2, Hout1 by exact Hk. reflexivity.
  - intros i x Hi Hx. destruct (Hin2 i x Hi Hx) as (i' & Hi' & Hx').
    apply (Hin1 i' x Hi' Hx').
Qed.

Lemma moved_within_wider (l l' : list T) lo hi lo' hi' :
  (lo' <= lo)%nat -> (hi <= hi')%nat ->
  TShark.moved_within l l' lo hi -> TShark.moved_within l l' lo' hi'.
Proof.
  intros Hlo Hhi (Hlen & Hp & Hout & Hin).
  split; [exact Hlen|]. split; [exact Hp|]. split.
  - intros k Hk. apply Hout. lia.
  - intros i x Hi Hx.
    destruct (decide (lo <= i <= hi)%nat) as [Hmid | Hnot].
    + destruct (Hin i x Hmid Hx) as (i' & Hi' & Hx').
      exists i'. split; [lia|exact Hx'].
    + exists i. split; [exact Hi|]. rewrite <- Hout by lia. exact Hx.
Qed.

Lemma moved_within_swap (l : list T) lo hi i j x y :
  (lo <= i <= hi)%nat -> (lo <= j <= hi)%nat ->
  l !! i = Some x -> l !! j = Some y ->
  TShark.moved_within l (<[j := x]> (<[i := y]> l)) lo hi.
Proof.
  intros Hi Hj Hx Hy.
  split; [rewrite !length_insert; reflexivity|].
  split; [apply swap_permutation; assumption|]. split.
  - intros k Hk. rewrite !list_lookup_insert_ne by lia. reflexivity.
  - intros k z Hk Hz.
    destruct (decide (k = j)) as [-> | Hkj].
    + rewrite list_lookup_insert_eq in Hz
        by (rewrite length_insert; eapply lookup_lt_Some; eassumption).
      injection Hz as <-. exists i. auto.
    + rewrite list_lookup_insert_ne in Hz by congruence.
      destruct (decide (k = i)) as [-> | Hki].
      * rewrite list_lookup_insert_eq in Hz
          by (eapply lookup_lt_Some; eassumption).
        injection Hz as <-. exists j. auto.
      * rewrite list_lookup_insert_ne in Hz by congruence.
        exists k. auto.
Qed.

(** *** The comparator *)

Lemma cmp_ge_refl :
  TShark.cmp_total_preorder compFunc -> forall a, TShark.cmp_ge compFunc a a.
Proof.
  intros [_ Htot] a. unfold TShark.cmp_ge in *.
  destruct (Z.lt_ge_cases (compFunc a a) 0) as [Hlt | Hge]; [|exact Hge].
  apply Htot. exact Hlt.
Qed.

Lemma cmp_ltb_ge a b :
  TShark.cmp_total_preorder compFunc ->
  (compFunc a b <? 0) = true -> TShark.cmp_ge compFunc b a.
Proof. intros [_ Htot] H. apply Htot. apply Z.ltb_lt. exact H. Qed.

Lemma cmp_nltb_ge a b :
  (compFunc a b <? 0) = false -> TShark.cmp_ge compFunc a b.
Proof. intros H. apply Z.ltb_ge in H. exact H. Qed.


(** *** One iteration of the sift-down loop *)

Lemma siftdown_step fuel (l : list T) (r e : nat) :
  (r <= e)%nat -> (e < length l)%nat -> Z.of_nat (length l) < 2 ^ 31 ->
  ((e < 2 * r + 1)%nat /\
   TShark.siftdown_loop compFunc (S fuel) l (Z.of_nat r) (Z.of_nat e)
     = Some l) \/
  ((2 * r + 1 <= e)%nat /\
   exists s x y,
     l !! r = Some x /\ l !! s = Some y /\
     (s = r \/ TShark.is_child r s) /\ (s <= e)%nat /\
     (TShark.cmp_total_preorder compFunc ->
      TShark.cmp_ge compFunc y x /\
      forall c z, TShark.is_child r c -> (c <= e)%nat ->
                  l !! c = Some z -> TShark.cmp_ge compFunc y z) /\
     ((s = r /\
       TShark.siftdown_loop compFunc (S fuel) l (Z.of_nat r) (Z.of_nat e)
         = Some l) \/
      (s <> r /\
       TShark.siftdown_loop compFunc (S fuel) l (Z.of_nat r) (Z.of_nat e)
         = TShark.siftdown_loop compFunc fuel (<[s := x]> (<[r := y]> l))
             (Z.of_nat s) (Z.of_nat e)))).
Proof.
  intros Hre He Hlen.
  cbn [TShark.siftdown_loop]. rewrite heap_iLeftChild_small by lia.
  destruct (Z.leb_spec (Z.of_nat (2 * r + 1)) (Z.of_nat e)) as [Hle | Hgt];
    [right | left; split; [lia | reflexivity]].
  split; [lia|].
  destruct (lookup_lt_is_Some_2 l r ltac:(lia)) as [x Hx].
  destruct (lookup_lt_is_Some_2 l (2 * r + 1) ltac:(lia)) as [b Hb].
  rewrite !elem_at_nat, Hx, Hb. cbn [mbind option_bind].
  replace (Z.of_nat (2 * r + 1) + 1) with (Z.of_nat (2 * r + 2)) by lia.
  assert (Hchild : forall c z, TShark.is_child r c -> l !! c = Some z ->
            (c = (2 * r + 1)%nat /\ z = b) \/ c = (2 * r + 2)%nat).
  { intros c z [-> | ->] Hz; [left | right; reflexivity].
    split; [reflexivity | congruence]. }
  destruct (compFunc x b <? 0) eqn:Hxb.
  - (* the left child sorts after the root *)
    destruct (Z.leb_spec (Z.of_nat (2 * r + 2)) (Z.of_nat e)) as [Hle2 | Hgt2].
    + destruct (lookup_lt_is_Some_2 l (2 * r + 2) ltac:(lia)) as [c2 Hc2].
      rewrite !elem_at_nat, Hb, Hc2. cbn [mbind option_bind].
      destruct (compFunc b c2 <? 0) eqn:Hbc.
      * exists (2 * r + 2)%nat, x, c2.
        split; [reflexivity|]. split; [exact Hc2|].
        split; [right; right; reflexivity|]. split; [lia|]. split.
        -- intros Hpre.
           assert (Hcb : TShark.cmp_ge compFunc c2 b)
             by (apply cmp_ltb_ge; assumption).
           assert (Hbx : TShark.cmp_ge compFunc b x)
             by (apply cmp_ltb_ge; assumption).
           split; [exact (proj1 Hpre _ _ _ Hcb Hbx)|].
           intros c z Hc _ Hz.
           destruct (Hchild c z Hc Hz) as [[-> ->] | ->]; [exact Hcb|].
           rewrite Hc2 in Hz. injection Hz as <-.
           apply cmp_ge_refl; assumption.
        -- right. split; [lia|].
           destruct (Z.eqb_spec (Z.of_nat (2 * r + 2)) (Z.of_nat r)); [lia|].
           rewrite (swap_at_nat l r (2 * r + 2) x c2 Hx Hc2). reflexivity.
      * exists (2 * r + 1)%nat, x, b.
        split; [reflexivity|]. split; [exact Hb|].
        split; [right; left; reflexivity|]. split; [lia|]. split.
        -- intros Hpre.
           split; [apply cmp_ltb_ge; assumption|].
           intros c z Hc _ Hz.
           destruct (Hchild c z Hc Hz) as [[-> ->] | ->];
             [apply cmp_ge_refl; assumption|].
           rewrite Hc2 in Hz. injection Hz as <-.
           apply cmp_nltb_ge; assumption.
        -- right. split; [lia|].
           destruct (Z.eqb_spec (Z.of_nat (2 * r + 1)) (Z.of_nat r)); [lia|].
           rewrite (swap_at_nat l r (2 * r + 1) x b Hx Hb). reflexivity.
    + cbn [mbind option_bind].
      exists (2 * r + 1)%nat, x, b.
      split; [reflexivity|]. split; [exact Hb|].
      split; [right; left; reflexivity|]. split; [lia|]. split.
      * intros Hpre.
        split; [apply cmp_ltb_ge; assumption|].
        intros c z Hc Hce Hz.
        destruct (Hchild c z Hc Hz) as [[-> ->] | ->];
          [apply cmp_ge_refl; assumption | lia].
      * right. split; [lia|].
        destruct (Z.eqb_spec (Z.of_nat (2 * r + 1)) (Z.of_nat r)); [lia|].
        rewrite (swap_at_nat l r (2 * r + 1) x b Hx Hb). reflexivity.
  - (* the root does not sort before the left child *)
    assert (Hxb' : TShark.cmp_ge compFunc x b)
      by (apply cmp_nltb_ge; assumption).
    destruct (Z.leb_spec (Z.of_nat (2 * r + 2)) (Z.of_nat e)) as [Hle2 | Hgt2].
    + destruct (lookup_lt_is_Some_2 l (2 * r + 2) ltac:(lia)) as [c2 Hc2].
      rewrite !elem_at_nat, Hx, Hc2. cbn [mbind option_bind].
      destruct (compFunc x c2 <? 0) eqn:Hxc.
      * exists (2 * r + 2)%nat, x, c2.
        split; [reflexivity|]. split; [exact Hc2|].
        split; [right; right; reflexivity|]. split; [lia|]. split.
        -- intros Hpre.
           assert (Hcx : TShark.cmp_ge compFunc c2 x)
             by (apply cmp_ltb_ge; assumption).
           split; [exact Hcx|].
           intros c z Hc _ Hz.
           destruct (Hchild c z Hc Hz) as [[-> ->] | ->];
             [exact (proj1 Hpre _ _ _ Hcx Hxb')|].
           rewrite Hc2 in Hz. injection Hz as <-.
           apply cmp_ge_refl; assumption.
        -- right. split; [lia|].
           destruct (Z.eqb_spec (Z.of_nat (2 * r + 2)) (Z.of_nat r)); [lia|].
           rewrite (swap_at_nat l r (2 * r + 2) x c2 Hx Hc2). reflexivity.
      * exists r, x, x.
        split; [reflexivity|]. split; [exact Hx|].
        split; [left; reflexivity|]. split; [lia|]. split.
        -- intros Hpre. split; [apply cmp_ge_refl; assumption|].
           intros c z Hc _ Hz.
           destruct (Hchild c z Hc Hz) as [[-> ->] | ->]; [exact Hxb'|].
           rewrite Hc2 in Hz. injection Hz as <-.
           apply cmp_nltb_ge; assumption.
        -- left. split; [reflexivity|].
           rewrite Z.eqb_refl. reflexivity.
    + cbn [mbind option_bind].
      exists r, x, x.
      split; [reflexivity|]. split; [exact Hx|].
      split; [left; reflexivity|]. split; [lia|]. split.
      * intros Hpre. split; [apply cmp_ge_refl; assumption|].
        intros c z Hc Hce Hz.
        destruct (Hchild c z Hc Hz) as [[-> ->] | ->]; [exact Hxb' | lia].
      * left. split; [reflexivity|].
        rewrite Z.eqb_refl. reflexivity.
Qed.


(** *** The sift-down loop returns, and moves elements inside its range *)

Lemma siftdown_loop_moves fuel :
  forall (l : list T) (r e : nat),
    (r <= e)%nat -> (e < length l)%nat -> Z.of_nat (length l) < 2 ^ 31 ->
    (e - r < fuel)%nat ->
    exists l',
      TShark.siftdown_loop compFunc fuel l (Z.of_nat r) (Z.of_nat e)
        = Some l' /\
      TShark.moved_within l l' r e.
Proof.
  induction fuel as [|fuel IH]; intros l r e Hre He Hlen Hfuel; [lia|].
  destruct (siftdown_step fuel l r e Hre He Hlen)
    as [[_ ->] | (Hc & s & x & y & Hx & Hy & Hs & Hse & _ & Hres)].
  - exists l. split; [reflexivity | apply moved_within_refl].
  - destruct Hres as [[_ ->] | [Hne ->]].
    + exists l. split; [reflexivity | apply moved_within_refl].
    + assert (Hrs : (r < s)%nat)
        by (destruct Hs as [-> | [-> | ->]]; [contradiction | lia | lia]).
      destruct (IH (<[s := x]> (<[r := y]> l)) s e) as (l' & -> & Hmv).
      * exact Hse.
      * rewrite !length_insert. exact He.
      * rewrite !length_insert. exact Hlen.
      * lia.
      * exists l'. split; [reflexivity|].
        eapply moved_within_trans.
        -- apply (moved_within_swap l r e r s x y); (lia || assumption).
        -- apply (moved_within_wider _ _ s e); (lia || assumption).
Qed.

Lemma siftdown_moves (l : list T) (r e : nat) :
  (r <= e)%nat -> (e < length l)%nat -> Z.of_nat (length l) < 2 ^ 31 ->
  exists l',
    TShark.__heap_siftdown compFunc l (Z.of_nat r) (Z.of_nat e) = Some l' /\
    TShark.moved_within l l' r e.
Proof.
  intros Hre He Hlen. unfold TShark.__heap_siftdown.
  apply siftdown_loop_moves; try assumption. lia.
Qed.

(** *** The sift-down loop restores the heap *)

Lemma lookup_swapped (l : list T) r s x y k :
  l !! r = Some x -> l !! s = Some y -> r <> s ->
  <[s := x]> (<[r := y]> l) !! k
  = if decide (k = s) then Some x
    else if decide (k = r) then Some y else l !! k.
Proof.
  intros Hx Hy Hne.
  pose proof (lookup_lt_Some _ _ _ Hx). pose proof (lookup_lt_Some _ _ _ Hy).
  destruct (decide (k = s)) as [-> | Hks].
  - apply list_lookup_insert_eq. rewrite length_insert. assumption.
  - rewrite list_lookup_insert_ne by congruence.
    destruct (decide (k = r)) as [-> | Hkr].
    + apply list_lookup_insert_eq. assumption.
    + apply list_lookup_insert_ne. congruence.
Qed.

Lemma child_parent_unique i j c :
  TShark.is_child i c -> TShark.is_child j c -> i = j.
Proof. unfold TShark.is_child. lia. Qed.

Lemma child_gt i c : TShark.is_child i c -> (i < c)%nat.
Proof. unfold TShark.is_child. lia. Qed.

Section Ordered.

Hypothesis Hpre : TShark.cmp_total_preorder compFunc.

Lemma heap_except_swapped (l : list T) lo e r s x y :
  (lo <= r)%nat -> TShark.is_child r s -> (s <= e)%nat ->
  l !! r = Some x -> l !! s = Some y ->
  TShark.cmp_ge compFunc y x ->
  (forall c z, TShark.is_child r c -> (c <= e)%nat -> l !! c = Some z ->
               TShark.cmp_ge compFunc y z) ->
  TShark.heap_except compFunc l lo e r ->
  TShark.heap_except compFunc (<[s := x]> (<[r := y]> l)) lo e s.
Proof.
  intros Hlo Hrs Hse Hx Hy Hyx Hych [Hother Hgrand].
  pose proof (child_gt _ _ Hrs) as Hlt.
  assert (Hne : r <> s) by lia.
  split.
  - intros i c xi yc Hi His Hce Hic.
    rewrite !(lookup_swapped l r s x y) by assumption.
    pose proof (child_gt _ _ Hic) as Hic_lt.
    destruct (decide (i = s)) as [|_]; [contradiction|].
    destruct (decide (i = r)) as [-> | Hir].
    + intros [= <-].
      destruct (decide (c = s)) as [-> | Hcs]; [intros [= <-]; exact Hyx|].
      destruct (decide (c = r)) as [-> | Hcr]; [lia|].
      intros Hc. eapply Hych; eassumption.
    + intros Hxi.
      destruct (decide (c = s)) as [-> | Hcs].
      * exfalso. apply Hir. eapply child_parent_unique; eassumption.
      * destruct (decide (c = r)) as [-> | Hcr].
        -- intros [= <-]. eapply (Hgrand i s); eassumption.
        -- intros Hc. eapply (Hother i c); eassumption.
  - intros p c xp yc Hp Hps Hsc Hce.
    assert (p = r) as -> by (eapply child_parent_unique; eassumption).
    pose proof (child_gt _ _ Hsc) as Hsc_lt.
    rewrite !(lookup_swapped l r s x y) by assumption.
    destruct (decide (r = s)) as [|_]; [contradiction|].
    destruct (decide (r = r)) as [_|]; [|contradiction].
    intros [= <-].
    destruct (decide (c = s)) as [|_]; [lia|].
    destruct (decide (c = r)) as [|_]; [lia|].
    intros Hc. eapply (Hother s c); (eassumption || lia).
Qed.

Lemma siftdown_loop_heap fuel :
  forall (l l' : list T) (lo r e : nat),
    (lo <= r)%nat -> (r <= e)%nat -> (e < length l)%nat ->
    Z.of_nat (length l) < 2 ^ 31 ->
    TShark.heap_except compFunc l lo e r ->
    TShark.siftdown_loop compFunc fuel l (Z.of_nat r) (Z.of_nat e)
      = Some l' ->
    TShark.heap_between compFunc l' lo e.
Proof.
  induction fuel as [|fuel IH]; intros l l' lo r e Hlo Hre He Hlen Hex Hrun;
    [discriminate|].
  destruct (siftdown_step fuel l r e Hre He Hlen)
    as [[Hleaf Heq] | (Hc & s & x & y & Hx & Hy & Hs & Hse & Hord & Hres)].
  - rewrite Heq in Hrun. injection Hrun as <-.
    intros i c xi yc Hi Hce Hic Hxi Hyc.
    destruct (decide (i = r)) as [-> | Hir].
    + unfold TShark.is_child in Hic. lia.
    + eapply (proj1 Hex i c); eassumption.
  - destruct (Hord Hpre) as [Hyx Hych].
    destruct Hres as [[-> Heq] | [Hne Heq]]; rewrite Heq in Hrun.
    + injection Hrun as <-.
      rewrite Hx in Hy. injection Hy as <-.
      intros i c xi yc Hi Hce Hic Hxi Hyc.
      destruct (decide (i = r)) as [-> | Hir].
      * rewrite Hx in Hxi. injection Hxi as <-.
        eapply Hych; eassumption.
      * eapply (proj1 Hex i c); eassumption.
    + assert (Hrs : TShark.is_child r s)
        by (destruct Hs as [-> | Hs]; [contradiction | exact Hs]).
      pose proof (child_gt _ _ Hrs).
      eapply (IH _ l' lo s e); [lia | exact Hse | | | | exact Hrun].
      * rewrite !length_insert. exact He.
      * rewrite !length_insert. exact Hlen.
      * eapply heap_except_swapped; eassumption.
Qed.

End Ordered.


(** *** Building the heap *)

Lemma heapify_loop_ok (n : nat) :
  forall (l : list T),
    (n <= length l)%nat -> (1 <= length l)%nat ->
    Z.of_nat (length l) < 2 ^ 31 ->
    exists l',
      TShark.heapify_loop compFunc n l (Z.of_nat (length l)) = Some l' /\
      TShark.moved_within l l' 0 (length l - 1) /\
      (TShark.cmp_total_preorder compFunc ->
       TShark.heap_between compFunc l n (length l - 1) ->
       TShark.heap_between compFunc l' 0 (length l - 1)).
Proof.
  induction n as [|n IH]; intros l Hn H1 Hlen.
  - exists l. split; [reflexivity|]. split; [apply moved_within_refl|].
    intros _ H. exact H.
  - cbn [TShark.heapify_loop].
    replace (Z.of_nat (length l) - 1) with (Z.of_nat (length l - 1)) by lia.
    destruct (siftdown_moves l n (length l - 1)) as (l1 & Hrun & Hmv);
      [lia | lia | exact Hlen |].
    rewrite Hrun. cbn [mbind option_bind].
    pose proof (proj1 Hmv) as Hlen1.
    destruct (IH l1) as (l' & Hrun' & Hmv' & Hheap'); [lia | lia | lia |].
    rewrite Hlen1 in Hrun', Hmv', Hheap'.
    exists l'. split; [exact Hrun'|]. split.
    + eapply moved_within_trans; [|exact Hmv'].
      apply (moved_within_wider _ _ n (length l - 1)); (lia || assumption).
    + intros Hpre Hheap. apply Hheap'; [exact Hpre|].
      unfold TShark.__heap_siftdown in Hrun.
      eapply (siftdown_loop_heap Hpre _ l l1 n n);
        [lia | lia | lia | exact Hlen | | exact Hrun].
      split.
      * intros i c x y Hi Hne Hc Hic Hx Hy.
        apply (Hheap i c x y); (lia || assumption).
      * intros p c x y Hp Hpn. apply child_gt in Hpn. lia.
Qed.

Lemma heapify_ok (l : list T) :
  (2 <= length l)%nat -> Z.of_nat (length l) < 2 ^ 31 ->
  exists l',
    TShark.__heap_heapify compFunc l = Some l' /\
    TShark.moved_within l l' 0 (length l - 1) /\
    (TShark.cmp_total_preorder compFunc ->
     TShark.heap_between compFunc l' 0 (length l - 1)).
Proof.
  intros H2 Hlen. unfold TShark.__heap_heapify.
  replace (Z.of_nat (length l) - 1) with (Z.of_nat (length l - 1)) by lia.
  rewrite heap_iParent_small by lia.
  replace (Z.to_nat (Z.of_nat ((length l - 1 - 1) / 2) + 1))
    with (S ((length l - 1 - 1) / 2)) by lia.
  assert (Hdiv : (2 * ((length l - 1 - 1) / 2) + 3 > length l - 1)%nat).
  { pose proof (Nat.div_mod_eq (length l - 1 - 1) 2) as Hdm.
    pose proof (Nat.mod_upper_bound (length l - 1 - 1) 2). lia. }
  assert (Hle : (S ((length l - 1 - 1) / 2) <= length l)%nat).
  { pose proof (Nat.Div0.div_le_upper_bound (length l - 1 - 1) 2 (length l)). 
    pose proof (Nat.div_mod_eq (length l - 1 - 1) 2). lia. }
  destruct (heapify_loop_ok (S ((length l - 1 - 1) / 2)) l Hle)
    as (l' & Hrun & Hmv & Hheap); [lia | exact Hlen |].
  exists l'. split; [exact Hrun|]. split; [exact Hmv|].
  intros Hpre. apply Hheap; [exact Hpre|].
  intros i c x y Hi Hc Hic. unfold TShark.is_child in Hic. lia.
Qed.


(** *** Taking the maximum out *)

Lemma heap_root_max (l : list T) (e : nat) :
  TShark.cmp_total_preorder compFunc ->
  TShark.heap_between compFunc l 0 e ->
  forall i x y, (i <= e)%nat -> l !! 0%nat = Some x -> l !! i = Some y ->
                TShark.cmp_ge compFunc x y.
Proof.
  intros Hpre Hheap i. induction i as [i IH] using lt_wf_ind.
  intros x y Hie Hx Hy.
  destruct i as [|i'].
  - rewrite Hx in Hy. injection Hy as <-. apply cmp_ge_refl; assumption.
  - set (p := (i' / 2)%nat).
    assert (Hchild : TShark.is_child p (S i')).
    { unfold TShark.is_child, p.
      pose proof (Nat.div_mod_eq i' 2) as Hdm.
      pose proof (Nat.mod_upper_bound i' 2). lia. }
    pose proof (child_gt _ _ Hchild) as Hp.
    destruct (lookup_lt_is_Some_2 l p) as [z Hz].
    { pose proof (lookup_lt_Some _ _ _ Hy). lia. }
    apply (proj1 Hpre x z y).
    + apply (IH p); (lia || assumption).
    + apply (Hheap p (S i')); (lia || assumption).
Qed.

Lemma sorted_from_moved (l l' : list T) (k : nat) :
  TShark.sorted_from compFunc l (S k) ->
  TShark.moved_within l l' 0 k ->
  TShark.sorted_from compFunc l' (S k).
Proof.
  intros Hs (Hlen & _ & Hout & Hin) i j x y Hij Hkj Hx Hy.
  rewrite Hout in Hy by lia.
  destruct (decide (i <= k)%nat) as [Hik | Hik].
  - destruct (Hin i x ltac:(lia) Hx) as (i' & Hi' & Hx').
    apply (Hs i' j); (lia || assumption).
  - rewrite Hout in Hx by lia. apply (Hs i j); (lia || assumption).
Qed.

Lemma sort_loop_ok (n : nat) :
  forall (l : list T),
    (n < length l)%nat -> Z.of_nat (length l) < 2 ^ 31 ->
    exists l',
      TShark.sort_loop compFunc n l = Some l' /\
      TShark.moved_within l l' 0 n /\
      (TShark.cmp_total_preorder compFunc ->
       TShark.heap_between compFunc l 0 n ->
       TShark.sorted_from compFunc l (S n) ->
       TShark.cmp_sorted compFunc l').
Proof.
  induction n as [|n IH]; intros l Hn Hlen.
  - exists l. split; [reflexivity|]. split; [apply moved_within_refl|].
    intros Hpre _ Hsorted i j x y Hij Hx Hy.
    destruct j as [|j].
    + assert (i = 0)%nat as -> by lia.
      rewrite Hx in Hy. injection Hy as <-. apply cmp_ge_refl; assumption.
    + apply (Hsorted i (S j)); (lia || assumption).
  - cbn [TShark.sort_loop].
    destruct (lookup_lt_is_Some_2 l 0 ltac:(lia)) as [x0 Hx0].
    destruct (lookup_lt_is_Some_2 l (S n) ltac:(lia)) as [xn Hxn].
    pose proof (swap_at_nat l 0 (S n) x0 xn Hx0 Hxn) as Hsw.
    change (Z.of_nat 0) with 0 in Hsw.
    rewrite Hsw. cbn [mbind option_bind].
    set (l1 := <[S n := x0]> (<[0%nat := xn]> l)).
    assert (Hlen1 : length l1 = length l)
      by (unfold l1; rewrite !length_insert; reflexivity).
    assert (Hmv1 : TShark.moved_within l l1 0 (S n))
      by (apply moved_within_swap; (lia || assumption)).
    destruct (siftdown_moves l1 0 n) as (l2 & Hrun & Hmv2); [lia | lia | lia |].
    change (Z.of_nat 0) with 0 in Hrun.
    rewrite Hrun. cbn [mbind option_bind].
    pose proof (proj1 Hmv2) as Hlen2.
    destruct (IH l2) as (l' & Hrun' & Hmv' & Hsort'); [lia | lia |].
    exists l'. split; [exact Hrun'|]. split.
    + eapply moved_within_trans; [exact Hmv1|].
      eapply moved_within_trans;
        eapply (moved_within_wider _ _ 0 n); (lia || eassumption).
    + intros Hpre Hheap Hsorted.
      assert (Hlook : forall k, l1 !! k =
                if decide (k = S n) then Some x0
                else if decide (k = 0%nat) then Some xn else l !! k).
      { intros k. unfold l1. apply lookup_swapped; (lia || assumption). }
      apply Hsort'; [exact Hpre | |].
      * unfold TShark.__heap_siftdown in Hrun.
        change 0 with (Z.of_nat 0) in Hrun at 2.
        eapply (siftdown_loop_heap Hpre _ l1 l2 0 0 n);
          [lia | lia | lia | lia | | exact Hrun].
        split.
        -- intros i c x y Hi Hne Hc Hic.
           pose proof (child_gt _ _ Hic).
           rewrite !Hlook.
           destruct (decide (i = S n)); [lia|].
           destruct (decide (i = 0%nat)); [lia|].
           destruct (decide (c = S n)); [lia|].
           destruct (decide (c = 0%nat)); [lia|].
           intros Hx Hy. apply (Hheap i c); (lia || assumption).
        -- intros p c x y _ Hp0. apply child_gt in Hp0. lia.
      * apply (sorted_from_moved l1 l2 n); [|exact Hmv2].
        intros i j x y Hij Hnj. rewrite !Hlook.
        destruct (decide (j = S n)) as [-> | Hjn].
        -- intros Hx [= <-].
           destruct (decide (i = S n)) as [|_];
             [injection Hx as <-; apply cmp_ge_refl; assumption|].
           destruct (decide (i = 0%nat)) as [|_].
           ++ injection Hx as <-.
              apply (heap_root_max l (S n) Hpre Hheap (S n));
                (lia || assumption).
           ++ apply (heap_root_max l (S n) Hpre Hheap i);
                (lia || assumption).
        -- destruct (decide (j = 0%nat)); [lia|]. intros Hx Hy.
           destruct (decide (i = S n)) as [|_].
           ++ injection Hx as <-.
              apply (Hsorted 0%nat j); (lia || assumption).
           ++ destruct (decide (i = 0%nat)) as [|_].
              ** injection Hx as <-.
                 apply (Hsorted (S n) j); (lia || assumption).
              ** apply (Hsorted i j); (lia || assumption).
Qed.

(** *** The sort *)

Lemma heapsort_ok (l : list T) :
  Z.of_nat (length l) < 2 ^ 31 ->
  exists l',
    TShark.heapsort compFunc l = Some l' /\
    l ≡ₚ l' /\
    (TShark.cmp_total_preorder compFunc -> TShark.cmp_sorted compFunc l').
Proof.
  intros Hlen. unfold TShark.heapsort.
  destruct (Z.ltb_spec (Z.of_nat (length l)) 2) as [Hsmall | Hbig].
  - exists l. split; [reflexivity|]. split; [reflexivity|].
    intros Hpre i j x y Hij Hx Hy.
    pose proof (lookup_lt_Some _ _ _ Hx). pose proof (lookup_lt_Some _ _ _ Hy).
    assert (i = j) as -> by lia.
    rewrite Hx in Hy. injection Hy as <-. apply cmp_ge_refl; assumption.
  - destruct (heapify_ok l) as (l1 & Hrun1 & Hmv1 & Hheap1); [lia | lia |].
    rewrite Hrun1. cbn [mbind option_bind].
    pose proof (proj1 Hmv1) as Hlen1.
    replace (Z.to_nat (Z.of_nat (length l) - 1)) with (length l - 1)%nat by lia.
    destruct (sort_loop_ok (length l - 1) l1) as (l' & Hrun & Hmv & Hsort);
      [lia | lia |].
    exists l'. split; [exact Hrun|]. split.
    + etransitivity; [exact (proj1 (proj2 Hmv1)) | exact (proj1 (proj2 Hmv))].
    + intros Hpre. apply Hsort; [exact Hpre | apply Hheap1; exact Hpre |].
      intros i j x y Hij Hj Hx Hy.
      pose proof (lookup_lt_Some _ _ _ Hy). lia.
Qed.

End HeapsortProofs.

(** C5, as the code has it: on a container of fewer than [2^31] elements
    [heapsort] returns, and leaves a permutation of the input; when the
    comparator is a total preorder the result is in non-decreasing
    comparator order.  Elements that compare equal are not kept in their
    input order: two elements of one key come out exchanged. *)
Theorem heapsort_sorts (T : Type) (compFunc : T -> T -> Z) (l : list T) :
  Z.of_nat (length l) < 2 ^ 31 ->
  (exists l',
     TShark.heapsort compFunc l = Some l' /\
     l ≡ₚ l' /\
     (TShark.cmp_total_preorder compFunc -> TShark.cmp_sorted compFunc l')) /\
  TShark.heapsort ScenariosSort.key_compare ScenariosSort.two_equal_keys
    = Some [(1, 20); (1, 10)].
Proof.
  intros Hlen. split; [apply heapsort_ok; exact Hlen|].
  vm_compute. reflexivity.
Qed.

Lemma heapsort_sorts_witness :
  Z.of_nat (length [5; 3; 9; 1; 1; 7]) < 2 ^ 31 /\
  TShark.cmp_total_preorder Z.sub /\
  exists l',
    TShark.heapsort Z.sub [5; 3; 9; 1; 1; 7] = Some l' /\
    [5; 3; 9; 1; 1; 7] ≡ₚ l' /\
    TShark.cmp_sorted Z.sub l'.
Proof.
  assert (Hlen : Z.of_nat (length [5; 3; 9; 1; 1; 7]) < 2 ^ 31)
    by (vm_compute; reflexivity).
  assert (Hpre : TShark.cmp_total_preorder Z.sub)
    by (unfold TShark.cmp_total_preorder, TShark.cmp_ge; split; intros; lia).
  split; [exact Hlen|]. split; [exact Hpre|].
  destruct (proj1 (heapsort_sorts Z Z.sub [5; 3; 9; 1; 1; 7] Hlen))
    as (l' & Hrun & Hperm & Hsorted).
  exists l'. split; [exact Hrun|]. split; [exact Hperm|].
  exact (Hsorted Hpre).
Defined.

(** C5, as the claim has it, fails: the sort is not stable. *)
Lemma heapsort_stability_counterexample :
  ~ (forall (T : Type) (compFunc : T -> T -> Z) (l l' : list T),
       TShark.heapsort compFunc l = Some l' ->
       TShark.keeps_equal_order compFunc l l').
Proof.
  intros H.
  specialize (H (Z * Z)%type ScenariosSort.key_compare
                ScenariosSort.two_equal_keys [(1, 20); (1, 10)]).
  assert (Hrun : TShark.heapsort ScenariosSort.key_compare
                   ScenariosSort.two_equal_keys = Some [(1, 20); (1, 10)])
    by (vm_compute; reflexivity).
  specialize (H Hrun (1, 10)). vm_compute in H. discriminate H.
Qed.

(** ** [StatsLimitedModel::setTaskMap] *)

Lemma collect_spec (tree : StatsLimitedModel.TaskMap) :
  forall taskList idle,
    StatsLimitedModel.collect tree taskList idle
    = (taskList ++ StatsLimitedModel.active_tasks tree,
       StatsLimitedModel.set_cursorTime idle
         (StatsLimitedModel.cursorTime idle
          - StatsLimitedModel.total_cursorTime tree)).
Proof.
  induction tree as [|[key handle] tree IH]; intros taskList idle.
  - simpl. rewrite app_nil_r. destruct idle. unfold
      StatsLimitedModel.set_cursorTime. simpl. f_equal. f_equal. lia.
  - cbn [StatsLimitedModel.collect].
    unfold StatsLimitedModel.active_tasks, StatsLimitedModel.total_cursorTime.
    cbn [map foldr snd]. rewrite filter_cons.
    destruct (Z.eqb_spec (StatsLimitedModel.cursorTime
                            (StatsLimitedModel.task handle)) 0) as [Hz | Hnz].
    + simpl negb. cbv iota. rewrite IH.
      destruct (decide _) as [Hd | _]; [contradiction|].
      unfold StatsLimitedModel.active_tasks,
        StatsLimitedModel.total_cursorTime.
      f_equal. unfold StatsLimitedModel.set_cursorTime. f_equal. lia.
    + simpl negb. cbv iota. rewrite IH.
      destruct (decide _) as [_ | Hd]; [|contradiction].
      unfold StatsLimitedModel.active_tasks,
        StatsLimitedModel.total_cursorTime.
      rewrite <- app_assoc. f_equal.
      unfold StatsLimitedModel.set_cursorTime. simpl. f_equal. lia.
Qed.

Lemma active_tasks_length tree :
  (length (StatsLimitedModel.active_tasks tree) <= length tree)%nat.
Proof.
  unfold StatsLimitedModel.active_tasks.
  etransitivity; [apply length_filter|]. rewrite length_map. reflexivity.
Qed.

(** C9: with a map (of fewer than [2^31 - 1] entries, a task list holds
    no more) [setTaskMap] returns; the idle task's cursor time is
    [nrcpus] times the window less the cursor times of all tasks of the
    map; the task list is a permutation of the tasks of the map that
    have a cursor time followed by the idle task; and [rowCount] is
    their number plus one. *)
Theorem setTaskMap_conserves_time
  (cursor_pct_of : StatsLimitedModel.Time -> StatsLimitedModel.Time -> Z)
  (lowerTimeLimit higherTimeLimit : StatsLimitedModel.Time)
  (m : StatsLimitedModel.Model) (tree : StatsLimitedModel.TaskMap)
  (nrcpus : Z) :
  Z.of_nat (length tree) + 1 < 2 ^ 31 ->
  exists m',
    StatsLimitedModel.setTaskMap cursor_pct_of lowerTimeLimit
      higherTimeLimit m (Some tree) nrcpus = Some m' /\
    StatsLimitedModel.cursorTime (StatsLimitedModel.idleTask m')
      = nrcpus * (higherTimeLimit - lowerTimeLimit)
        - StatsLimitedModel.total_cursorTime tree /\
    StatsLimitedModel.taskList m'
      ≡ₚ StatsLimitedModel.active_tasks tree
           ++ [StatsLimitedModel.idleTask m'] /\
    StatsLimitedModel.rowCount m'
      = Z.of_nat (length (StatsLimitedModel.active_tasks tree)) + 1.
Proof.
  intros Hsize. unfold StatsLimitedModel.setTaskMap.
  rewrite collect_spec. cbn [app].
  set (idle := StatsLimitedModel.set_cursorPct _ _).
  pose proof (active_tasks_length tree) as Hact.
  unfold StatsLimitedModel.vtl_heapsort.
  destruct (heapsort_ok StatsLimitedModel.task_compare
              (StatsLimitedModel.active_tasks tree ++ [idle]))
    as (l' & Hrun & Hperm & _).
  { rewrite length_app. simpl. lia. }
  rewrite Hrun. cbn [mbind option_bind].
  eexists. split; [reflexivity|]. cbn.
  split; [lia|]. split; [symmetry; exact Hperm|].
  unfold StatsLimitedModel.rowCount. cbn.
  rewrite <- (Permutation_length Hperm), length_app. simpl. lia.
Qed.

Lemma setTaskMap_conserves_time_witness :
  Z.of_nat (length ScenariosSort.map3) + 1 < 2 ^ 31 /\
  exists m',
    StatsLimitedModel.setTaskMap (fun _ _ => 0) 100 200
      ScenariosSort.model0 (Some ScenariosSort.map3) 2 = Some m' /\
    StatsLimitedModel.cursorTime (StatsLimitedModel.idleTask m')
      = 2 * (200 - 100) - StatsLimitedModel.total_cursorTime ScenariosSort.map3 /\
    StatsLimitedModel.rowCount m'
      = Z.of_nat (length (StatsLimitedModel.active_tasks ScenariosSort.map3)) + 1.
Proof.
  assert (Hsize : Z.of_nat (length ScenariosSort.map3) + 1 < 2 ^ 31)
    by (vm_compute; reflexivity).
  split; [exact Hsize|].
  destruct (setTaskMap_conserves_time (fun _ _ => 0) 100 200
              ScenariosSort.model0 ScenariosSort.map3 2 Hsize)
    as (m' & Hrun & Htime & _ & Hrows).
  exists m'. repeat split; assumption.
Defined.

(** * Part III: further properties of the code *)

(** ** The heap of [TShark::heapsort] *)

(** X1: below [2^31 - 1] the index helpers do not wrap: the children of
    [i] are [2i + 1] and [2i + 2], the right child is the left child
    plus one (which is how [__heap_siftdown] gets at it), and
    [__heap_iParent] takes both children back to [i].  The parent of
    index 0 wraps to [2^31 - 1]. *)
Theorem heap_index_round_trip (i : Z) :
  0 <= i < 2 ^ 31 - 1 ->
  TShark.__heap_iLeftChild i = 2 * i + 1 /\
  TShark.__heap_iRightChild i = TShark.__heap_iLeftChild i + 1 /\
  TShark.__heap_iParent (TShark.__heap_iLeftChild i) = i /\
  TShark.__heap_iParent (TShark.__heap_iRightChild i) = i /\
  TShark.__heap_iParent 0 = 2 ^ 31 - 1.
Proof.
  intros Hi.
  assert (HL : TShark.__heap_iLeftChild i = 2 * i + 1).
  { unfold TShark.__heap_iLeftChild, Mach.u32.
    rewrite (Z.mod_small i) by lia. apply Z.mod_small. lia. }
  assert (HR : TShark.__heap_iRightChild i = 2 * i + 2).
  { unfold TShark.__heap_iRightChild, Mach.u32.
    rewrite (Z.mod_small i) by lia. apply Z.mod_small. lia. }
  rewrite HL, HR. split; [reflexivity|]. split; [lia|].
  unfold TShark.__heap_iParent, Mach.u32.
  rewrite !(Z.mod_small (2 * i + _)) by lia.
  rewrite !Z.mod_small by lia.
  split; [|split; [|reflexivity]].
  - replace (2 * i + 1 - 1) with (i * 2) by lia. apply Z.div_mul. lia.
  - replace (2 * i + 2 - 1) with (1 + i * 2) by lia.
    rewrite Z.div_add by lia. reflexivity.
Qed.

Lemma heap_index_round_trip_witness :
  0 <= 5 < 2 ^ 31 - 1 /\
  TShark.__heap_iParent (TShark.__heap_iLeftChild 5) = 5 /\
  TShark.__heap_iParent (TShark.__heap_iRightChild 5) = 5.
Proof.
  assert (H5 : 0 <= 5 < 2 ^ 31 - 1) by lia.
  split; [exact H5|].
  destruct (heap_index_round_trip 5 H5) as (_ & _ & HL & HR & _).
  split; assumption.
Defined.

(** X2: [__heap_siftdown] on a range [start .. end] inside a container of
    fewer than [2^31] elements returns for every comparator, without
    reading outside the container; the result has the elements of the
    container, and every element outside [start .. end] is where it
    was. *)
Theorem heap_siftdown_frame (T : Type) (compFunc : T -> T -> Z)
  (l : list T) (start end_ : nat) :
  (start <= end_)%nat -> (end_ < length l)%nat ->
  Z.of_nat (length l) < 2 ^ 31 ->
  exists l',
    TShark.__heap_siftdown compFunc l (Z.of_nat start) (Z.of_nat end_)
      = Some l' /\
    l ≡ₚ l' /\
    length l' = length l /\
    forall k, (k < start)%nat \/ (end_ < k)%nat -> l' !! k = l !! k.
Proof.
  intros Hse He Hlen.
  destruct (siftdown_moves compFunc l start end_ Hse He Hlen)
    as (l' & Hrun & Hlen' & Hperm & Hout & _).
  exists l'. auto.
Qed.

Lemma heap_siftdown_frame_witness :
  exists l',
    TShark.__heap_siftdown Z.sub [9; 1; 8; 7; 3; 0] 1 4 = Some l' /\
    [9; 1; 8; 7; 3; 0] ≡ₚ l' /\
    l' !! 0%nat = Some 9 /\ l' !! 5%nat = Some 0.
Proof.
  destruct (heap_siftdown_frame Z Z.sub [9; 1; 8; 7; 3; 0] 1 4)
    as (l' & Hrun & Hperm & _ & Hout);
    [simpl; lia | simpl; lia | vm_compute; reflexivity |].
  exists l'. split; [exact Hrun|]. split; [exact Hperm|].
  split; [rewrite Hout by lia | rewrite Hout by lia]; reflexivity.
Defined.

(** X3: when the comparator is a total preorder and every node after
    [start] is not sorted before by its children inside the range, then
    after [__heap_siftdown] the same holds from [start] on: the sift
    restores the heap. *)
Theorem heap_siftdown_restores_heap (T : Type) (compFunc : T -> T -> Z)
  (l l' : list T) (start end_ : nat) :
  TShark.cmp_total_preorder compFunc ->
  (start <= end_)%nat -> (end_ < length l)%nat ->
  Z.of_nat (length l) < 2 ^ 31 ->
  TShark.heap_between compFunc l (S start) end_ ->
  TShark.__heap_siftdown compFunc l (Z.of_nat start) (Z.of_nat end_)
    = Some l' ->
  TShark.heap_between compFunc l' start end_.
Proof.
  intros Hpre Hse He Hlen Hheap Hrun.
  unfold TShark.__heap_siftdown in Hrun.
  eapply (siftdown_loop_heap compFunc Hpre _ l l' start start end_);
    [lia | exact Hse | exact He | exact Hlen | | exact Hrun].
  split.
  - intros i c x y Hi Hne Hc Hic Hx Hy.
    apply (Hheap i c x y); (lia || assumption).
  - intros p c x y Hp Hps. apply child_gt in Hps. lia.
Qed.

Lemma heap_siftdown_restores_heap_witness :
  TShark.cmp_total_preorder Z.sub /\
  TShark.heap_between Z.sub [1; 8; 7; 3; 0] 1 4 /\
  TShark.__heap_siftdown Z.sub [1; 8; 7; 3; 0] 0 4 = Some [8; 3; 7; 1; 0] /\
  TShark.heap_between Z.sub [8; 3; 7; 1; 0] 0 4.
Proof.
  assert (Hpre : TShark.cmp_total_preorder Z.sub)
    by (unfold TShark.cmp_total_preorder, TShark.cmp_ge; split; intros; lia).
  assert (Hheap : TShark.heap_between Z.sub [1; 8; 7; 3; 0] 1 4).
  { intros i c x y Hi Hc [-> | ->] Hx Hy;
      (destruct i as [|[|[|[|[|i]]]]]; simpl in Hx, Hy; try lia;
       try discriminate; injection Hx as <-; injection Hy as <-;
       unfold TShark.cmp_ge; lia). }
  assert (Hrun : TShark.__heap_siftdown Z.sub [1; 8; 7; 3; 0] 0 4
                 = Some [8; 3; 7; 1; 0]) by (vm_compute; reflexivity).
  split; [exact Hpre|]. split; [exact Hheap|]. split; [exact Hrun|].
  apply (heap_siftdown_restores_heap Z Z.sub [1; 8; 7; 3; 0] _ 0 4 Hpre);
    [lia | simpl; lia | vm_compute; reflexivity | exact Hheap | exact Hrun].
Defined.

(** X4: on a container of 2 to [2^31 - 1] elements [__heap_heapify]
    returns a permutation of the container; when the comparator is a
    total preorder the result is a heap: no node is sorted before by one
    of its children, and so the first element is not sorted before by
    any element. *)
Theorem heap_heapify_builds_heap (T : Type) (compFunc : T -> T -> Z)
  (l : list T) :
  (2 <= length l)%nat -> Z.of_nat (length l) < 2 ^ 31 ->
  exists l',
    TShark.__heap_heapify compFunc l = Some l' /\
    l ≡ₚ l' /\
    (TShark.cmp_total_preorder compFunc ->
     TShark.heap_between compFunc l' 0 (length l - 1) /\
     forall x y, l' !! 0%nat = Some x -> y ∈ l' ->
                 TShark.cmp_ge compFunc x y).
Proof.
  intros H2 Hlen.
  destruct (heapify_ok compFunc l H2 Hlen)
    as (l' & Hrun & (Hlen' & Hperm & _) & Hheap).
  exists l'. split; [exact Hrun|]. split; [exact Hperm|].
  intros Hpre. specialize (Hheap Hpre). split; [exact Hheap|].
  intros x y Hx Hy.
  apply list_elem_of_lookup in Hy as [i Hi].
  pose proof (lookup_lt_Some _ _ _ Hi) as Hlt.
  apply (heap_root_max compFunc l' (length l - 1) Hpre Hheap i);
    (lia || assumption).
Qed.

Lemma heap_heapify_builds_heap_witness :
  (2 <= length [3; 9; 1; 7])%nat /\
  TShark.cmp_total_preorder Z.sub /\
  exists l',
    TShark.__heap_heapify Z.sub [3; 9; 1; 7] = Some l' /\
    [3; 9; 1; 7] ≡ₚ l' /\
    forall x y, l' !! 0%nat = Some x -> y ∈ l' -> TShark.cmp_ge Z.sub x y.
Proof.
  assert (H2 : (2 <= length [3; 9; 1; 7])%nat) by (simpl; lia).
  assert (Hpre : TShark.cmp_total_preorder Z.sub)
    by (unfold TShark.cmp_total_preorder, TShark.cmp_ge; split; intros; lia).
  split; [exact H2|]. split; [exact Hpre|].
  destruct (heap_heapify_builds_heap Z Z.sub [3; 9; 1; 7] H2)
    as (l' & Hrun & Hperm & Hheap); [vm_compute; reflexivity|].
  exists l'. split; [exact Hrun|]. split; [exact Hperm|].
  exact (proj2 (Hheap Hpre)).
Defined.

(** ** The comparator is applied to elements of the container only *)

Section HeapsortComparator.

Context {T : Type}.
Variables f g : T -> T -> Z.

Lemma elem_at_member (l : list T) z x :
  TShark.elem_at l z = Some x -> x ∈ l.
Proof.
  unfold TShark.elem_at. destruct (z <? 0); [discriminate|].
  apply list_elem_of_lookup_2.
Qed.

Lemma swap_at_members (l l2 : list T) i j :
  TShark.swap_at l i j = Some l2 -> forall x, x ∈ l2 -> x ∈ l.
Proof.
  unfold TShark.swap_at. intros H x Hx.
  destruct (TShark.elem_at l i) as [a|] eqn:Ha; [|discriminate].
  destruct (TShark.elem_at l j) as [b|] eqn:Hb; [|discriminate].
  cbn in H. injection H as <-.
  apply elem_at_member in Ha. apply elem_at_member in Hb.
  apply list_elem_of_lookup in Hx as [k Hk].
  apply list_lookup_insert_Some in Hk as [(_ & <- & _) | [_ Hk]];
    [exact Ha|].
  apply list_lookup_insert_Some in Hk as [(_ & <- & _) | [_ Hk]];
    [exact Hb|].
  eapply list_elem_of_lookup_2; eassumption.
Qed.

Lemma siftdown_loop_agree fuel :
  forall (l : list T) root end_,
    TSharkMore.agree_on f g l ->
    TShark.siftdown_loop f fuel l root end_
      = TShark.siftdown_loop g fuel l root end_ /\
    forall l', TShark.siftdown_loop f fuel l root end_ = Some l' ->
               forall x, x ∈ l' -> x ∈ l.
Proof.
  induction fuel as [|fuel IH]; intros l root end_ Hag;
    [split; [reflexivity | discriminate]|].
  cbn [TShark.siftdown_loop].
  destruct (TShark.__heap_iLeftChild root <=? end_);
    [|split; [reflexivity | intros l' [= <-] x Hx; exact Hx]].
  destruct (TShark.elem_at l root) as [a|] eqn:Ha;
    [|split; [reflexivity | discriminate]].
  destruct (TShark.elem_at l (TShark.__heap_iLeftChild root)) as [b|] eqn:Hb;
    [|split; [reflexivity | discriminate]].
  cbn [mbind option_bind].
  rewrite <- (Hag a b (elem_at_member _ _ _ Ha) (elem_at_member _ _ _ Hb)).
  set (swap1 := if f a b <? 0 then TShark.__heap_iLeftChild root else root).
  assert (Hchoice :
    (if TShark.__heap_iLeftChild root + 1 <=? end_
     then a0 ← TShark.elem_at l swap1;
          b0 ← TShark.elem_at l (TShark.__heap_iLeftChild root + 1);
          Some (if f a0 b0 <? 0
                then TShark.__heap_iLeftChild root + 1 else swap1)
     else Some swap1)
    = (if TShark.__heap_iLeftChild root + 1 <=? end_
       then a0 ← TShark.elem_at l swap1;
            b0 ← TShark.elem_at l (TShark.__heap_iLeftChild root + 1);
            Some (if g a0 b0 <? 0
                  then TShark.__heap_iLeftChild root + 1 else swap1)
       else Some swap1)).
  { destruct (TShark.__heap_iLeftChild root + 1 <=? end_); [|reflexivity].
    destruct (TShark.elem_at l swap1) as [a0|] eqn:Ha0; [|reflexivity].
    destruct (TShark.elem_at l (TShark.__heap_iLeftChild root + 1))
      as [b0|] eqn:Hb0; [|reflexivity].
    cbn [mbind option_bind].
    rewrite (Hag a0 b0 (elem_at_member _ _ _ Ha0) (elem_at_member _ _ _ Hb0)).
    reflexivity. }
  rewrite <- Hchoice.
  destruct (if TShark.__heap_iLeftChild root + 1 <=? end_ then _ else _)
    as [swap|]; [|split; [reflexivity | discriminate]].
  cbn [mbind option_bind].
  destruct (swap =? root);
    [split; [reflexivity | intros l' [= <-] x Hx; exact Hx]|].
  destruct (TShark.swap_at l root swap) as [l2|] eqn:Hsw;
    [|split; [reflexivity | discriminate]].
  cbn [mbind option_bind].
  pose proof (swap_at_members _ _ _ _ Hsw) as Hsub.
  destruct (IH l2 swap end_) as [Heq Hmem].
  { intros x y Hx Hy. apply Hag; apply Hsub; assumption. }
  split; [exact Heq|].
  intros l' Hrun x Hx. apply Hsub. eapply Hmem; eassumption.
Qed.

Lemma heapify_loop_agree n :
  forall (l : list T) count,
    TSharkMore.agree_on f g l ->
    TShark.heapify_loop f n l count = TShark.heapify_loop g n l count /\
    forall l', TShark.heapify_loop f n l count = Some l' ->
               forall x, x ∈ l' -> x ∈ l.
Proof.
  induction n as [|n IH]; intros l count Hag;
    [split; [reflexivity | intros l' [= <-] x Hx; exact Hx]|].
  cbn [TShark.heapify_loop]. unfold TShark.__heap_siftdown.
  destruct (siftdown_loop_agree (S (Z.to_nat (count - 1 - Z.of_nat n)))
              l (Z.of_nat n) (count - 1) Hag) as [Heq Hmem].
  rewrite <- Heq.
  destruct (TShark.siftdown_loop f _ l (Z.of_nat n) (count - 1))
    as [l1|]; [|split; [reflexivity | discriminate]].
  cbn [mbind option_bind].
  destruct (IH l1 count) as [Heq1 Hmem1].
  { intros x y Hx Hy. apply Hag; eapply Hmem; (reflexivity || assumption). }
  split; [exact Heq1|].
  intros l' Hrun x Hx.
  eapply Hmem; [reflexivity|]. eapply Hmem1; eassumption.
Qed.

Lemma sort_loop_agree n :
  forall (l : list T),
    TSharkMore.agree_on f g l ->
    TShark.sort_loop f n l = TShark.sort_loop g n l.
Proof.
  induction n as [|n IH]; intros l Hag; [reflexivity|].
  cbn [TShark.sort_loop].
  destruct (TShark.swap_at l 0 (Z.of_nat (S n))) as [l1|] eqn:Hsw;
    [|reflexivity].
  cbn [mbind option_bind].
  pose proof (swap_at_members _ _ _ _ Hsw) as Hsub.
  unfold TShark.__heap_siftdown.
  destruct (siftdown_loop_agree (S (Z.to_nat (Z.of_nat n - 0)))
              l1 0 (Z.of_nat n)) as [Heq Hmem].
  { intros x y Hx Hy. apply Hag; apply Hsub; assumption. }
  rewrite <- Heq.
  destruct (TShark.siftdown_loop f _ l1 0 (Z.of_nat n)) as [l2|];
    [|reflexivity].
  cbn [mbind option_bind]. apply IH.
  intros x y Hx Hy.
  apply Hag; apply Hsub; eapply Hmem; (reflexivity || assumption).
Qed.

Lemma heapsort_agree (l : list T) :
  TSharkMore.agree_on f g l -> TShark.heapsort f l = TShark.heapsort g l.
Proof.
  intros Hag. unfold TShark.heapsort.
  destruct (Z.of_nat (length l) <? 2); [reflexivity|].
  unfold TShark.__heap_heapify.
  destruct (heapify_loop_agree
              (Z.to_nat (TShark.__heap_iParent (Z.of_nat (length l) - 1) + 1))
              l (Z.of_nat (length l)) Hag) as [Heq Hmem].
  rewrite <- Heq.
  destruct (TShark.heapify_loop f _ l (Z.of_nat (length l))) as [l1|];
    [|reflexivity].
  cbn [mbind option_bind]. apply sort_loop_agree.
  intros x y Hx Hy. apply Hag; eapply Hmem; (reflexivity || assumption).
Qed.

End HeapsortComparator.

(** X5: [heapsort] applies the comparator to elements of the container
    only: with two comparators that agree on the elements of the
    container it does the same, whatever they are elsewhere. *)
Theorem heapsort_compares_members (T : Type) (f g : T -> T -> Z)
  (l : list T) :
  TSharkMore.agree_on f g l -> TShark.heapsort f l = TShark.heapsort g l.
Proof. apply heapsort_agree. Qed.

Lemma heapsort_compares_members_witness :
  TSharkMore.agree_on Z.sub
    (fun a b => if (a <? 10) && (b <? 10) then a - b else 0) [5; 3; 9; 1] /\
  TShark.heapsort (fun a b => if (a <? 10) && (b <? 10) then a - b else 0)
    [5; 3; 9; 1] = Some [1; 3; 5; 9].
Proof.
  assert (Hag : TSharkMore.agree_on Z.sub
            (fun a b => if (a <? 10) && (b <? 10) then a - b else 0)
            [5; 3; 9; 1]).
  { intros a b Ha Hb. rewrite !elem_of_cons in Ha, Hb.
    destruct Ha as [-> | [-> | [-> | [-> | Ha]]]];
      [| | | |apply elem_of_nil in Ha; contradiction];
      (destruct Hb as [-> | [-> | [-> | [-> | Hb]]]];
       [reflexivity ..|apply elem_of_nil in Hb; contradiction]). }
  split; [exact Hag|].
  rewrite <- (heapsort_compares_members Z _ _ _ Hag).
  vm_compute. reflexivity.
Defined.

(** ** The order of the rows of [StatsLimitedModel] *)

Lemma code_inj x y : code x = code y -> x = y.
Proof.
  unfold code. intros H. apply Nat2Z.inj in H.
  rewrite <- (ascii_nat_embedding x), <- (ascii_nat_embedding y), H.
  reflexivity.
Qed.

Lemma QString_compare_eq a :
  forall b, StatsLimitedModel.QString_compare a b = 0 -> a = b.
Proof.
  induction a as [|x a IH]; intros [|y b] H; simpl in H;
    try reflexivity; try discriminate.
  destruct (Z.eqb_spec (code x) (code y)) as [Hxy | Hxy]; [|lia].
  apply code_inj in Hxy. subst y. f_equal. apply IH. exact H.
Qed.

Lemma QString_compare_refl a : StatsLimitedModel.QString_compare a a = 0.
Proof.
  induction a as [|x a IH]; simpl; [reflexivity|].
  rewrite Z.eqb_refl. exact IH.
Qed.

Lemma QString_compare_flip a :
  forall b, StatsLimitedModel.QString_compare a b < 0 ->
            0 < StatsLimitedModel.QString_compare b a.
Proof.
  induction a as [|x a IH]; intros [|y b] H; simpl in H |- *; try lia.
  destruct (Z.eqb_spec (code x) (code y)) as [Hxy | Hxy].
  - rewrite Hxy, Z.eqb_refl. apply IH. exact H.
  - destruct (Z.eqb_spec (code y) (code x)); lia.
Qed.

Lemma QString_compare_trans a :
  forall b c,
    0 < StatsLimitedModel.QString_compare a b ->
    0 < StatsLimitedModel.QString_compare b c ->
    0 < StatsLimitedModel.QString_compare a c.
Proof.
  induction a as [|x a IH]; intros [|y b] [|z c] Hab Hbc;
    simpl in Hab, Hbc |- *; try lia.
  destruct (Z.eqb_spec (code x) (code y)) as [Hxy | Hxy];
    destruct (Z.eqb_spec (code y) (code z)) as [Hyz | Hyz];
    destruct (Z.eqb_spec (code x) (code z)) as [Hxz | Hxz]; try lia.
  eapply IH; eassumption.
Qed.

Lemma task_compare_long_preorder :
  TShark.cmp_total_preorder StatsMore.task_compare_long.
Proof.
  unfold TShark.cmp_total_preorder, TShark.cmp_ge,
    StatsMore.task_compare_long.
  split.
  - intros a b c Hab Hbc.
    destruct (Z.ltb_spec (StatsLimitedModel.cursorTime a)
                (StatsLimitedModel.cursorTime b)) as [Htab | Htab];
    destruct (Z.ltb_spec (StatsLimitedModel.cursorTime b)
                (StatsLimitedModel.cursorTime c)) as [Htbc | Htbc];
    destruct (Z.ltb_spec (StatsLimitedModel.cursorTime a)
                (StatsLimitedModel.cursorTime c)) as [Htac | Htac];
    try lia;
    repeat match goal with
    | H : context [?x >? ?y] |- _ => destruct (Z.gtb_spec x y)
    | |- context [?x >? ?y] => destruct (Z.gtb_spec x y)
    end; try lia.
    destruct (Z.eqb_spec (StatsLimitedModel.QString_compare
        (StatsLimitedModel.displayName a) (StatsLimitedModel.displayName b)) 0)
      as [Hqab | Hqab];
    destruct (Z.eqb_spec (StatsLimitedModel.QString_compare
        (StatsLimitedModel.displayName b) (StatsLimitedModel.displayName c)) 0)
      as [Hqbc | Hqbc]; simpl negb in *; cbv iota in *.
    + apply QString_compare_eq in Hqab, Hqbc.
      rewrite Hqab, Hqbc, QString_compare_refl. simpl. lia.
    + apply QString_compare_eq in Hqab. rewrite Hqab.
      destruct (Z.eqb_spec (StatsLimitedModel.QString_compare
        (StatsLimitedModel.displayName b) (StatsLimitedModel.displayName c)) 0);
        [contradiction|]. simpl. exact Hbc.
    + apply QString_compare_eq in Hqbc. rewrite <- Hqbc.
      destruct (Z.eqb_spec (StatsLimitedModel.QString_compare
        (StatsLimitedModel.displayName a) (StatsLimitedModel.displayName b)) 0);
        [contradiction|]. simpl. exact Hab.
    + assert (Hab' : 0 < StatsLimitedModel.QString_compare
                (StatsLimitedModel.displayName a)
                (StatsLimitedModel.displayName b)) by lia.
      assert (Hbc' : 0 < StatsLimitedModel.QString_compare
                (StatsLimitedModel.displayName b)
                (StatsLimitedModel.displayName c)) by lia.
      pose proof (QString_compare_trans _ _ _ Hab' Hbc') as Hac.
      destruct (Z.eqb_spec (StatsLimitedModel.QString_compare
        (StatsLimitedModel.displayName a) (StatsLimitedModel.displayName c)) 0);
        simpl; lia.
  - intros a b Hab.
    destruct (Z.ltb_spec (StatsLimitedModel.cursorTime a)
                (StatsLimitedModel.cursorTime b)) as [Htab | Htab]; [lia|].
    destruct (Z.gtb_spec (StatsLimitedModel.cursorTime a)
                (StatsLimitedModel.cursorTime b)) as [Htab' | Htab'].
    + destruct (Z.ltb_spec (StatsLimitedModel.cursorTime b)
                  (StatsLimitedModel.cursorTime a)); lia.
    + destruct (Z.ltb_spec (StatsLimitedModel.cursorTime b)
                  (StatsLimitedModel.cursorTime a)); [lia|].
      destruct (Z.gtb_spec (StatsLimitedModel.cursorTime b)
                  (StatsLimitedModel.cursorTime a)); [lia|].
      destruct (Z.eqb_spec (StatsLimitedModel.QString_compare
        (StatsLimitedModel.displayName a) (StatsLimitedModel.displayName b)) 0)
        as [Hq | Hq]; simpl negb in *; cbv iota in *.
      * apply QString_compare_eq in Hq. rewrite Hq, QString_compare_refl.
        simpl. lia.
      * apply QString_compare_flip in Hab.
        destruct (Z.eqb_spec (StatsLimitedModel.QString_compare
          (StatsLimitedModel.displayName b) (StatsLimitedModel.displayName a)) 0);
          simpl; lia.
Qed.

Lemma task_compare_long_agrees (rows : list StatsLimitedModel.Task) :
  Forall StatsMore.pid_fits rows ->
  TSharkMore.agree_on StatsLimitedModel.task_compare
    StatsMore.task_compare_long rows.
Proof.
  intros Hfit a b Ha Hb. rewrite Forall_forall in Hfit.
  pose proof (Hfit a Ha) as Hpa. pose proof (Hfit b Hb) as Hpb.
  unfold StatsMore.pid_fits in Hpa, Hpb.
  unfold StatsLimitedModel.task_compare, StatsMore.task_compare_long.
  destruct (_ <? _); [reflexivity|]. destruct (_ >? _); [reflexivity|].
  destruct (negb _); [reflexivity|].
  unfold Mach.s32, Mach.u32.
  destruct (Z.le_gt_cases 0 (StatsLimitedModel.pid a - StatsLimitedModel.pid b)).
  - rewrite Z.mod_small by lia.
    destruct (Z.ltb_spec (StatsLimitedModel.pid a - StatsLimitedModel.pid b)
                (2 ^ 31)); lia.
  - replace ((StatsLimitedModel.pid a - StatsLimitedModel.pid b) mod 2 ^ 32)
      with (StatsLimitedModel.pid a - StatsLimitedModel.pid b + 2 ^ 32).
    + destruct (Z.ltb_spec (StatsLimitedModel.pid a - StatsLimitedModel.pid b
                            + 2 ^ 32) (2 ^ 31)); lia.
    + apply (Z.mod_unique_pos _ _ (-1)); lia.
Qed.

(** X6: after [setTaskMap] with a map whose PIDs (and the idle task's)
    lie between [-2^30] and [2^30], the rows are in the order of the
    comparator: a later row has no longer cursor time than an earlier
    one; among rows of one cursor time the names ascend, and among rows
    of one cursor time and name the PIDs ascend. *)
Theorem setTaskMap_orders_rows
  (cursor_pct_of : StatsLimitedModel.Time -> StatsLimitedModel.Time -> Z)
  (lowerTimeLimit higherTimeLimit : StatsLimitedModel.Time)
  (m : StatsLimitedModel.Model) (tree : StatsLimitedModel.TaskMap)
  (nrcpus : Z) :
  Z.of_nat (length tree) + 1 < 2 ^ 31 ->
  StatsMore.pid_fits (StatsLimitedModel.idleTask m) ->
  Forall (fun e => StatsMore.pid_fits (StatsLimitedModel.task e.2)) tree ->
  exists m',
    StatsLimitedModel.setTaskMap cursor_pct_of lowerTimeLimit
      higherTimeLimit m (Some tree) nrcpus = Some m' /\
    forall (i j : nat) (a b : StatsLimitedModel.Task),
      (i <= j)%nat ->
      StatsLimitedModel.taskList m' !! i = Some a ->
      StatsLimitedModel.taskList m' !! j = Some b ->
      StatsLimitedModel.cursorTime b <= StatsLimitedModel.cursorTime a /\
      (StatsLimitedModel.cursorTime b = StatsLimitedModel.cursorTime a ->
       0 <= StatsLimitedModel.QString_compare
              (StatsLimitedModel.displayName b)
              (StatsLimitedModel.displayName a)) /\
      (StatsLimitedModel.cursorTime b = StatsLimitedModel.cursorTime a ->
       StatsLimitedModel.displayName b = StatsLimitedModel.displayName a ->
       StatsLimitedModel.pid a <= StatsLimitedModel.pid b).
Proof.
  intros Hsize Hidle Htree. unfold StatsLimitedModel.setTaskMap.
  rewrite collect_spec. cbn [app].
  set (idle := StatsLimitedModel.set_cursorPct _ _).
  set (rows := StatsLimitedModel.active_tasks tree ++ [idle]).
  pose proof (active_tasks_length tree) as Hact.
  assert (Hfit : Forall StatsMore.pid_fits rows).
  { apply Forall_app. split.
    - unfold StatsLimitedModel.active_tasks.
      apply Forall_forall. intros t Ht.
      apply list_elem_of_filter in Ht as [_ Ht].
      apply list_elem_of_fmap in Ht as (e & -> & He).
      rewrite Forall_forall in Htree. apply Htree. exact He.
    - constructor; [exact Hidle | constructor]. }
  unfold StatsLimitedModel.vtl_heapsort.
  rewrite (heapsort_agree _ _ rows (task_compare_long_agrees rows Hfit)).
  destruct (heapsort_ok StatsMore.task_compare_long rows)
    as (l' & Hrun & _ & Hsorted).
  { unfold rows. rewrite length_app. simpl. lia. }
  rewrite Hrun. cbn [mbind option_bind].
  eexists. split; [reflexivity|]. cbn [StatsLimitedModel.taskList].
  intros i j a b Hij Ha Hb.
  pose proof (Hsorted task_compare_long_preorder i j a b Hij Ha Hb) as Hge.
  unfold TShark.cmp_ge, StatsMore.task_compare_long in Hge.
  destruct (Z.ltb_spec (StatsLimitedModel.cursorTime b)
              (StatsLimitedModel.cursorTime a)) as [Hlt | Hnlt].
  - split; [lia|]. split; intros; lia.
  - destruct (Z.gtb_spec (StatsLimitedModel.cursorTime b)
                (StatsLimitedModel.cursorTime a)) as [Hgt | Hngt]; [lia|].
    split; [lia|].
    destruct (Z.eqb_spec (StatsLimitedModel.QString_compare
                (StatsLimitedModel.displayName b)
                (StatsLimitedModel.displayName a)) 0) as [Hq | Hq];
      simpl negb in Hge; cbv iota in Hge.
    + split; [intros; lia | intros; lia].
    + split; [intros; lia|]. intros _ Hname.
      rewrite Hname, QString_compare_refl in Hq. contradiction.
Qed.

Lemma setTaskMap_orders_rows_witness :
  exists m',
    StatsLimitedModel.setTaskMap (fun _ _ => 0) 100 200
      ScenariosSort.model0 (Some ScenariosSort.map3) 2 = Some m' /\
    forall a b,
      StatsLimitedModel.taskList m' !! 0%nat = Some a ->
      StatsLimitedModel.taskList m' !! 2%nat = Some b ->
      StatsLimitedModel.cursorTime b <= StatsLimitedModel.cursorTime a.
Proof.
  destruct (setTaskMap_orders_rows (fun _ _ => 0) 100 200
              ScenariosSort.model0 ScenariosSort.map3 2)
    as (m' & Hrun & Hord).
  - vm_compute. reflexivity.
  - unfold StatsMore.pid_fits. simpl. lia.
  - repeat constructor; unfold StatsMore.pid_fits; simpl; lia.
  - exists m'. split; [exact Hrun|].
    intros a b Ha Hb. apply (Hord 0%nat 2%nat a b); (lia || assumption).
Defined.

(** ** The cursor time of the rows *)

Lemma sum_cursorTime_app l1 l2 :
  StatsMore.sum_cursorTime (l1 ++ l2)
  = StatsMore.sum_cursorTime l1 + StatsMore.sum_cursorTime l2.
Proof.
  unfold StatsMore.sum_cursorTime.
  induction l1 as [|t l1 IH]; simpl; [reflexivity|]. rewrite IH. lia.
Qed.

Lemma sum_cursorTime_perm l1 l2 :
  l1 ≡ₚ l2 -> StatsMore.sum_cursorTime l1 = StatsMore.sum_cursorTime l2.
Proof.
  unfold StatsMore.sum_cursorTime.
  induction 1; simpl; lia.
Qed.

Lemma sum_active_tasks tree :
  StatsMore.sum_cursorTime (StatsLimitedModel.active_tasks tree)
  = StatsLimitedModel.total_cursorTime tree.
Proof.
  unfold StatsLimitedModel.active_tasks, StatsLimitedModel.total_cursorTime,
    StatsMore.sum_cursorTime.
  induction tree as [|[key handle] tree IH]; [reflexivity|].
  cbn [map foldr snd]. rewrite filter_cons.
  destruct (decide _) as [Hnz | Hz]; cbn [foldr]; rewrite IH; [reflexivity|].
  assert (StatsLimitedModel.cursorTime (StatsLimitedModel.task handle) = 0)
    as -> by (destruct (Z.eq_dec (StatsLimitedModel.cursorTime
                 (StatsLimitedModel.task handle)) 0); [assumption|contradiction]).
  reflexivity.
Qed.

(** X7: after [setTaskMap] the cursor times of all rows, the idle row
    included, add up to [nrcpus] times the length of the cursor window:
    the table accounts for every CPU over the whole window. *)
Theorem setTaskMap_rows_add_up
  (cursor_pct_of : StatsLimitedModel.Time -> StatsLimitedModel.Time -> Z)
  (lowerTimeLimit higherTimeLimit : StatsLimitedModel.Time)
  (m : StatsLimitedModel.Model) (tree : StatsLimitedModel.TaskMap)
  (nrcpus : Z) :
  Z.of_nat (length tree) + 1 < 2 ^ 31 ->
  exists m',
    StatsLimitedModel.setTaskMap cursor_pct_of lowerTimeLimit
      higherTimeLimit m (Some tree) nrcpus = Some m' /\
    StatsMore.sum_cursorTime (StatsLimitedModel.taskList m')
      = nrcpus * (higherTimeLimit - lowerTimeLimit).
Proof.
  intros Hsize. unfold StatsLimitedModel.setTaskMap.
  rewrite collect_spec. cbn [app].
  set (idle := StatsLimitedModel.set_cursorPct _ _).
  pose proof (active_tasks_length tree) as Hact.
  unfold StatsLimitedModel.vtl_heapsort.
  destruct (heapsort_ok StatsLimitedModel.task_compare
              (StatsLimitedModel.active_tasks tree ++ [idle]))
    as (l' & Hrun & Hperm & _).
  { rewrite length_app. simpl. lia. }
  rewrite Hrun. cbn [mbind option_bind].
  eexists. split; [reflexivity|]. cbn [StatsLimitedModel.taskList].
  rewrite <- (sum_cursorTime_perm _ _ Hperm), sum_cursorTime_app,
    sum_active_tasks.
  unfold StatsMore.sum_cursorTime, idle. simpl. lia.
Qed.

Lemma setTaskMap_rows_add_up_witness :
  Z.of_nat (length ScenariosSort.map3) + 1 < 2 ^ 31 /\
  exists m',
    StatsLimitedModel.setTaskMap (fun _ _ => 0) 100 200
      ScenariosSort.model0 (Some ScenariosSort.map3) 2 = Some m' /\
    StatsMore.sum_cursorTime (StatsLimitedModel.taskList m') = 2 * (200 - 100).
Proof.
  assert (Hsize : Z.of_nat (length ScenariosSort.map3) + 1 < 2 ^ 31)
    by (vm_compute; reflexivity).
  split; [exact Hsize|].
  exact (setTaskMap_rows_add_up (fun _ _ => 0) 100 200
           ScenariosSort.model0 ScenariosSort.map3 2 Hsize).
Defined.

(** ** The cells of [StatsLimitedModel] *)

Lemma code_chr_of p :
  0 <= p <= 9 -> code (StatsLimitedModel.chr_of (48 + p)) = 48 + p.
Proof.
  intros Hp. unfold StatsLimitedModel.chr_of, code, Mach.u8.
  rewrite Z.mod_small by lia.
  rewrite nat_ascii_embedding by lia. lia.
Qed.

Lemma pct_digit_chr_of p :
  0 <= p <= 9 -> StatsMore.pct_digit (StatsLimitedModel.chr_of (48 + p)) = p.
Proof.
  intros Hp. unfold StatsMore.pct_digit.
  destruct (Ascii.eqb_spec (StatsLimitedModel.chr_of (48 + p)) chr_space)
    as [Heq | _].
  - apply (f_equal code) in Heq. rewrite code_chr_of in Heq by exact Hp.
    change (code chr_space) with 32 in Heq. lia.
  - rewrite code_chr_of by exact Hp. lia.
Qed.

Lemma row_in_range (m : StatsLimitedModel.Model) row t :
  0 <= row -> StatsLimitedModel.taskList m !! Z.to_nat row = Some t ->
  (row <? 0) = false /\ (StatsLimitedModel.rowCount m <=? row) = false.
Proof.
  intros Hrow Ht. apply lookup_lt_Some in Ht.
  unfold StatsLimitedModel.rowCount. split.
  - apply Z.ltb_ge. exact Hrow.
  - apply Z.leb_gt. lia.
Qed.

(** The six characters of [rowToPct] and the number they stand for. *)
Lemma rowToPct_string (m : StatsLimitedModel.Model)
  (str : StatsLimitedModel.QString) (row : Z) (t : StatsLimitedModel.Task) :
  0 <= row ->
  StatsLimitedModel.taskList m !! Z.to_nat row = Some t ->
  0 <= StatsLimitedModel.cursorPct t ->
  (StatsLimitedModel.cursorPct t < 100000 ->
   exists s,
     StatsLimitedModel.rowToPct m str row = Some (s, true) /\
     StatsMore.pct_of_string s = Some (StatsLimitedModel.cursorPct t) /\
     (StatsLimitedModel.cursorPct t < 10000 -> s !! 0%nat = Some chr_space) /\
     (StatsLimitedModel.cursorPct t < 1000 -> s !! 1%nat = Some "0"%char)) /\
  (100000 <= StatsLimitedModel.cursorPct t ->
   StatsLimitedModel.rowToPct m str row = Some (str, false)).
Proof.
  intros Hrow Ht Hpct.
  destruct (row_in_range m row t Hrow Ht) as [Hneg Hcount].
  unfold StatsLimitedModel.rowToPct. rewrite Hneg, Hcount, Ht.
  cbn [mbind option_bind].
  set (pct := StatsLimitedModel.cursorPct t) in *.
  split.
  - intros Hsmall.
    destruct (Z.leb_spec 1000 (pct / 100)) as [Hbig | _].
    { exfalso. clear - Hbig Hsmall. Z.div_mod_to_equations. lia. }
    assert (H0 : 0 <= pct / 100 / 100 <= 9)
      by (clear - Hpct Hsmall; Z.div_mod_to_equations; lia).
    assert (H1 : 0 <= (pct / 100) mod 100 / 10 <= 9)
      by (clear; Z.div_mod_to_equations; lia).
    assert (H2 : 0 <= (pct / 100) mod 10 <= 9)
      by (clear; Z.div_mod_to_equations; lia).
    assert (H4 : 0 <= pct mod 100 / 10 <= 9)
      by (clear; Z.div_mod_to_equations; lia).
    assert (H5 : 0 <= (pct mod 100) mod 10 <= 9)
      by (clear; Z.div_mod_to_equations; lia).
    assert (Hvalue : 10000 * (pct / 100 / 100) + 1000 * ((pct / 100) mod 100 / 10)
                     + 100 * ((pct / 100) mod 10) + 10 * (pct mod 100 / 10)
                     + (pct mod 100) mod 10 = pct).
    { clear. Z.div_mod_to_equations. lia. }
    set (buf0 := if pct / 100 / 100 =? 0 then chr_space
                 else StatsLimitedModel.chr_of (48 + pct / 100 / 100)).
    assert (Hbuf0 : StatsMore.pct_digit buf0 = pct / 100 / 100).
    { unfold buf0. destruct (Z.eqb_spec (pct / 100 / 100) 0) as [-> | _];
        [reflexivity | apply pct_digit_chr_of; exact H0]. }
    assert (Hcode0 : (code buf0 =? 0) = false).
    { apply Z.eqb_neq. unfold buf0.
      destruct (pct / 100 / 100 =? 0); [vm_compute; discriminate|].
      rewrite code_chr_of by exact H0. lia. }
    rewrite Hcode0. cbn [andb].
    eexists. split; [reflexivity|]. split; [|split].
    + unfold StatsMore.pct_of_string.
      change (Ascii.eqb chr_dot chr_dot) with true. cbv iota.
      rewrite Hbuf0, !pct_digit_chr_of by assumption.
      rewrite Hvalue. reflexivity.
    + intros H10000. cbn [lookup list_lookup]. unfold buf0.
      assert (pct / 100 / 100 = 0) as ->; [|reflexivity].
      clear - Hpct H10000. Z.div_mod_to_equations. lia.
    + intros H1000. cbn [lookup list_lookup].
      assert ((pct / 100) mod 100 / 10 = 0) as ->; [|reflexivity].
      clear - Hpct H1000. Z.div_mod_to_equations. lia.
  - intros Hbig.
    destruct (Z.leb_spec 1000 (pct / 100)) as [_ | Hlt]; [reflexivity|].
    exfalso. clear - Hbig Hlt. Z.div_mod_to_equations. lia.
Qed.

(** X8: for a row in the list [rowToPct] writes the percentage as six
    characters [HTU.dd] that read back as the [cursorPct] of the task
    (hundredths of a percent) whenever that is below 100000; the
    hundreds are blank under 100 percent, the tens are always a digit,
    so under 10 percent the string starts with a blank and a zero.  From
    100000 on it clears [ok] and leaves the string as it was. *)
Theorem rowToPct_reads_back (m : StatsLimitedModel.Model)
  (str : StatsLimitedModel.QString) (row : Z) (t : StatsLimitedModel.Task) :
  0 <= row ->
  StatsLimitedModel.taskList m !! Z.to_nat row = Some t ->
  0 <= StatsLimitedModel.cursorPct t ->
  (StatsLimitedModel.cursorPct t < 100000 ->
   exists s,
     StatsLimitedModel.rowToPct m str row = Some (s, true) /\
     StatsMore.pct_of_string s = Some (StatsLimitedModel.cursorPct t) /\
     (StatsLimitedModel.cursorPct t < 10000 -> s !! 0%nat = Some chr_space) /\
     (StatsLimitedModel.cursorPct t < 1000 -> s !! 1%nat = Some "0"%char)) /\
  (100000 <= StatsLimitedModel.cursorPct t ->
   StatsLimitedModel.rowToPct m str row = Some (str, false)).
Proof. exact (rowToPct_string m str row t). Qed.

Lemma rowToPct_reads_back_witness :
  let t := StatsLimitedModel.mkTask 1 (tok "init") 30 512 in
  let m := StatsLimitedModel.mkModel [t] (tok "Error in taskmodel.cpp")
             (StatsLimitedModel.mkTask 0 (tok "swapper") 0 0) in
  StatsLimitedModel.taskList m !! Z.to_nat 0 = Some t /\
  exists s,
    StatsLimitedModel.rowToPct m [] 0 = Some (s, true) /\
    StatsMore.pct_of_string s = Some 512 /\
    s !! 1%nat = Some "0"%char.
Proof.
  intros t m.
  assert (Ht : StatsLimitedModel.taskList m !! Z.to_nat 0 = Some t)
    by reflexivity.
  split; [exact Ht|].
  destruct (rowToPct_reads_back m [] 0 t) as [Hsmall _];
    [lia | exact Ht | simpl; lia |].
  destruct Hsmall as (s & Hrun & Hback & _ & Hzero); [simpl; lia|].
  exists s. split; [exact Hrun|]. split; [exact Hback|].
  apply Hzero. simpl. lia.
Defined.

(** X9: for a valid index whose row is in the list, [data] in the display
    role returns the task's name in column 0, its PID as a decimal
    number in column 1 and its cursor time in column 3; in column 2 it
    returns a percentage string that reads back as the task's
    [cursorPct] when that is below 100000 and an empty [QVariant]
    otherwise; in every other column it returns an empty [QVariant]. *)
Theorem data_shows_row
  (Time_toQString : StatsLimitedModel.Time -> StatsLimitedModel.QString)
  (m : StatsLimitedModel.Model) (index : StatsLimitedModel.QModelIndex)
  (t : StatsLimitedModel.Task) :
  StatsLimitedModel.isValid index = true ->
  StatsLimitedModel.taskList m
    !! Z.to_nat (StatsLimitedModel.index_row index) = Some t ->
  0 <= StatsLimitedModel.cursorPct t ->
  let cell := StatsLimitedModel.data Time_toQString m index
                StatsLimitedModel.Qt_DisplayRole in
  let column := StatsLimitedModel.index_column index in
  (column = 0 ->
   cell = Some (StatsLimitedModel.QVariant_string
                  (StatsLimitedModel.displayName t))) /\
  (column = 1 ->
   cell = Some (StatsLimitedModel.QVariant_string
                  (StatsLimitedModel.QString_number
                     (StatsLimitedModel.pid t)))) /\
  (column = 2 -> StatsLimitedModel.cursorPct t < 100000 ->
   exists s, cell = Some (StatsLimitedModel.QVariant_string s) /\
             StatsMore.pct_of_string s
               = Some (StatsLimitedModel.cursorPct t)) /\
  (column = 2 -> 100000 <= StatsLimitedModel.cursorPct t ->
   cell = Some StatsLimitedModel.QVariant_invalid) /\
  (column = 3 ->
   cell = Some (StatsLimitedModel.QVariant_string
                  (Time_toQString (StatsLimitedModel.cursorTime t)))) /\
  (column < 0 \/ 3 < column ->
   cell = Some StatsLimitedModel.QVariant_invalid).
Proof.
  intros Hvalid Ht Hpct cell column.
  assert (Hrow : 0 <= StatsLimitedModel.index_row index).
  { unfold StatsLimitedModel.isValid in Hvalid.
    apply andb_true_iff in Hvalid as [Hvalid _].
    apply andb_true_iff in Hvalid as [Hvalid _].
    apply Z.leb_le. exact Hvalid. }
  destruct (row_in_range m _ t Hrow Ht) as [Hneg Hcount].
  assert (Hcell : cell =
    if column =? 0 then
      Some (StatsLimitedModel.QVariant_string (StatsLimitedModel.displayName t))
    else if column =? 1 then
      Some (StatsLimitedModel.QVariant_string
              (StatsLimitedModel.QString_number (StatsLimitedModel.pid t)))
    else if column =? 2 then
      '(str, ok) ← StatsLimitedModel.rowToPct m []
                     (StatsLimitedModel.index_row index);
      Some (if ok : bool then StatsLimitedModel.QVariant_string str
            else StatsLimitedModel.QVariant_invalid)
    else if column =? 3 then
      Some (StatsLimitedModel.QVariant_string
              (Time_toQString (StatsLimitedModel.cursorTime t)))
    else Some StatsLimitedModel.QVariant_invalid).
  { unfold cell, StatsLimitedModel.data. rewrite Hvalid. simpl negb.
    cbv iota.
    change (StatsLimitedModel.Qt_DisplayRole
            =? StatsLimitedModel.Qt_TextAlignmentRole) with false.
    rewrite Z.eqb_refl. cbv iota. fold column.
    unfold StatsLimitedModel.rowToName, StatsLimitedModel.rowToPid,
      StatsLimitedModel.rowToTime.
    rewrite Hneg, Hcount, Ht. cbn [mbind option_bind]. reflexivity. }
  rewrite Hcell.
  destruct (rowToPct_string m [] _ t Hrow Ht Hpct) as [Hsmall Hbig].
  split; [intros ->; reflexivity|].
  split; [intros ->; reflexivity|].
  split; [|split; [|split]].
  - intros -> Hlt. destruct (Hsmall Hlt) as (s & Hrun & Hback & _).
    exists s. rewrite Hrun. split; [reflexivity | exact Hback].
  - intros -> Hge. rewrite (Hbig Hge). reflexivity.
  - intros ->. reflexivity.
  - intros Hout.
    destruct (Z.eqb_spec column 0); [lia|].
    destruct (Z.eqb_spec column 1); [lia|].
    destruct (Z.eqb_spec column 2); [lia|].
    destruct (Z.eqb_spec column 3); [lia|]. reflexivity.
Qed.

Lemma data_shows_row_witness :
  let t := StatsLimitedModel.mkTask 42 (tok "bash") 30 512 in
  let m := StatsLimitedModel.mkModel [t] (tok "Error in taskmodel.cpp")
             (StatsLimitedModel.mkTask 0 (tok "swapper") 0 0) in
  StatsLimitedModel.isValid (StatsLimitedModel.mkIndex 0 1 true) = true /\
  StatsLimitedModel.data (fun _ => []) m (StatsLimitedModel.mkIndex 0 1 true)
    StatsLimitedModel.Qt_DisplayRole
  = Some (StatsLimitedModel.QVariant_string (tok "42")).
Proof.
  intros t m. split; [reflexivity|].
  destruct (data_shows_row (fun _ => []) m
              (StatsLimitedModel.mkIndex 0 1 true) t)
    as (_ & Hpid & _); [reflexivity | reflexivity | simpl; lia |].
  rewrite (Hpid eq_refl). vm_compute. reflexivity.
Defined.

(** X10: the columns of [data] and of [headerData] are those of
    [columnCount]: [data] returns a value in the display role only for a
    column from 0 below [columnCount], and [headerData] has a header of
    its own for exactly these sections, the error string for every
    other section, and nothing for another role or orientation. *)
Theorem columns_agree
  (Time_toQString : StatsLimitedModel.Time -> StatsLimitedModel.QString)
  (m : StatsLimitedModel.Model) (index : StatsLimitedModel.QModelIndex)
  (section : Z) :
  (forall s,
     StatsLimitedModel.data Time_toQString m index
       StatsLimitedModel.Qt_DisplayRole
       = Some (StatsLimitedModel.QVariant_string s) ->
     0 <= StatsLimitedModel.index_column index < StatsHeader.columnCount m) /\
  (0 <= section < StatsHeader.columnCount m ->
   exists name,
     StatsHeader.header_names !! Z.to_nat section = Some name /\
     StatsHeader.headerData m section StatsHeader.Qt_Horizontal
       StatsLimitedModel.Qt_DisplayRole
     = StatsLimitedModel.QVariant_string name) /\
  (section < 0 \/ StatsHeader.columnCount m <= section ->
   StatsHeader.headerData m section StatsHeader.Qt_Horizontal
     StatsLimitedModel.Qt_DisplayRole
   = StatsLimitedModel.QVariant_string (StatsLimitedModel.errorStr m)) /\
  (forall role,
     StatsHeader.headerData m section StatsHeader.Qt_Vertical role
     = StatsLimitedModel.QVariant_invalid) /\
  (forall orientation role,
     role <> StatsLimitedModel.Qt_DisplayRole ->
     StatsHeader.headerData m section orientation role
     = StatsLimitedModel.QVariant_invalid).
Proof.
  unfold StatsHeader.columnCount. split; [|split; [|split; [|split]]].
  - intros s. unfold StatsLimitedModel.data.
    destruct (StatsLimitedModel.isValid index); [|discriminate].
    simpl negb. cbv iota.
    change (StatsLimitedModel.Qt_DisplayRole
            =? StatsLimitedModel.Qt_TextAlignmentRole) with false.
    rewrite Z.eqb_refl. cbv iota.
    destruct (Z.eqb_spec (StatsLimitedModel.index_column index) 0); [lia|].
    destruct (Z.eqb_spec (StatsLimitedModel.index_column index) 1); [lia|].
    destruct (Z.eqb_spec (StatsLimitedModel.index_column index) 2); [lia|].
    destruct (Z.eqb_spec (StatsLimitedModel.index_column index) 3); [lia|].
    discriminate.
  - intros Hsec.
    assert (section = 0 \/ section = 1 \/ section = 2 \/ section = 3)
      as [-> | [-> | [-> | ->]]] by lia;
      eexists; split; reflexivity.
  - intros Hout. unfold StatsHeader.headerData.
    rewrite Z.eqb_refl. cbn [andb].
    destruct (Z.eqb_spec section 0); [lia|].
    destruct (Z.eqb_spec section 1); [lia|].
    destruct (Z.eqb_spec section 2); [lia|].
    destruct (Z.eqb_spec section 3); [lia|]. reflexivity.
  - intros role. unfold StatsHeader.headerData.
    rewrite andb_false_r. reflexivity.
  - intros orientation role Hrole. unfold StatsHeader.headerData.
    destruct (Z.eqb_spec role StatsLimitedModel.Qt_DisplayRole);
      [contradiction | reflexivity].
Qed.

Lemma columns_agree_witness :
  let m := StatsLimitedModel.mkModel [] (tok "Error in taskmodel.cpp")
             (StatsLimitedModel.mkTask 0 (tok "swapper") 0 0) in
  0 <= 2 < StatsHeader.columnCount m /\
  StatsHeader.headerData m 2 StatsHeader.Qt_Horizontal
    StatsLimitedModel.Qt_DisplayRole
  = StatsLimitedModel.QVariant_string (tok "CPU(%)") /\
  StatsHeader.headerData m 4 StatsHeader.Qt_Horizontal
    StatsLimitedModel.Qt_DisplayRole
  = StatsLimitedModel.QVariant_string (tok "Error in taskmodel.cpp").
Proof.
  intros m.
  assert (H2 : 0 <= 2 < StatsHeader.columnCount m)
    by (unfold StatsHeader.columnCount; lia).
  split; [exact H2|].
  destruct (columns_agree (fun _ => []) m
              (StatsLimitedModel.mkIndex 0 0 true) 2)
    as (_ & Hin & _).
  destruct (Hin H2) as (name & Hname & Hhead).
  split.
  - rewrite Hhead. vm_compute in Hname. injection Hname as <-. reflexivity.
  - destruct (columns_agree (fun _ => []) m
                (StatsLimitedModel.mkIndex 0 0 true) 4)
      as (_ & _ & Hout & _).
    apply Hout. right. unfold StatsHeader.columnCount. lia.
Defined.

(** ** More on [TShark::timeStrToDouble] *)

Lemma int_loop_before_colon a :
  forall base r,
    TShark.int_loop (a ++ chr_colon :: r) base
    = ((TShark.int_loop a base).1,
       (TShark.int_loop a base).2 ++ chr_colon :: r).
Proof.
  induction a as [|ch a IH]; intros base r; [reflexivity|].
  simpl. destruct (is_digit ch); [apply IH | reflexivity].
Qed.

Lemma frac_loop_before_colon a :
  forall base divint r,
    TShark.frac_loop (a ++ chr_colon :: r) base divint
    = ((TShark.frac_loop a base divint).1,
       (TShark.frac_loop a base divint).2 ++ chr_colon :: r).
Proof.
  induction a as [|ch a IH]; intros base divint r; [reflexivity|].
  simpl. destruct (is_digit ch); [apply IH | reflexivity].
Qed.

Lemma time_body_before_colon a r isNeg :
  TShark.time_body (a ++ chr_colon :: r) isNeg
  = TShark.time_body (a ++ [chr_colon]) isNeg.
Proof.
  unfold TShark.time_body.
  rewrite !int_loop_before_colon.
  destruct (TShark.int_loop a 0) as [base c]. cbn [fst snd].
  destruct c as [|ch c]; [reflexivity|].
  cbn [app deref advance tl].
  destruct (Ascii.eqb ch chr_dot); [|reflexivity].
  rewrite !frac_loop_before_colon.
  destruct (TShark.frac_loop c 0 1) as [[base' divint] c2]. cbn [fst snd].
  destruct c2 as [|ch2 c2]; reflexivity.
Qed.

(** X11: [timeStrToDouble] does not look behind the first colon: the
    value and [ok] are the same whatever follows the colon, for every
    text before it. *)
Theorem timeStrToDouble_ignores_rest (a r1 r2 : list ascii) :
  TShark.timeStrToDouble (a ++ chr_colon :: r1)
  = TShark.timeStrToDouble (a ++ chr_colon :: r2).
Proof.
  rewrite !timeStrToDouble_body.
  destruct a as [|ch a].
  - cbn [app deref].
    change (Ascii.eqb chr_colon chr_minus) with false. cbv iota.
    rewrite (time_body_before_colon [] r1), (time_body_before_colon [] r2).
    reflexivity.
  - cbn [app deref advance tl].
    destruct (Ascii.eqb ch chr_minus).
    + rewrite (time_body_before_colon a r1), (time_body_before_colon a r2).
      reflexivity.
    + rewrite (time_body_before_colon (ch :: a) r1),
        (time_body_before_colon (ch :: a) r2).
      reflexivity.
Qed.

(** X12: a leading ['-'] negates: when the text [s] does not itself
    start with ['-'] and is read as [v], then ['-'] followed by [s] is
    read as [-v], and when [s] fails so does ['-'] followed by [s].  A
    second ['-'] and a ['+'] are not signs: such a text fails. *)
Theorem timeStrToDouble_sign (s : list ascii) :
  (Ascii.eqb (deref s) chr_minus = false ->
   TShark.timeStrToDouble (chr_minus :: s)
   = if (TShark.timeStrToDouble s).2
     then (PrimFloat.opp (TShark.timeStrToDouble s).1, true)
     else (0%float, false)) /\
  TShark.timeStrToDouble (chr_minus :: chr_minus :: s) = (0%float, false) /\
  TShark.timeStrToDouble ("+"%char :: s) = (0%float, false).
Proof.
  split; [|split; reflexivity].
  intros Hs. rewrite !timeStrToDouble_body. cbn [deref advance tl].
  change (Ascii.eqb chr_minus chr_minus) with true. cbv iota.
  rewrite Hs. unfold TShark.time_body.
  destruct (TShark.int_loop s 0) as [base c].
  destruct (Ascii.eqb (deref c) chr_dot).
  - destruct (TShark.frac_loop (advance c) 0 1) as [[base' divint] c'].
    destruct (Ascii.eqb (deref c') chr_colon); reflexivity.
  - destruct (Ascii.eqb (deref c) chr_colon); reflexivity.
Qed.

Lemma timeStrToDouble_sign_witness :
  Ascii.eqb (deref (tok "12.5:")) chr_minus = false /\
  TShark.timeStrToDouble (tok "-12.5:") = ((-12.5)%float, true) /\
  TShark.timeStrToDouble (tok "--12.5:") = (0%float, false).
Proof.
  assert (Hs : Ascii.eqb (deref (tok "12.5:")) chr_minus = false)
    by reflexivity.
  split; [exact Hs|]. split.
  - change (tok "-12.5:") with (chr_minus :: tok "12.5:").
    rewrite (proj1 (timeStrToDouble_sign (tok "12.5:")) Hs).
    vm_compute. reflexivity.
  - exact (proj1 (proj2 (timeStrToDouble_sign (tok "12.5:")))).
Defined.

(** X13: the digits are accumulated in 64 bits without a check: two
    integer parts whose values differ by a multiple of [2^64] are read
    as the same number, both with [ok] set; [18446744073709551616:]
    (that is [2^64]) is read as 0. *)
Theorem timeStrToDouble_wraps (ip1 ip2 rest : list ascii) :
  all_digits ip1 -> all_digits ip2 ->
  (TShark.decimal_value ip1 - TShark.decimal_value ip2) mod 2 ^ 64 = 0 ->
  TShark.timeStrToDouble (ip1 ++ chr_colon :: rest)
  = TShark.timeStrToDouble (ip2 ++ chr_colon :: rest) /\
  (TShark.timeStrToDouble (ip1 ++ chr_colon :: rest)).2 = true.
Proof.
  intros H1 H2 Hmod.
  assert (Hacc : forall ip, all_digits ip ->
            TShark.accepted_time (ip ++ chr_colon :: rest)
              (TShark.TimeParts false ip None rest)).
  { intros ip Hip. split; [reflexivity | split; [exact Hip | exact I]]. }
  rewrite (timeStrToDouble_sound _ _ (Hacc ip1 H1)),
    (timeStrToDouble_sound _ _ (Hacc ip2 H2)).
  split; [|reflexivity].
  unfold TShark.time_value. cbn [TShark.tp_int TShark.tp_frac TShark.tp_neg].
  assert (Mach.u64 (TShark.decimal_value ip1)
          = Mach.u64 (TShark.decimal_value ip2)) as ->; [|reflexivity].
  unfold Mach.u64.
  replace (TShark.decimal_value ip1)
    with (TShark.decimal_value ip2
          + (TShark.decimal_value ip1 - TShark.decimal_value ip2)) by lia.
  rewrite Z.add_mod, Hmod, Z.add_0_r, Z.mod_mod by lia. reflexivity.
Qed.

Lemma timeStrToDouble_wraps_witness :
  all_digits (tok "18446744073709551616") /\
  all_digits (tok "0") /\
  (TShark.decimal_value (tok "18446744073709551616")
   - TShark.decimal_value (tok "0")) mod 2 ^ 64 = 0 /\
  TShark.timeStrToDouble (tok "18446744073709551616:")
  = TShark.timeStrToDouble (tok "0:").
Proof.
  assert (H1 : all_digits (tok "18446744073709551616"))
    by (repeat constructor).
  assert (H2 : all_digits (tok "0")) by (repeat constructor).
  assert (Hmod : (TShark.decimal_value (tok "18446744073709551616")
                  - TShark.decimal_value (tok "0")) mod 2 ^ 64 = 0)
    by (vm_compute; reflexivity).
  split; [exact H1|]. split; [exact H2|]. split; [exact Hmod|].
  exact (proj1 (timeStrToDouble_wraps _ _ [] H1 H2 Hmod)).
Defined.

(** ** More extractors of [perfparams.h] *)

Section PerfParamsMoreProofs.

Import ParamHelpers PerfParams TaskNames PerfParamsMore.

Lemma arg_in_range event i :
  0 <= i < argc event -> exists t, arg event i = Some t.
Proof.
  intros Hi. unfold arg, argc in *.
  destruct (Z.ltb_spec i 0); [lia|].
  destruct (argv event !! Z.to_nat i) as [t|] eqn:Ht; [eauto|].
  apply lookup_ge_None in Ht. lia.
Qed.

Lemma arg_Some_range event i t :
  arg event i = Some t -> 0 <= i < argc event.
Proof.
  unfold arg, argc. destruct (Z.ltb_spec i 0); [discriminate|].
  intros Ht. apply lookup_lt_Some in Ht. lia.
Qed.

Lemma int_after_char_defined event i ch :
  0 <= i < argc event -> exists r, int_after_char event i ch = Some r.
Proof.
  intros Hi. destruct (arg_in_range event i Hi) as [t Ht].
  unfold int_after_char. rewrite Ht. simpl. eauto.
Qed.

Lemma scan_up_spec test :
  forall (n k : nat) i,
    (k <= n)%nat ->
    (forall j, i <= j < i + Z.of_nat k -> test j = Some false) ->
    ((k < n)%nat -> test (i + Z.of_nat k) = Some true) ->
    scan_up test i n = Some (i + Z.of_nat k).
Proof.
  induction n as [|n IH]; intros k i Hk Hfalse Htrue.
  - assert (k = 0)%nat as -> by lia. simpl. f_equal. lia.
  - cbn [scan_up]. destruct k as [|k].
    + specialize (Htrue ltac:(lia)). rewrite Z.add_0_r in *.
      rewrite Htrue. reflexivity.
    + rewrite (Hfalse i) by lia. cbn [mbind option_bind].
      rewrite (IH k (i + 1)).
      * f_equal. lia.
      * lia.
      * intros j Hj. apply Hfalse. lia.
      * intros Hlt. replace (i + 1 + Z.of_nat k) with (i + Z.of_nat (S k))
          by lia. apply Htrue. lia.
Qed.

Lemma scan_down_finds event test :
  forall (n k : nat),
    (k <= n)%nat -> Z.of_nat n < argc event ->
    (forall j t, Z.of_nat k < j <= Z.of_nat n -> arg event j = Some t ->
                 test t = false) ->
    (k = 0%nat \/ exists t, arg event (Z.of_nat k) = Some t /\ test t = true) ->
    scan_down event test n = Some (Z.of_nat k).
Proof.
  induction n as [|n IH]; intros k Hk Hn Hnone Hfound.
  - assert (k = 0)%nat as -> by lia. reflexivity.
  - cbn [scan_down].
    destruct (arg_in_range event (Z.of_nat (S n)) ltac:(lia)) as [t Ht].
    rewrite Ht. cbn [mbind option_bind].
    destruct (decide (k = S n)) as [-> | Hne].
    + destruct Hfound as [? | (t' & Ht' & Htest)]; [lia|].
      rewrite Ht in Ht'. injection Ht' as <-. rewrite Htest. reflexivity.
    + rewrite (Hnone (Z.of_nat (S n)) t ltac:(lia) Ht).
      apply IH; [lia | lia | | exact Hfound].
      intros j t' Hj. apply Hnone. lia.
Qed.

Lemma scan_down_from_nearest event test hi k :
  hi < argc event ->
  nearest_below event test 1 hi k ->
  scan_down_from event test hi = Some k.
Proof.
  intros Hhi (Hk & (t & Ht & Htest) & Hnone).
  unfold scan_down_from.
  destruct (Z.ltb_spec 0 hi); [|lia].
  rewrite (scan_down_finds event test (Z.to_nat hi) (Z.to_nat k)).
  - f_equal. lia.
  - lia.
  - lia.
  - intros j t' Hj. apply Hnone. lia.
  - right. exists t. rewrite Z2Nat.id by lia. auto.
Qed.

Lemma scan_down_from_none event test hi :
  hi < argc event ->
  none_between event test 1 hi ->
  exists e, scan_down_from event test hi = Some e /\ e <= 0.
Proof.
  intros Hhi Hnone. unfold scan_down_from.
  destruct (Z.ltb_spec 0 hi); [|exists hi; split; [reflexivity|lia]].
  exists 0. split; [|lia].
  apply (scan_down_finds event test (Z.to_nat hi) 0).
  - lia.
  - lia.
  - intros j t' Hj. apply Hnone. lia.
  - left. reflexivity.
Qed.

(** X14: with an argument [pid=] directly followed by an argument
    [child_comm=], the parent PID of a fork is the integer after the
    ['='] of the first such [pid=] argument (counting from argument 1,
    and up to the last but two). *)
Theorem perf_sched_process_fork_parent_pid_first_pair
  (event : TraceEvent) (i : Z) :
  1 <= i <= argc event - 3 ->
  pid_comm_pair event i = Some true ->
  (forall j, 1 <= j < i -> pid_comm_pair event j = Some false) ->
  perf_sched_process_fork_parent_pid event = int_after_char event i chr_eq.
Proof.
  intros Hi Hpair Hfirst. unfold perf_sched_process_fork_parent_pid.
  destruct (decide (i = 1)) as [-> | Hne].
  - rewrite Hpair. reflexivity.
  - rewrite (Hfirst 1) by lia. cbn [mbind option_bind].
    rewrite (scan_up_spec _ _ (Z.to_nat (i - 1)) 1).
    + cbn [mbind option_bind].
      replace (1 + Z.of_nat (Z.to_nat (i - 1))) with i by lia.
      destruct (Z.leb_spec (argc event - 1) i); [lia | reflexivity].
    + lia.
    + intros j Hj. apply Hfirst. lia.
    + intros _. replace (1 + Z.of_nat (Z.to_nat (i - 1))) with i by lia.
      exact Hpair.
Qed.

Lemma perf_sched_process_fork_parent_pid_first_pair_witness :
  1 <= 2 <= argc ScenariosMore.fork_line_spaced - 3 /\
  pid_comm_pair ScenariosMore.fork_line_spaced 2 = Some true /\
  perf_sched_process_fork_parent_pid ScenariosMore.fork_line_spaced
  = Some 100.
Proof.
  assert (Hi : 1 <= 2 <= argc ScenariosMore.fork_line_spaced - 3)
    by (vm_compute; split; discriminate).
  assert (Hpair : pid_comm_pair ScenariosMore.fork_line_spaced 2 = Some true)
    by (vm_compute; reflexivity).
  assert (Hfirst : forall j, 1 <= j < 2 ->
            pid_comm_pair ScenariosMore.fork_line_spaced j = Some false).
  { intros j Hj. assert (j = 1) as -> by lia. vm_compute. reflexivity. }
  split; [exact Hi|]. split; [exact Hpair|].
  rewrite (perf_sched_process_fork_parent_pid_first_pair _ 2 Hi Hpair Hfirst).
  vm_compute. reflexivity.
Defined.

(** X15: when no argument [pid=] is directly followed by [child_comm=],
    on a line of four arguments or more, the search for the parent PID
    ends at the last argument but one, which the test [i >= endidx] lets
    through: the result is what that argument has after its ['='], not
    [ABSURD_INT] by way of the test. *)
Theorem perf_sched_process_fork_parent_pid_no_pair (event : TraceEvent) :
  4 <= argc event ->
  (forall j, 1 <= j <= argc event - 3 -> pid_comm_pair event j = Some false) ->
  perf_sched_process_fork_parent_pid event
  = int_after_char event (argc event - 2) chr_eq.
Proof.
  intros Hargc Hnone. unfold perf_sched_process_fork_parent_pid.
  rewrite (Hnone 1) by lia. cbn [mbind option_bind].
  rewrite (scan_up_spec _ _ (Z.to_nat (argc event - 3)) 1).
  - cbn [mbind option_bind].
    replace (1 + Z.of_nat (Z.to_nat (argc event - 3)))
      with (argc event - 2) by lia.
    destruct (Z.leb_spec (argc event - 1) (argc event - 2));
      [lia | reflexivity].
  - lia.
  - intros j Hj. apply Hnone. lia.
  - lia.
Qed.

Lemma perf_sched_process_fork_parent_pid_no_pair_witness :
  4 <= argc ScenariosMore.fork_line_no_pair /\
  perf_sched_process_fork_parent_pid ScenariosMore.fork_line_no_pair
  = Some 0.
Proof.
  assert (Hargc : 4 <= argc ScenariosMore.fork_line_no_pair)
    by (vm_compute; discriminate).
  assert (Hnone : forall j, 1 <= j <= argc ScenariosMore.fork_line_no_pair - 3 ->
            pid_comm_pair ScenariosMore.fork_line_no_pair j = Some false).
  { intros j Hj. assert (j = 1) as ->
      by (change (argc ScenariosMore.fork_line_no_pair) with 4 in Hj; lia).
    vm_compute. reflexivity. }
  split; [exact Hargc|].
  rewrite (perf_sched_process_fork_parent_pid_no_pair _ Hargc Hnone).
  vm_compute. reflexivity.
Defined.

(** *** [perf_sched_wakeup_pid] *)

Lemma tcpu_not_cpu last :
  prefixcmp last WAKE_TCPU_PFIX = 0 -> prefixcmp last WAKE_CPU_PFIX <> 0.
Proof.
  destruct last as [|ch last]; [vm_compute; discriminate|].
  cbn [prefixcmp WAKE_TCPU_PFIX WAKE_CPU_PFIX tok list_ascii_of_string].
  destruct (Ascii.eqb_spec ch "t") as [-> | Hne].
  - intros _. vm_compute. discriminate.
  - intros H. exfalso. apply Hne. apply code_inj. lia.
Qed.

Lemma wakeup_pid_walk_finds event :
  forall (n k : nat),
    (1 <= k <= n)%nat -> Z.of_nat n < argc event ->
    (forall j t, Z.of_nat k < j <= Z.of_nat n -> arg event j = Some t ->
                 is_param_inside_braces_or_cant t = false) ->
    (exists t, arg event (Z.of_nat k) = Some t /\
               is_param_inside_braces_or_cant t = true) ->
    wakeup_pid_walk event n = Some (Z.of_nat k - 1).
Proof.
  induction n as [|n IH]; intros k Hk Hn Hnone Hfound; [lia|].
  cbn [wakeup_pid_walk].
  destruct (arg_in_range event (Z.of_nat (S n)) ltac:(lia)) as [t Ht].
  rewrite Ht. cbn [mbind option_bind].
  destruct (decide (k = S n)) as [-> | Hne].
  - destruct Hfound as (t' & Ht' & Htest).
    rewrite Ht in Ht'. injection Ht' as <-. rewrite Htest.
    f_equal. lia.
  - rewrite (Hnone (Z.of_nat (S n)) t ltac:(lia) Ht).
    apply IH; [lia | lia | | exact Hfound].
    intros j t' Hj. apply Hnone. lia.
Qed.

Lemma wakeup_pid_walk_none event :
  forall n : nat,
    Z.of_nat n < argc event ->
    (forall j t, 1 <= j <= Z.of_nat n -> arg event j = Some t ->
                 is_param_inside_braces_or_cant t = false) ->
    wakeup_pid_walk event n = Some 0.
Proof.
  induction n as [|n IH]; intros Hn Hnone; [reflexivity|].
  cbn [wakeup_pid_walk].
  destruct (arg_in_range event (Z.of_nat (S n)) ltac:(lia)) as [t Ht].
  rewrite Ht. cbn [mbind option_bind].
  rewrite (Hnone (Z.of_nat (S n)) t ltac:(lia) Ht).
  apply IH; [lia|]. intros j t' Hj. apply Hnone. lia.
Qed.

Lemma wakeup_pid_walk_range event :
  forall n : nat,
    Z.of_nat n < argc event ->
    exists idx, wakeup_pid_walk event n = Some idx /\
                0 <= idx <= Z.of_nat n.
Proof.
  induction n as [|n IH]; intros Hn.
  - exists 0. split; [reflexivity | lia].
  - cbn [wakeup_pid_walk].
    destruct (arg_in_range event (Z.of_nat (S n)) ltac:(lia)) as [t Ht].
    rewrite Ht. cbn [mbind option_bind].
    destruct (is_param_inside_braces_or_cant t).
    + exists (Z.of_nat n). split; [reflexivity | lia].
    + destruct (IH ltac:(lia)) as (idx & -> & Hidx).
      exists idx. split; [reflexivity | lia].
Qed.

Lemma wakeup_pid_search_finds event :
  forall (n k : nat),
    (k < n)%nat -> Z.of_nat n <= argc event ->
    (forall j t, Z.of_nat k < j < Z.of_nat n -> arg event j = Some t ->
                 has_pid_pfix t = false) ->
    (exists t, arg event (Z.of_nat k) = Some t /\ has_pid_pfix t = true) ->
    wakeup_pid_search event n
    = (r ← int_after_char event (Z.of_nat k) chr_eq; Some (Some r)).
Proof.
  induction n as [|n IH]; intros k Hk Hn Hnone Hfound; [lia|].
  cbn [wakeup_pid_search].
  destruct (arg_in_range event (Z.of_nat n) ltac:(lia)) as [t Ht].
  rewrite Ht. cbn [mbind option_bind].
  destruct (decide (k = n)) as [-> | Hne].
  - destruct Hfound as (t' & Ht' & Htest).
    rewrite Ht in Ht'. injection Ht' as <-.
    unfold has_pid_pfix in Htest. rewrite Htest. reflexivity.
  - pose proof (Hnone (Z.of_nat n) t ltac:(lia) Ht) as Hno.
    unfold has_pid_pfix in Hno. rewrite Hno.
    apply IH; [lia | lia | | exact Hfound].
    intros j t' Hj. apply Hnone. lia.
Qed.

Lemma wakeup_pid_search_none event :
  forall n : nat,
    Z.of_nat n <= argc event ->
    (forall j t, 0 <= j < Z.of_nat n -> arg event j = Some t ->
                 has_pid_pfix t = false) ->
    wakeup_pid_search event n = Some None.
Proof.
  induction n as [|n IH]; intros Hn Hnone; [reflexivity|].
  cbn [wakeup_pid_search].
  destruct (arg_in_range event (Z.of_nat n) ltac:(lia)) as [t Ht].
  rewrite Ht. cbn [mbind option_bind].
  pose proof (Hnone (Z.of_nat n) t ltac:(lia) Ht) as Hno.
  unfold has_pid_pfix in Hno. rewrite Hno.
  apply IH; [lia|]. intros j t' Hj. apply Hnone. lia.
Qed.

Lemma wakeup_pid_search_defined event :
  forall n : nat,
    Z.of_nat n <= argc event ->
    exists found, wakeup_pid_search event n = Some found.
Proof.
  induction n as [|n IH]; intros Hn; [eexists; reflexivity|].
  cbn [wakeup_pid_search].
  destruct (arg_in_range event (Z.of_nat n) ltac:(lia)) as [t Ht].
  rewrite Ht. cbn [mbind option_bind].
  destruct (prefixcmp t WAKE_PID_PFIX =? 0).
  - destruct (int_after_char_defined event (Z.of_nat n) chr_eq ltac:(lia))
      as [r ->]. eexists; reflexivity.
  - apply IH. lia.
Qed.

(** X16: on a line of two arguments or more [perf_sched_wakeup_pid]
    reads inside [argv] only and returns a value, whatever the
    arguments are; the caller's [perf_sched_wakeup_args_ok] asks for
    three. *)
Theorem perf_sched_wakeup_pid_defined (event : TraceEvent) :
  2 <= argc event ->
  exists pid, perf_sched_wakeup_pid event = Some pid.
Proof.
  intros Hargc. unfold perf_sched_wakeup_pid.
  destruct (arg_in_range event (argc event - 1) ltac:(lia)) as [last Hlast].
  rewrite Hlast. cbn [mbind option_bind].
  destruct (prefixcmp last WAKE_CPU_PFIX =? 0).
  - destruct (Z.leb_spec 1 (argc event - 2)).
    + destruct (wakeup_pid_walk_range event (Z.to_nat (argc event - 2))
                  ltac:(lia)) as (idx & -> & Hidx).
      cbn [mbind option_bind].
      apply int_after_char_defined. lia.
    + cbn [mbind option_bind]. apply int_after_char_defined. lia.
  - destruct (prefixcmp last WAKE_TCPU_PFIX =? 0); [|eexists; reflexivity].
    destruct (wakeup_pid_search_defined event
                (Z.to_nat (argc event - 3 + 1)) ltac:(lia)) as [found ->].
    cbn [mbind option_bind].
    destruct found as [pid|]; [eexists; reflexivity|].
    destruct (arg_in_range event (argc event - 2) ltac:(lia)) as [t ->].
    cbn [mbind option_bind].
    destruct (prefixcmp t WAKE_PID_PFIX =? 0); [|eexists; reflexivity].
    apply int_after_char_defined. lia.
Qed.

Lemma perf_sched_wakeup_pid_defined_witness :
  2 <= argc (event_of ["x"; "target_cpu="]%string) /\
  exists pid,
    perf_sched_wakeup_pid (event_of ["x"; "target_cpu="]%string) = Some pid.
Proof.
  assert (Hargc : 2 <= argc (event_of ["x"; "target_cpu="]%string))
    by (vm_compute; discriminate).
  split; [exact Hargc|].
  exact (perf_sched_wakeup_pid_defined _ Hargc).
Defined.

(** X17: in the old format (the last argument starts with
    [target_cpu=]) the PID of a wakeup is the integer after the ['='] of
    the nearest argument [pid=] among the arguments up to the last but
    two; the last but one is looked at only when there is none, and when
    it has no [pid=] either the result is [ABSURD_INT]. *)
Theorem perf_sched_wakeup_pid_classic (event : TraceEvent) (last : TString) :
  3 <= argc event ->
  arg event (argc event - 1) = Some last ->
  prefixcmp last WAKE_TCPU_PFIX = 0 ->
  (forall k, nearest_below event has_pid_pfix 0 (argc event - 3) k ->
     perf_sched_wakeup_pid event = int_after_char event k chr_eq) /\
  (none_between event has_pid_pfix 0 (argc event - 3) ->
   forall t, arg event (argc event - 2) = Some t ->
     perf_sched_wakeup_pid event
     = if has_pid_pfix t
       then int_after_char event (argc event - 2) chr_eq
       else Some ABSURD_INT).
Proof.
  intros Hargc Hlast Htcpu.
  pose proof (tcpu_not_cpu last Htcpu) as Hcpu.
  unfold perf_sched_wakeup_pid. rewrite Hlast. cbn [mbind option_bind].
  destruct (Z.eqb_spec (prefixcmp last WAKE_CPU_PFIX) 0); [contradiction|].
  rewrite Htcpu. change (0 =? 0) with true. cbv iota.
  split.
  - intros k (Hk & (t & Ht & Htest) & Hnone).
    rewrite (wakeup_pid_search_finds event _ (Z.to_nat k)).
    + rewrite Z2Nat.id by lia.
      destruct (int_after_char_defined event k chr_eq ltac:(lia)) as [r ->].
      reflexivity.
    + lia.
    + lia.
    + intros j t' Hj. apply Hnone. lia.
    + exists t. rewrite Z2Nat.id by lia. auto.
  - intros Hnone t Ht.
    rewrite wakeup_pid_search_none.
    + cbn [mbind option_bind]. rewrite Ht. reflexivity.
    + lia.
    + intros j t' Hj. apply Hnone. lia.
Qed.

Lemma perf_sched_wakeup_pid_classic_witness :
  3 <= argc Scenarios.s4_classic /\
  arg Scenarios.s4_classic (argc Scenarios.s4_classic - 1)
    = Some (tok "target_cpu=3") /\
  nearest_below Scenarios.s4_classic has_pid_pfix 0
    (argc Scenarios.s4_classic - 3) 1 /\
  perf_sched_wakeup_pid Scenarios.s4_classic
  = int_after_char Scenarios.s4_classic 1 chr_eq.
Proof.
  assert (Hargc : 3 <= argc Scenarios.s4_classic)
    by (vm_compute; discriminate).
  assert (Hlast : arg Scenarios.s4_classic (argc Scenarios.s4_classic - 1)
                  = Some (tok "target_cpu=3")) by reflexivity.
  assert (Htcpu : prefixcmp (tok "target_cpu=3") WAKE_TCPU_PFIX = 0)
    by reflexivity.
  assert (Hnear : nearest_below Scenarios.s4_classic has_pid_pfix 0
                    (argc Scenarios.s4_classic - 3) 1).
  { change (argc Scenarios.s4_classic - 3) with 2.
    split; [lia|]. split.
    - exists (tok "pid=42"). split; reflexivity.
    - intros j t Hj Harg. assert (j = 2) as -> by lia.
      vm_compute in Harg. injection Harg as <-. reflexivity. }
  split; [exact Hargc|]. split; [exact Hlast|]. split; [exact Hnear|].
  exact (proj1 (perf_sched_wakeup_pid_classic _ _ Hargc Hlast Htcpu)
           1 Hnear).
Defined.

(** X18: in the libtraceevent format (the last argument starts with
    [CPU:]) the PID of a wakeup is the integer after the [':'] of the
    argument just before the nearest bracketed priority, looked for
    from the last argument but one down to argument 1; without a
    bracketed priority it is read from argument 0. *)
Theorem perf_sched_wakeup_pid_libtraceevent
  (event : TraceEvent) (last : TString) :
  2 <= argc event ->
  arg event (argc event - 1) = Some last ->
  prefixcmp last WAKE_CPU_PFIX = 0 ->
  (forall k,
     nearest_below event is_param_inside_braces_or_cant 1
       (argc event - 2) k ->
     perf_sched_wakeup_pid event = int_after_char event (k - 1) chr_colon) /\
  (none_between event is_param_inside_braces_or_cant 1 (argc event - 2) ->
   perf_sched_wakeup_pid event = int_after_char event 0 chr_colon).
Proof.
  intros Hargc Hlast Hcpu.
  unfold perf_sched_wakeup_pid. rewrite Hlast. cbn [mbind option_bind].
  rewrite Hcpu. change (0 =? 0) with true. cbv iota.
  split.
  - intros k (Hk & Hfound & Hnone).
    destruct (Z.leb_spec 1 (argc event - 2)); [|lia].
    rewrite (wakeup_pid_walk_finds event _ (Z.to_nat k)).
    + cbn [mbind option_bind]. rewrite Z2Nat.id by lia. reflexivity.
    + lia.
    + lia.
    + intros j t' Hj. apply Hnone. lia.
    + rewrite Z2Nat.id by lia. exact Hfound.
  - intros Hnone.
    destruct (Z.leb_spec 1 (argc event - 2)).
    + rewrite wakeup_pid_walk_none.
      * reflexivity.
      * lia.
      * intros j t' Hj. apply Hnone. lia.
    + cbn [mbind option_bind]. replace (argc event - 2) with 0 by lia.
      reflexivity.
Qed.

Lemma perf_sched_wakeup_pid_libtraceevent_witness :
  2 <= argc ScenariosMore.wakeup_spaced /\
  arg ScenariosMore.wakeup_spaced (argc ScenariosMore.wakeup_spaced - 1)
    = Some (tok "CPU:3") /\
  nearest_below ScenariosMore.wakeup_spaced is_param_inside_braces_or_cant
    1 (argc ScenariosMore.wakeup_spaced - 2) 2 /\
  perf_sched_wakeup_pid ScenariosMore.wakeup_spaced = Some 42.
Proof.
  assert (Hargc : 2 <= argc ScenariosMore.wakeup_spaced)
    by (vm_compute; discriminate).
  assert (Hlast : arg ScenariosMore.wakeup_spaced
                    (argc ScenariosMore.wakeup_spaced - 1)
                  = Some (tok "CPU:3")) by reflexivity.
  assert (Hcpu : prefixcmp (tok "CPU:3") WAKE_CPU_PFIX = 0) by reflexivity.
  assert (Hnear : nearest_below ScenariosMore.wakeup_spaced
                    is_param_inside_braces_or_cant 1
                    (argc ScenariosMore.wakeup_spaced - 2) 2).
  { change (argc ScenariosMore.wakeup_spaced - 2) with 3.
    split; [lia|]. split.
    - exists (tok "[120]"). split; vm_compute; reflexivity.
    - intros j t Hj Harg. assert (j = 3) as -> by lia.
      vm_compute in Harg. injection Harg as <-. vm_compute. reflexivity. }
  split; [exact Hargc|]. split; [exact Hlast|]. split; [exact Hnear|].
  rewrite (proj1 (perf_sched_wakeup_pid_libtraceevent _ _ Hargc Hlast Hcpu)
             2 Hnear).
  vm_compute. reflexivity.
Defined.

(** *** [perf_sched_switch_handle_state], regular format *)

Lemma state_scan_eq_finds (pfx v : list ascii) (x : ascii) :
  pfx <> [] -> chr_eq ∉ v ->
  forall m : nat,
    (m <= length v)%nat ->
    state_scan_eq (pfx ++ chr_eq :: v ++ [x]) (length pfx + m)
    = Some (v ++ [x]).
Proof.
  intros Hpfx Hv. induction m as [|m IH]; intros Hm.
  - rewrite Nat.add_0_r.
    destruct pfx as [|p pfx]; [contradiction|].
    cbn [length state_scan_eq].
    change (S (length pfx)) with (length (p :: pfx)).
    rewrite nth_middle.
    change (Ascii.eqb chr_eq chr_eq) with true. cbv iota.
    f_equal.
    replace (S (length (p :: pfx))) with (length (p :: pfx) + 1)%nat by lia.
    rewrite <- drop_drop, drop_app_length. reflexivity.
  - replace (length pfx + S m)%nat with (S (length pfx + m)) by lia.
    cbn [state_scan_eq].
    assert (Hnth : nth (S (length pfx + m)) (pfx ++ chr_eq :: v ++ [x])
                     Ascii.zero = nth m v Ascii.zero).
    { rewrite app_nth2 by lia.
      replace (S (length pfx + m) - length pfx)%nat with (S m) by lia.
      cbn [nth]. rewrite app_nth1 by lia. reflexivity. }
    rewrite Hnth.
    destruct (Ascii.eqb_spec (nth m v Ascii.zero) chr_eq) as [Heq | _].
    + exfalso. apply Hv. rewrite <- Heq.
      apply list_elem_of_In. apply nth_In. lia.
    + apply IH. lia.
Qed.

Lemma state_scan_args_skip event :
  forall (n k : nat),
    (k <= n)%nat -> Z.of_nat n <= argc event ->
    (forall j t, Z.of_nat k <= j < Z.of_nat n -> arg event j = Some t ->
                 has_psta_pfix t = false) ->
    state_scan_args event n = state_scan_args event k.
Proof.
  induction n as [|n IH]; intros k Hk Hn Hnone.
  - assert (k = 0)%nat as -> by lia. reflexivity.
  - destruct (decide (k = S n)) as [-> | Hne]; [reflexivity|].
    cbn [state_scan_args].
    destruct (arg_in_range event (Z.of_nat n) ltac:(lia)) as [t Ht].
    rewrite Ht. cbn [mbind option_bind].
    pose proof (Hnone (Z.of_nat n) t ltac:(lia) Ht) as Hno.
    unfold has_psta_pfix in Hno. rewrite Hno.
    apply IH; [lia | lia |].
    intros j t' Hj. apply Hnone. lia.
Qed.

(** X19: in the regular format the state of the task switched out is
    read from the nearest argument [prev_state=] before the arrow: the
    text behind its ['='] is handed to [sched_state_from_tstring_].  An
    argument that is [prev_state=] and nothing more is passed over, the
    search goes on before it; without any [prev_state=] argument the
    result is [TASK_STATE_PARSER_ERROR]. *)
Theorem perf_sched_switch_handle_state_regular
  (event : TraceEvent) (handle : sched_switch_handle) :
  is_distro_style handle = false ->
  index handle <= argc event ->
  (forall k v x,
     nearest_below event has_psta_pfix 0 (index handle - 1) k ->
     arg event k = Some (SWITCH_PSTA_PFIX ++ v ++ [x]) ->
     chr_eq ∉ v ->
     perf_sched_switch_handle_state event handle
     = Some (sched_state_from_tstring_ (v ++ [x]))) /\
  (forall k,
     nearest_below event has_psta_pfix 0 (index handle - 1) k ->
     arg event k = Some SWITCH_PSTA_PFIX ->
     perf_sched_switch_handle_state event handle
     = perf_sched_switch_handle_state event (mkHandle k false)) /\
  (none_between event has_psta_pfix 0 (index handle - 1) ->
   perf_sched_switch_handle_state event handle
   = Some TASK_STATE_PARSER_ERROR).
Proof.
  intros Hstyle Hidx. unfold perf_sched_switch_handle_state.
  rewrite Hstyle. cbn [is_distro_style index].
  replace (index handle - 1 + 1) with (index handle) by lia.
  assert (Hstep : forall k t,
            nearest_below event has_psta_pfix 0 (index handle - 1) k ->
            arg event k = Some t ->
            state_scan_args event (Z.to_nat (index handle))
            = match state_scan_eq t (Z.to_nat (tlen t - 2)) with
              | Some st => Some (sched_state_from_tstring_ st)
              | None => state_scan_args event (Z.to_nat k)
              end).
  { intros k t (Hk & (t' & Ht' & Htest) & Hnone) Ht.
    rewrite Ht in Ht'. injection Ht' as <-.
    rewrite (state_scan_args_skip event _ (S (Z.to_nat k))).
    - cbn [state_scan_args]. rewrite Z2Nat.id by lia.
      rewrite Ht. cbn [mbind option_bind].
      unfold has_psta_pfix in Htest. rewrite Htest. reflexivity.
    - lia.
    - lia.
    - intros j t' Hj. apply Hnone. lia. }
  split; [|split].
  - intros k v x Hnear Harg Hv.
    rewrite (Hstep k _ Hnear Harg).
    change (SWITCH_PSTA_PFIX ++ v ++ [x])
      with (tok "prev_state" ++ chr_eq :: v ++ [x]).
    replace (Z.to_nat (tlen (tok "prev_state" ++ chr_eq :: v ++ [x]) - 2))
      with (length (tok "prev_state") + length v)%nat.
    + rewrite state_scan_eq_finds; [reflexivity | discriminate | exact Hv | lia].
    + unfold tlen. rewrite length_app. cbn [length].
      rewrite length_app. cbn [length]. lia.
  - intros k Hnear Harg.
    rewrite (Hstep k _ Hnear Harg).
    replace (k - 1 + 1) with k by lia. reflexivity.
  - intros Hnone.
    rewrite (state_scan_args_skip event _ 0%nat).
    + reflexivity.
    + lia.
    + unfold argc in *. lia.
    + intros j t Hj. apply Hnone. lia.
Qed.

Lemma perf_sched_switch_handle_state_regular_witness :
  is_distro_style ScenariosMore.switch_handle = false /\
  index ScenariosMore.switch_handle <= argc ScenariosMore.switch_line /\
  nearest_below ScenariosMore.switch_line has_psta_pfix 0
    (index ScenariosMore.switch_handle - 1) 3 /\
  arg ScenariosMore.switch_line 3
    = Some (SWITCH_PSTA_PFIX ++ tok "R" ++ ["+"%char]) /\
  (chr_eq ∉ tok "R") /\
  perf_sched_switch_handle_state ScenariosMore.switch_line
    ScenariosMore.switch_handle
  = Some (TASK_STATE State_R true).
Proof.
  assert (Hstyle : is_distro_style ScenariosMore.switch_handle = false)
    by reflexivity.
  assert (Hidx : index ScenariosMore.switch_handle
                 <= argc ScenariosMore.switch_line)
    by (vm_compute; discriminate).
  assert (Hnear : nearest_below ScenariosMore.switch_line has_psta_pfix 0
                    (index ScenariosMore.switch_handle - 1) 3).
  { change (index ScenariosMore.switch_handle - 1) with 3.
    split; [lia|]. split.
    - exists (tok "prev_state=R+"). split; reflexivity.
    - intros j t Hj. lia. }
  assert (Harg : arg ScenariosMore.switch_line 3
                 = Some (SWITCH_PSTA_PFIX ++ tok "R" ++ ["+"%char]))
    by reflexivity.
  assert (Hv : chr_eq ∉ tok "R").
  { intros Hin. apply list_elem_of_In in Hin.
    destruct Hin as [Heq | []]. discriminate Heq. }
  split; [exact Hstyle|]. split; [exact Hidx|]. split; [exact Hnear|].
  split; [exact Harg|]. split; [exact Hv|].
  rewrite (proj1 (perf_sched_switch_handle_state_regular _ _ Hstyle Hidx)
             3 (tok "R") "+"%char Hnear Harg Hv).
  reflexivity.
Defined.

(** *** [perf_sched_process_fork_childpid], the argument found *)

(** X20: the child PID of a fork is the integer after the ['='] of the
    argument [child_pid=] nearest to the end of the line, wherever it
    is. *)
Theorem perf_sched_process_fork_childpid_nearest
  (event : TraceEvent) (k : Z) :
  nearest_below event (fun t => prefixcmp t FORK_CPID_PFIX =? 0)
    0 (argc event - 1) k ->
  perf_sched_process_fork_childpid event = int_after_char event k chr_eq.
Proof.
  intros (Hk & (t & Ht & Htest) & Hnone).
  rewrite <- (Z2Nat.id k) by lia.
  apply (perf_sched_process_fork_childpid_tailmost event (Z.to_nat k) t).
  - rewrite Z2Nat.id by lia. exact Ht.
  - unfold has_child_pid_pfix. apply Z.eqb_eq. exact Htest.
  - intros j t' Hj Harg. unfold has_child_pid_pfix.
    pose proof (arg_Some_range _ _ _ Harg) as Hrange.
    pose proof (Hnone (Z.of_nat j) t' ltac:(lia) Harg) as Hno.
    cbv beta in Hno. apply Z.eqb_neq. exact Hno.
Qed.

Lemma perf_sched_process_fork_childpid_nearest_witness :
  nearest_below ScenariosMore.fork_line
    (fun t => prefixcmp t FORK_CPID_PFIX =? 0)
    0 (argc ScenariosMore.fork_line - 1) 4 /\
  perf_sched_process_fork_childpid ScenariosMore.fork_line = Some 101.
Proof.
  assert (Hnear : nearest_below ScenariosMore.fork_line
                    (fun t => prefixcmp t FORK_CPID_PFIX =? 0)
                    0 (argc ScenariosMore.fork_line - 1) 4).
  { change (argc ScenariosMore.fork_line - 1) with 4.
    split; [lia|]. split.
    - exists (tok "child_pid=101"). split; reflexivity.
    - intros j t Hj. lia. }
  split; [exact Hnear|].
  rewrite (perf_sched_process_fork_childpid_nearest _ 4 Hnear).
  vm_compute. reflexivity.
Defined.

(** *** Task names of [sched_process_fork] and [sched_wakeup] *)

(** X21: the name of the child of a fork starts behind the ['='] of the
    first argument [child_comm=] that directly follows an argument
    [pid=], and runs to the last argument but one; it is returned
    pooled when it has at most [TASKNAME_MAXLEN] bytes and as the null
    string otherwise.  Without such a pair of arguments the function
    returns the null string and leaves the pool alone. *)
Theorem perf_sched_process_fork_childname
  (event : TraceEvent) (pool : StringPool) :
  (forall i name,
     2 <= i <= argc event - 2 ->
     pid_comm_pair event (i - 1) = Some true ->
     (forall j, 2 <= j < i -> pid_comm_pair event (j - 1) = Some false) ->
     regular_name event i (argc event - 2) = Some name ->
     perf_sched_process_fork_childname_strdup_ event pool
     = Some (bounded_name pool name)) /\
  ((forall j, 2 <= j <= argc event - 2 ->
              pid_comm_pair event (j - 1) = Some false) ->
   perf_sched_process_fork_childname_strdup_ event pool
   = Some (NullStr, pool)).
Proof.
  unfold perf_sched_process_fork_childname_strdup_. split.
  - intros i name Hi Hpair Hfirst Hname.
    rewrite (scan_up_spec _ _ (Z.to_nat (i - 2)) 2).
    + cbn [mbind option_bind].
      replace (2 + Z.of_nat (Z.to_nat (i - 2))) with i by lia.
      destruct (Z.ltb_spec (argc event - 2) i); [lia|].
      apply regular_path. exact Hname.
    + lia.
    + intros j Hj. apply Hfirst. lia.
    + intros _. replace (2 + Z.of_nat (Z.to_nat (i - 2))) with i by lia.
      exact Hpair.
  - intros Hnone.
    rewrite (scan_up_spec _ _ (Z.to_nat (argc event - 2 + 1 - 2)) 2).
    + cbn [mbind option_bind].
      destruct (Z.ltb_spec (argc event - 2)
                  (2 + Z.of_nat (Z.to_nat (argc event - 2 + 1 - 2))));
        [reflexivity | lia].
    + lia.
    + intros j Hj. apply Hnone. lia.
    + lia.
Qed.

Lemma perf_sched_process_fork_childname_witness :
  2 <= 2 <= argc ScenariosMore.fork_line - 2 /\
  pid_comm_pair ScenariosMore.fork_line (2 - 1) = Some true /\
  regular_name ScenariosMore.fork_line 2 (argc ScenariosMore.fork_line - 2)
    = Some (tok "my task") /\
  perf_sched_process_fork_childname_strdup_ ScenariosMore.fork_line ∅
  = Some (bounded_name ∅ (tok "my task")).
Proof.
  assert (Hi : 2 <= 2 <= argc ScenariosMore.fork_line - 2)
    by (vm_compute; split; discriminate).
  assert (Hpair : pid_comm_pair ScenariosMore.fork_line (2 - 1) = Some true)
    by reflexivity.
  assert (Hfirst : forall j, 2 <= j < 2 ->
            pid_comm_pair ScenariosMore.fork_line (j - 1) = Some false)
    by (intros j Hj; lia).
  assert (Hname : regular_name ScenariosMore.fork_line 2
                    (argc ScenariosMore.fork_line - 2)
                  = Some (tok "my task")) by reflexivity.
  split; [exact Hi|]. split; [exact Hpair|]. split; [exact Hname|].
  exact (proj1 (perf_sched_process_fork_childname ScenariosMore.fork_line ∅)
           2 (tok "my task") Hi Hpair Hfirst Hname).
Defined.

(** X22: the name of the task woken up.  In the libtraceevent format it
    runs from argument 0 to the [':'] of the argument before the nearest
    bracketed priority; in the old format from the ['='] of argument 0
    to the argument before the nearest [pid=] argument; both are looked
    for from the last argument but one down to argument 1.  The name is
    returned pooled when it has at most [TASKNAME_MAXLEN] bytes and as
    the null string otherwise; the null string is also the answer when
    the marker is not found and when the last argument has neither
    format. *)
Theorem perf_sched_wakeup_name
  (event : TraceEvent) (pool : StringPool) (last : TString) :
  arg event (argc event - 1) = Some last ->
  (prefixcmp last WAKE_CPU_PFIX = 0 ->
   (forall k name,
      nearest_below event is_param_inside_braces_or_cant 1
        (argc event - 2) k ->
      distro_name event 0 (k - 1) = Some name ->
      perf_sched_wakeup_name_strdup_ event pool
      = Some (bounded_name pool name)) /\
   (none_between event is_param_inside_braces_or_cant 1 (argc event - 2) ->
    perf_sched_wakeup_name_strdup_ event pool = Some (NullStr, pool))) /\
  (prefixcmp last WAKE_TCPU_PFIX = 0 ->
   (forall k name,
      nearest_below event has_pid_pfix 1 (argc event - 2) k ->
      regular_name event 0 (k - 1) = Some name ->
      perf_sched_wakeup_name_strdup_ event pool
      = Some (bounded_name pool name)) /\
   (none_between event has_pid_pfix 1 (argc event - 2) ->
    perf_sched_wakeup_name_strdup_ event pool = Some (NullStr, pool))) /\
  (prefixcmp last WAKE_CPU_PFIX <> 0 ->
   prefixcmp last WAKE_TCPU_PFIX <> 0 ->
   perf_sched_wakeup_name_strdup_ event pool = Some (NullStr, pool)).
Proof.
  intros Hlast.
  assert (Hhi : argc event - 2 < argc event) by lia.
  unfold perf_sched_wakeup_name_strdup_. rewrite Hlast.
  cbn [mbind option_bind].
  split; [|split].
  - intros Hcpu. rewrite Hcpu. change (0 =? 0) with true. cbv iota.
    split.
    + intros k name Hnear Hname.
      rewrite (scan_down_from_nearest _ _ (argc event - 2) k Hhi Hnear).
      cbn [mbind option_bind].
      destruct Hnear as (Hk & _ & _).
      destruct (Z.leb_spec k 0); [lia|].
      pose proof (distro_path event pool 0 (k - 1) name Hname) as Hpath.
      replace (k - 2 + 1) with (k - 1) by lia.
      replace (k - 1 - 1) with (k - 2) in Hpath by lia.
      unfold distro_name in Hname.
      destruct (arg event (k - 1)) as [lastname|]; [|discriminate].
      cbn [mbind option_bind] in Hpath |- *.
      destruct (merge_args_into_cstring event 0 (k - 2) [] TASKNAME_MAXLEN)
        as [[buf|]|]; cbn [mbind option_bind] in Hpath |- *; exact Hpath.
    + intros Hnone.
      destruct (scan_down_from_none _ _ (argc event - 2) Hhi Hnone)
        as (e & -> & He).
      cbn [mbind option_bind].
      destruct (Z.leb_spec e 0); [reflexivity | lia].
  - intros Htcpu. pose proof (tcpu_not_cpu last Htcpu) as Hcpu.
    destruct (Z.eqb_spec (prefixcmp last WAKE_CPU_PFIX) 0); [contradiction|].
    rewrite Htcpu. change (0 =? 0) with true. cbv iota.
    split.
    + intros k name Hnear Hname.
      unfold has_pid_pfix in Hnear.
      rewrite (scan_down_from_nearest _ _ (argc event - 2) k Hhi Hnear).
      cbn [mbind option_bind].
      destruct Hnear as (Hk & _ & _).
      destruct (Z.leb_spec k 0); [lia|].
      apply (regular_path event pool 0 (k - 1) name Hname).
    + intros Hnone.
      unfold has_pid_pfix in Hnone.
      destruct (scan_down_from_none _ _ (argc event - 2) Hhi Hnone)
        as (e & -> & He).
      cbn [mbind option_bind].
      destruct (Z.leb_spec e 0); [reflexivity | lia].
  - intros Hcpu Htcpu.
    destruct (Z.eqb_spec (prefixcmp last WAKE_CPU_PFIX) 0); [contradiction|].
    destruct (Z.eqb_spec (prefixcmp last WAKE_TCPU_PFIX) 0);
      [contradiction|].
    reflexivity.
Qed.

Lemma perf_sched_wakeup_name_witness :
  arg ScenariosMore.wakeup_spaced (argc ScenariosMore.wakeup_spaced - 1)
    = Some (tok "CPU:3") /\
  prefixcmp (tok "CPU:3") WAKE_CPU_PFIX = 0 /\
  nearest_below ScenariosMore.wakeup_spaced is_param_inside_braces_or_cant
    1 (argc ScenariosMore.wakeup_spaced - 2) 2 /\
  distro_name ScenariosMore.wakeup_spaced 0 (2 - 1) = Some (tok "my task") /\
  perf_sched_wakeup_name_strdup_ ScenariosMore.wakeup_spaced ∅
  = Some (bounded_name ∅ (tok "my task")).
Proof.
  assert (Hlast : arg ScenariosMore.wakeup_spaced
                    (argc ScenariosMore.wakeup_spaced - 1)
                  = Some (tok "CPU:3")) by reflexivity.
  assert (Hcpu : prefixcmp (tok "CPU:3") WAKE_CPU_PFIX = 0) by reflexivity.
  assert (Hnear : nearest_below ScenariosMore.wakeup_spaced
                    is_param_inside_braces_or_cant 1
                    (argc ScenariosMore.wakeup_spaced - 2) 2).
  { change (argc ScenariosMore.wakeup_spaced - 2) with 3.
    split; [lia|]. split.
    - exists (tok "[120]"). split; vm_compute; reflexivity.
    - intros j t Hj Harg. assert (j = 3) as -> by lia.
      vm_compute in Harg. injection Harg as <-. vm_compute. reflexivity. }
  assert (Hname : distro_name ScenariosMore.wakeup_spaced 0 (2 - 1)
                  = Some (tok "my task")) by (vm_compute; reflexivity).
  split; [exact Hlast|]. split; [exact Hcpu|]. split; [exact Hnear|].
  split; [exact Hname|].
  exact (proj1 (proj1 (perf_sched_wakeup_name ScenariosMore.wakeup_spaced ∅
                         (tok "CPU:3") Hlast) Hcpu)
           2 (tok "my task") Hnear Hname).
Defined.

End PerfParamsMoreProofs.
